(** * G+Smo expression assembler: a shallow embedding of
      [gsAssembler/gsExprAssembler.h] and of
      [gsUnstructuredSplines/gsContainerBasis.h]

    The classes are templates over the coefficient type [T]; the embedding
    is parametric in [T] in the same way, through the class [Scalar].
    [index_t] and [short_t] values are integers in [Z] (signed overflow is
    undefined behaviour in C++ and is not part of the model), [size_t]
    counters are [nat].  Dense Eigen matrices are column-major lists with
    their extents, the sparse matrix is a finite map from (row, column) to
    coefficient, whose keys are the structural entries.  A failed
    assertion, an index outside a container and a null pointer abort the
    call; they are the [Fatal] outcomes of the [result] monad.  *)

From Stdlib Require Import ZArith QArith Lia.
From stdpp Require Import base option list gmap numbers.

Local Open Scope Z_scope.

(** ** Outcomes of a call *)

Inductive gsError : Type :=
| UninitializedState      (* a size is queried before the mapper is finalized *)
| SystemNotInitialized    (* assemble before the matrix is sized *)
| InvalidRegistration     (* non-scalar source space or block id out of range *)
| InvalidSpace            (* row or column space handle is not valid *)
| RhsNotInitialized       (* vector-valued push into an empty right-hand side *)
| MalformedLocalBlock     (* local block extents disagree with the spaces *)
| InconsistentFixedDofs   (* fixed-DOF vector length differs from boundarySize *)
| NotMatrixNorVector      (* "Something went terribly wrong at this point" *)
| WrongPointDimension     (* active_into: points of the wrong dimension *)
| SizeMismatch            (* Eigen: operands or blocks of different extents *)
| OutOfRange              (* index outside a vector, list or matrix *)
| NullPointer             (* dereference of an unset slot *)
| Diverges.               (* a loop whose exit test [i != n] is never met *)

Inductive result (A : Type) : Type :=
| Ok (a : A)
| Fatal (e : gsError).
Arguments Ok {A} a.
Arguments Fatal {A} e.

Global Instance result_ret : MRet result := @Ok.
Global Instance result_bind : MBind result := λ A B f r,
  match r with Ok a => f a | Fatal e => Fatal e end.

Definition is_ok {A} (r : result A) : bool :=
  match r with Ok _ => true | Fatal _ => false end.

(** The value of a call that succeeds. *)
Definition value {A} (r : result A) (otherwise : A) : A :=
  match r with Ok a => a | Fatal _ => otherwise end.

(** Modelled from the spec: the macro GISMO_ASSERT is defined outside the
    two source files.  Section 7 of the specification makes every violated
    precondition fatal ("aborts the current assembly call entirely"), so a
    failed assertion ends the call with the given error. *)
Definition GISMO_ASSERT (c : bool) (e : gsError) : result unit :=
  if c then Ok tt else Fatal e.

(** [for (x : l) body] threading the state and stopping at the first error. *)
Fixpoint for_each {A S : Type} (l : list A) (body : A → S → result S) (s : S)
  : result S :=
  match l with
  | [] => Ok s
  | x :: l' => s' ← body x s; for_each l' body s'
  end.

(** The indices [0, ..., n-1] of a loop over an extent. *)
Definition upto (n : nat) : list Z := Z.of_nat <$> seq 0 n.

(** The index range of [for (index_t i = 0; i != n; ++i)].  With [n < 0] the
    exit test is never met. *)
Definition index_range (n : Z) : result (list Z) :=
  if decide (0 ≤ n) then Ok (upto (Z.to_nat n)) else Fatal Diverges.

(** ** The coefficient type *)

Class Scalar (T : Type) : Type := {
  s_zero : T;
  s_one : T;
  s_add : T → T → T;
  s_sub : T → T → T;
  s_mul : T → T → T;
  s_is_zero : T → bool;       (* the test [0 == x] *)
  s_of_int : Z → T;           (* conversion of an index_t or short_t operand *)
  s_cast : T → Z              (* cast<T,index_t> *)
}.

Global Instance Z_Scalar : Scalar Z := {|
  s_zero := 0; s_one := 1;
  s_add := Z.add; s_sub := Z.sub; s_mul := Z.mul;
  s_is_zero := λ x, bool_decide (x = 0);
  s_of_int := λ x, x;
  s_cast := λ x, x
|}.

(** Rationals stand for real coefficients; the cast to [index_t] truncates
    towards zero as [static_cast] does. *)
Global Instance Q_Scalar : Scalar Q := {|
  s_zero := 0%Q; s_one := 1%Q;
  s_add := Qplus; s_sub := Qminus; s_mul := Qmult;
  s_is_zero := λ x, bool_decide (Qnum x = 0);
  s_of_int := inject_Z;
  s_cast := λ x, Z.quot (Qnum x) (Z.pos (Qden x))
|}.

(** ** Dense matrices (gsMatrix, gsVector) *)

Record gsMatrix (X : Type) : Type := mkMatrix {
  mat_rows : nat;
  mat_cols : nat;
  mat_data : list X          (* column-major *)
}.
Arguments mkMatrix {X} _ _ _.
Arguments mat_rows {X} _.
Arguments mat_cols {X} _.
Arguments mat_data {X} _.

Definition rows {X} (M : gsMatrix X) : Z := Z.of_nat (mat_rows M).
Definition cols {X} (M : gsMatrix X) : Z := Z.of_nat (mat_cols M).
Definition mat_size {X} (M : gsMatrix X) : Z := rows M * cols M.

Definition mat_wf {X} (M : gsMatrix X) : Prop :=
  length (mat_data M) = (mat_rows M * mat_cols M)%nat.

(** [l[k]] for a signed index. *)
Definition list_at {X} (l : list X) (k : Z) : result X :=
  if decide (0 ≤ k) then
    match l !! Z.to_nat k with Some x => Ok x | None => Fatal OutOfRange end
  else Fatal OutOfRange.

(** [M.at(k)]: linear access. *)
Definition mat_at {X} (M : gsMatrix X) (k : Z) : result X :=
  list_at (mat_data M) k.

(** [M(r,c)]. *)
Definition mat_coeff {X} (M : gsMatrix X) (r c : Z) : result X :=
  if decide (0 ≤ r < rows M ∧ 0 ≤ c < cols M)
  then list_at (mat_data M) (r + c * rows M)
  else Fatal OutOfRange.

(** [M.at(k) = x]. *)
Definition mat_set_at {X} (M : gsMatrix X) (k : Z) (x : X) : result (gsMatrix X) :=
  _ ← mat_at M k;
  Ok (mkMatrix (mat_rows M) (mat_cols M) (<[Z.to_nat k := x]> (mat_data M))).

(** [M.setZero(r,c)] and the default-constructed empty matrix. *)
Definition mat_zero {X} (z : X) (r c : Z) : gsMatrix X :=
  mkMatrix (Z.to_nat r) (Z.to_nat c) (replicate (Z.to_nat r * Z.to_nat c) z).
Definition mat_empty {X} : gsMatrix X := mkMatrix 0 0 [].

(** ** Sparse matrix (gsSparseMatrix) *)

Section Assembler.
Context {T : Type} `{Scalar T}.

Record gsSparseMatrix : Type := mkSparse {
  sm_rows : Z;
  sm_cols : Z;
  sm_coeffs : gmap (Z * Z) T;        (* structural entries and their values *)
  sm_reserved : option Z             (* reservePerColumn estimate, if any *)
}.

(** [gsSparseMatrix<T>(r, c)]. *)
Definition sparse_new (r c : Z) : gsSparseMatrix := mkSparse r c ∅ None.

Definition reservePerColumn (k : Z) (M : gsSparseMatrix) : gsSparseMatrix :=
  mkSparse (sm_rows M) (sm_cols M) (sm_coeffs M) (Some k).

(** [M.coeffRef(i,j) += x]: coeffRef inserts an explicit zero when the entry
    is not yet stored and returns a reference to it. *)
Definition coeffRef_add (i j : Z) (x : T) (M : gsSparseMatrix) : result gsSparseMatrix :=
  if decide (0 ≤ i < sm_rows M ∧ 0 ≤ j < sm_cols M) then
    Ok (mkSparse (sm_rows M) (sm_cols M)
          (<[(i, j) := s_add (default s_zero (sm_coeffs M !! (i, j))) x]> (sm_coeffs M))
          (sm_reserved M))
  else Fatal OutOfRange.

(** ** DOF mapper and space data *)

(** Modelled from the spec: gsDofMapper is declared outside the two source
    files.  Sections 3 and 6 give its interface: the counts [freeSize],
    [coupledSize], [boundarySize], the [firstIndex]/shift placing the block
    inside the global numbering, [setShift], [isFinalized], the index of a
    (local index, patch, component) triple and the classification of a
    global index.  How indices are numbered is left open: the index map,
    the free test and the boundary index are arbitrary functions of the
    current shift. *)
Record gsDofMapper : Type := mkMapper {
  m_shift : Z;
  m_finalized : bool;
  m_freeSize : Z;
  m_coupledSize : Z;
  m_boundarySize : Z;
  m_index : Z → Z → Z → Z → Z;         (* shift, local index, patch, component *)
  m_is_free : Z → Z → bool;            (* shift, global index *)
  m_bindex : Z → Z → Z                 (* shift, global index *)
}.

Definition firstIndex (m : gsDofMapper) : Z := m_shift m.
Definition freeSize (m : gsDofMapper) : Z := m_freeSize m.
Definition coupledSize (m : gsDofMapper) : Z := m_coupledSize m.
Definition boundarySize (m : gsDofMapper) : Z := m_boundarySize m.
Definition isFinalized (m : gsDofMapper) : bool := m_finalized m.
Definition index (m : gsDofMapper) (i k c : Z) : Z := m_index m (m_shift m) i k c.
Definition is_free_index (m : gsDofMapper) (gl : Z) : bool := m_is_free m (m_shift m) gl.
Definition global_to_bindex (m : gsDofMapper) (gl : Z) : Z := m_bindex m (m_shift m) gl.

Definition setShift (shift : Z) (m : gsDofMapper) : gsDofMapper :=
  mkMapper shift (m_finalized m) (m_freeSize m) (m_coupledSize m)
    (m_boundarySize m) (m_index m) (m_is_free m) (m_bindex m).

(** Modelled from the spec: a mapper as it is before the space is set up:
    not finalized, nothing counted, shift zero. *)
Definition default_mapper : gsDofMapper :=
  mkMapper 0 false 0 0 0 (λ _ i _ _, i) (λ _ _, true) (λ _ gl, gl).

Record gsFunctionSet : Type := mkFunctionSet {
  targetDim : Z;
  fs_name : nat
}.

(** gsFeSpaceData<T>: what [m_sdata] stores for each registered space. *)
Record gsFeSpaceData : Type := mkSpaceData {
  fs : gsFunctionSet;
  dim : Z;
  id : Z;
  mapper : gsDofMapper;
  fixedDofs : gsMatrix T
}.

Definition with_mapper (m : gsDofMapper) (sd : gsFeSpaceData) : gsFeSpaceData :=
  mkSpaceData (fs sd) (dim sd) (id sd) m (fixedDofs sd).

(** ** Options and the integration mesh *)

Record gsOptionList : Type := mkOptions {
  DirichletValues : Z;
  quA : T;
  quB : Z;
  bdA : T;
  bdB : Z;
  bdO : T
}.

(** What the assembler reads from [m_exprdata->multiBasis()]. *)
Record gsMultiBasis : Type := mkMultiBasis {
  domainDim : Z;
  maxDegree : Z → Z;
  nBases : nat
}.

(** Calls received by the evaluation provider, oldest first. *)
Inductive gsCall : Type :=
| CallPrecompute (patch : Z)
| CallIfacePrecompute (patch : Z)
| CallEval (k : Z).

(** gsExprHelper<T>, the object behind [m_exprdata]: the integration mesh and
    the calls it has served.  Its buffer of quadrature points is rewritten by
    [mapTo] at the start of every element, before anything reads it; the
    model passes the mapped points to the element instead of storing them. *)
Record gsExprHelper : Type := mkHelper {
  multiBasis : gsMultiBasis;
  calls : list gsCall
}.

(** ** The assembler and its space registry

    [m_sdata] is a std::list whose nodes never move; [m_vrow] and [m_vcol]
    hold pointers to its nodes.  A pointer is the position of the node in
    [m_sdata], [None] is nullptr.  Row and column slots that hold the same
    position alias one gsFeSpaceData object. *)
Record gsExprAssembler : Type := mkAssembler {
  m_options : gsOptionList;
  m_exprdata : gsExprHelper;
  m_matrix : gsSparseMatrix;
  m_rhs : gsMatrix T;
  m_sdata : list gsFeSpaceData;
  m_vrow : list (option nat);
  m_vcol : list (option nat);
  m_warnings : nat                     (* lines written to gsWarn *)
}.

Definition with_sdata (sd : list gsFeSpaceData) (a : gsExprAssembler) :=
  mkAssembler (m_options a) (m_exprdata a) (m_matrix a) (m_rhs a) sd
    (m_vrow a) (m_vcol a) (m_warnings a).
Definition with_matrix (M : gsSparseMatrix) (a : gsExprAssembler) :=
  mkAssembler (m_options a) (m_exprdata a) M (m_rhs a) (m_sdata a)
    (m_vrow a) (m_vcol a) (m_warnings a).
Definition with_rhs (r : gsMatrix T) (a : gsExprAssembler) :=
  mkAssembler (m_options a) (m_exprdata a) (m_matrix a) r (m_sdata a)
    (m_vrow a) (m_vcol a) (m_warnings a).
Definition with_slots (vr vc : list (option nat)) (a : gsExprAssembler) :=
  mkAssembler (m_options a) (m_exprdata a) (m_matrix a) (m_rhs a) (m_sdata a)
    vr vc (m_warnings a).
Definition with_exprdata (h : gsExprHelper) (a : gsExprAssembler) :=
  mkAssembler (m_options a) h (m_matrix a) (m_rhs a) (m_sdata a)
    (m_vrow a) (m_vcol a) (m_warnings a).
Definition warn (a : gsExprAssembler) :=
  mkAssembler (m_options a) (m_exprdata a) (m_matrix a) (m_rhs a) (m_sdata a)
    (m_vrow a) (m_vcol a) (S (m_warnings a)).

(** [defaultOptions()]: DirichletValues 101, quA 1.0, quB 1, bdA 2.0, bdB 1
    and bdO 0.333; the last literal has no expression in the operations of
    [Scalar] and is the argument. *)
Definition defaultOptions (third : T) : gsOptionList :=
  mkOptions 101 s_one 1 (s_add s_one s_one) 1 third.

(** The constructor [gsExprAssembler(_rBlocks, _cBlocks)]. *)
Definition new_assembler (opts : gsOptionList) (mb : gsMultiBasis)
  (_rBlocks _cBlocks : nat) : gsExprAssembler :=
  mkAssembler opts (mkHelper mb []) (sparse_new 0 0) mat_empty []
    (replicate _rBlocks None) (replicate _cBlocks None) 0.

(** [v[i]] on a std::vector. *)
Definition vec_get {A} (v : list A) (i : nat) : result A :=
  match v !! i with Some x => Ok x | None => Fatal OutOfRange end.

(** [v.back()]. *)
Definition vec_back {A} (v : list A) : result A :=
  match list.last v with Some x => Ok x | None => Fatal OutOfRange end.

(** [*p] for a slot of [m_vrow] or [m_vcol]. *)
Definition deref (sd : list gsFeSpaceData) (p : option nat) : result gsFeSpaceData :=
  match p with
  | Some k => match sd !! k with Some d => Ok d | None => Fatal NullPointer end
  | None => Fatal NullPointer
  end.

(** [p->mapper.setShift(s)]. *)
Definition setShift_at (p : option nat) (s : Z) (sd : list gsFeSpaceData)
  : result (list gsFeSpaceData) :=
  d ← deref sd p;
  match p with
  | Some k => Ok (<[k := with_mapper (setShift s (mapper d)) d]> sd)
  | None => Fatal NullPointer
  end.

(** [getSpace(mp, dim, id)]: one space data node serves as trial and as test
    space of block [id]. *)
Definition getSpace (mp : gsFunctionSet) (dim0 id0 : Z) (a : gsExprAssembler)
  : result gsExprAssembler :=
  GISMO_ASSERT (bool_decide (1 = targetDim mp)) InvalidRegistration;;
  GISMO_ASSERT (bool_decide (0 ≤ id0 ∧ (Z.to_nat id0 < length (m_vrow a))%nat))
    InvalidRegistration;;
  let p := length (m_sdata a) in
  let sd := m_sdata a ++ [mkSpaceData mp dim0 id0 default_mapper mat_empty] in
  _ ← vec_get (m_vcol a) (Z.to_nat id0);
  Ok (with_slots (<[Z.to_nat id0 := Some p]> (m_vrow a))
                 (<[Z.to_nat id0 := Some p]> (m_vcol a))
                 (with_sdata sd a)).

(** [getTestSpace(u, mp, dim)]: a distinct test space for the block of the
    trial space [u]; [uid] and [udim] are [u.id()] and [u.dim()]. *)
Definition getTestSpace (uid udim : Z) (mp : gsFunctionSet) (dim0 : Z)
  (a : gsExprAssembler) : result gsExprAssembler :=
  let d := if decide (-1 = dim0) then udim else dim0 in
  let p := length (m_sdata a) in
  let sd := m_sdata a ++ [mkSpaceData mp d uid default_mapper mat_empty] in
  _ ← (if decide (0 ≤ uid) then vec_get (m_vrow a) (Z.to_nat uid) else Fatal OutOfRange);
  Ok (with_slots (<[Z.to_nat uid := Some p]> (m_vrow a)) (m_vcol a) (with_sdata sd a)).

(** The space handle's [setup] finalizes the mapper and sizes the fixed-DOF
    vector through the pointer kept in the handle. *)
Definition setup_space (p : nat) (m : gsDofMapper) (fixed : gsMatrix T)
  (a : gsExprAssembler) : gsExprAssembler :=
  match m_sdata a !! p with
  | Some d => with_sdata (<[p := mkSpaceData (fs d) (dim d) (id d) m fixed]> (m_sdata a)) a
  | None => a
  end.

(** ** Sizes *)

Definition numDofs (a : gsExprAssembler) : result Z :=
  p ← vec_back (m_vcol a);
  d ← deref (m_sdata a) p;
  GISMO_ASSERT (isFinalized (mapper d)) UninitializedState;;
  Ok (firstIndex (mapper d) + freeSize (mapper d)).

Definition numTestDofs (a : gsExprAssembler) : result Z :=
  p ← vec_back (m_vrow a);
  d ← deref (m_sdata a) p;
  GISMO_ASSERT (isFinalized (mapper d)) UninitializedState;;
  Ok (firstIndex (mapper d) + freeSize (mapper d)).

Definition numBlocks (a : gsExprAssembler) : result Z :=
  for_each (m_vrow a) (λ p nb, d ← deref (m_sdata a) p; Ok (nb + dim d)) 0.

(** ** resetDimensions *)

Definition chained (d : gsFeSpaceData) : Z :=
  firstIndex (mapper d) + dim d * freeSize (mapper d).

Definition resetDimensions_step (vrow vcol : list (option nat)) (i : nat)
  (sd : list gsFeSpaceData) : result (list gsFeSpaceData) :=
  ci ← vec_get vcol i;
  cp ← vec_get vcol (i - 1);
  dcp ← deref sd cp;
  sd1 ← setShift_at ci (chained dcp) sd;
  ri ← vec_get vrow i;
  if decide (ci ≠ ri) then
    rp ← vec_get vrow (i - 1);
    drp ← deref sd1 rp;
    setShift_at ri (chained drp) sd1
  else Ok sd1.

(** [for (size_t i = 1; i != m_vcol.size(); ++i)]: with an empty [m_vcol]
    the first access [m_vcol[1]] is already outside the vector. *)
Definition resetDimensions (a : gsExprAssembler) : result gsExprAssembler :=
  match length (m_vcol a) with
  | O => Fatal OutOfRange
  | S n =>
      sd ← for_each (seq 1 n) (resetDimensions_step (m_vrow a) (m_vcol a)) (m_sdata a);
      Ok (with_sdata sd a)
  end.

(** ** initMatrix, initVector, initSystem *)

(** [nz = 1; for (i = 0; i != dim; ++i) nz *= bdA * maxDegree(i) + bdB]. *)
Definition nz_estimate (o : gsOptionList) (mb : gsMultiBasis) : result T :=
  dims ← index_range (domainDim mb);
  Ok (foldl (λ nz i, s_mul nz (s_add (s_mul (bdA o) (s_of_int (maxDegree mb i)))
                                      (s_of_int (bdB o))))
            s_one dims).

Definition initMatrix (a : gsExprAssembler) : result gsExprAssembler :=
  a1 ← resetDimensions a;
  nr ← numTestDofs a1;
  nc ← numDofs a1;
  let a2 := with_matrix (sparse_new nr nc) a1 in
  if decide (0 = sm_rows (m_matrix a2) ∨ 0 = sm_cols (m_matrix a2)) then
    Ok (warn a2)
  else
    nz ← nz_estimate (m_options a2) (multiBasis (m_exprdata a2));
    nb ← numBlocks a2;
    Ok (with_matrix
          (reservePerColumn
             (nb * s_cast (s_mul nz (s_add s_one (bdO (m_options a2)))))
             (m_matrix a2)) a2).

Definition initVector (numRhs : Z) (a : gsExprAssembler) : result gsExprAssembler :=
  a1 ← resetDimensions a;
  n ← numDofs a1;
  Ok (with_rhs (mat_zero s_zero n numRhs) a1).

Definition initSystem (a : gsExprAssembler) : result gsExprAssembler :=
  a1 ← initMatrix a;
  n ← numDofs a1;
  Ok (with_rhs (mat_zero s_zero n 1) a1).

(** ** Registries and blocks, for the statements below *)

(** The space data behind slot [i] of [m_vrow] or [m_vcol]. *)
Definition slot_data (sd : list gsFeSpaceData) (v : list (option nat)) (i : nat)
  : option gsFeSpaceData :=
  p ← v !! i; k ← p; sd !! k.

(** Block [i] starts where block [i-1] ends. *)
Definition chained_at (sd : list gsFeSpaceData) (v : list (option nat)) (i : nat) : Prop :=
  ∃ di dp, slot_data sd v i = Some di ∧ slot_data sd v (i - 1) = Some dp
           ∧ firstIndex (mapper di) = chained dp.

(** [x] lies in the global index range of block [i]. *)
Definition in_block (sd : list gsFeSpaceData) (v : list (option nat)) (i : nat) (x : Z)
  : Prop :=
  ∃ di, slot_data sd v i = Some di ∧ firstIndex (mapper di) ≤ x < chained di.

(** No block has a negative extent [dim * freeSize]. *)
Definition extents_nonneg (sd : list gsFeSpaceData) (v : list (option nat)) : Prop :=
  ∀ i di, slot_data sd v i = Some di → 0 ≤ dim di * freeSize (mapper di).

(** Two space data that differ at most in the shift of their mappers. *)
Definition same_but_shift (d1 d2 : gsFeSpaceData) : Prop :=
  d2 = with_mapper (setShift (m_shift (mapper d2)) (mapper d1)) d1.

(** How the slots of a registry point into [m_sdata]: distinct column slots
    never share space data, neither do distinct row slots, and a row slot
    shares space data with the column slot of the same block only. *)
Record slots_wf (vrow vcol : list (option nat)) : Prop := mkSlotsWf {
  wf_cols : ∀ i k p, vcol !! i = Some (Some p) → vcol !! k = Some (Some p) → i = k;
  wf_rows : ∀ i k p, vrow !! i = Some (Some p) → vrow !! k = Some (Some p) → i = k;
  wf_cross : ∀ i k p, vcol !! i = Some (Some p) → vrow !! k = Some (Some p) → i = k
}.

Definition registry_wf (a : gsExprAssembler) : Prop :=
  slots_wf (m_vrow a) (m_vcol a)
  ∧ ∀ i p, m_vcol a !! i = Some (Some p) ∨ m_vrow a !! i = Some (Some p) →
           (p < length (m_sdata a))%nat.

(** Every block has its trial and its test space registered. *)
Definition all_registered (a : gsExprAssembler) : Prop :=
  m_vcol a ≠ []
  ∧ (length (m_vcol a) ≤ length (m_vrow a))%nat
  ∧ ∀ i, (i < length (m_vcol a))%nat →
      ∃ pc pr, m_vcol a !! i = Some (Some pc) ∧ m_vrow a !! i = Some (Some pr)
               ∧ (pc < length (m_sdata a))%nat ∧ (pr < length (m_sdata a))%nat.

(** Block [i] is where a run of resetDimensions leaves it: the column block
    is chained, and the row block shares the column block or is chained. *)
Definition step_fixed (vrow vcol : list (option nat)) (sd : list gsFeSpaceData)
  (i : nat) : Prop :=
  chained_at sd vcol i ∧ (vrow !! i = vcol !! i ∨ chained_at sd vrow i).

(** The assemblers a program can build: constructed, then spaces registered
    and set up, systems sized. *)
Inductive reachable : gsExprAssembler → Prop :=
| reach_new opts mb r c : reachable (new_assembler opts mb r c)
| reach_getSpace a a' mp dim0 id0 :
    reachable a → getSpace mp dim0 id0 a = Ok a' → reachable a'
| reach_getTestSpace a a' uid udim mp dim0 :
    reachable a → getTestSpace uid udim mp dim0 a = Ok a' → reachable a'
| reach_setup a p m fixed : reachable a → reachable (setup_space p m fixed a)
| reach_initMatrix a a' : reachable a → initMatrix a = Ok a' → reachable a'
| reach_initVector a a' n : reachable a → initVector n a = Ok a' → reachable a'
| reach_initSystem a a' : reachable a → initSystem a = Ok a' → reachable a'.

(** The factor [bdA * maxDegree(i) + bdB] of direction [i]. *)
Definition degree_factor (o : gsOptionList) (mb : gsMultiBasis) (i : Z) : T :=
  s_add (s_mul (bdA o) (s_of_int (maxDegree mb i))) (s_of_int (bdB o)).

Definition s_product (l : list T) : T := foldl s_mul s_one l.
Definition s_sum (l : list T) : T := foldl s_add s_zero l.

(** The reservation computed by initMatrix: the product of the factors of
    all directions, times the overhead, cast, times the number of blocks. *)
Definition reserve_by_product (o : gsOptionList) (mb : gsMultiBasis) (nb : Z) : Z :=
  nb * s_cast (s_mul (s_product (degree_factor o mb <$> upto (Z.to_nat (domainDim mb))))
                     (s_add s_one (bdO o))).

(** The reservation as the specification words it: the overhead times the
    sum of the factors of all directions. *)
Definition reserve_by_sum (o : gsOptionList) (mb : gsMultiBasis) (nb : Z) : Z :=
  nb * s_cast (s_mul (s_add s_one (bdO o))
                     (s_sum (degree_factor o mb <$> upto (Z.to_nat (domainDim mb))))).

(** ** Local-to-global scatter *)

(** expr::gsFeSpace<T>, the handle of a registered space as an expression
    sees it: its validity, and what [dim()], [mapper()], [data().actives]
    and [fixedPart()] return for the current element. *)
Record gsFeSpace : Type := mkSpace {
  isValid : bool;
  sp_id : Z;
  sp_dim : Z;
  sp_mapper : gsDofMapper;
  sp_actives : gsMatrix Z;
  sp_fixedPart : gsMatrix T
}.

(** The functor [_eval].  Its member [m_quWeights] is a reference to the
    weight vector of the running traversal, which [mapTo] refills for every
    element; the model hands the weights to [eval_expr] directly. *)
Record _eval : Type := mkEval {
  ev_matrix : gsSparseMatrix;          (* m_matrix *)
  ev_rhs : gsMatrix T;                 (* m_rhs *)
  m_patchInd : Z;
  localMat : gsMatrix T
}.

Definition with_ev_matrix (M : gsSparseMatrix) (ev : _eval) : _eval :=
  mkEval M (ev_rhs ev) (m_patchInd ev) (localMat ev).
Definition with_ev_rhs (r : gsMatrix T) (ev : _eval) : _eval :=
  mkEval (ev_matrix ev) r (m_patchInd ev) (localMat ev).
Definition with_localMat (M : gsMatrix T) (ev : _eval) : _eval :=
  mkEval (ev_matrix ev) (ev_rhs ev) (m_patchInd ev) M.
Definition setPatch (p : Z) (ev : _eval) : _eval :=
  mkEval (ev_matrix ev) (ev_rhs ev) p (localMat ev).

(** [m_rhs.at(ii) = f (m_rhs.at(ii))]. *)
Definition rhs_update (f : T → T) (ii : Z) (ev : _eval) : result _eval :=
  x ← mat_at (ev_rhs ev) ii;
  r ← mat_set_at (ev_rhs ev) ii (f x);
  Ok (with_ev_rhs r ev).

(** The body of the innermost loop of [push<true>], for local row
    [rls + i] (global row [ii]) and local column [cls + j]. *)
Definition push_entry (colMap : gsDofMapper) (colInd0 : gsMatrix Z)
  (fixedDofs : gsMatrix T) (patchInd ii rls i c j : Z) (ev : _eval) : result _eval :=
  let cls := c * rows colInd0 in
  m ← mat_coeff (localMat ev) (rls + i) (cls + j);
  if s_is_zero m then Ok ev
  else
    cj ← mat_at colInd0 j;
    let jj := index colMap cj patchInd c in
    if is_free_index colMap jj then
      M ← coeffRef_add ii jj m (ev_matrix ev);
      Ok (with_ev_matrix M ev)
    else
      f ← mat_at fixedDofs (global_to_bindex colMap jj);
      rhs_update (λ x, s_sub x (s_mul m f)) ii ev.

(** The body of the loop over the local rows [i] of component [r]. *)
Definition push_row (isMatrix : bool) (rowMap colMap : gsDofMapper)
  (rowInd0 colInd0 : gsMatrix Z) (fixedDofs : gsMatrix T) (cd patchInd r i : Z)
  (ev : _eval) : result _eval :=
  let rls := r * rows rowInd0 in
  ri ← mat_at rowInd0 i;
  let ii := index rowMap ri patchInd r in
  if is_free_index rowMap ii then
    if isMatrix then
      cs ← index_range cd;
      for_each cs (λ c,
        for_each (upto (mat_rows colInd0))
          (push_entry colMap colInd0 fixedDofs patchInd ii rls i c)) ev
    else
      x ← mat_at (localMat ev) (rls + i);
      rhs_update (λ y, s_add y x) ii ev
  else Ok ev.

(** [push<isMatrix>(v, u, patchInd)].  The calls of [localToGlobal] fill
    [rowInd] and [colInd], which nothing reads afterwards. *)
Definition push (isMatrix : bool) (v u : gsFeSpace) (patchInd : Z) (ev : _eval)
  : result _eval :=
  GISMO_ASSERT (isValid v) InvalidSpace;;
  GISMO_ASSERT (negb isMatrix || isValid u) InvalidSpace;;
  GISMO_ASSERT (isMatrix || bool_decide (0 ≠ mat_size (ev_rhs ev))) RhsNotInitialized;;
  let cd := sp_dim u in
  let rd := sp_dim v in
  let rowMap := sp_mapper v in
  let colMap := if isMatrix then sp_mapper u else rowMap in
  let rowInd0 := sp_actives v in
  let colInd0 := if isMatrix then sp_actives u else rowInd0 in
  let fixedDofs := if isMatrix then sp_fixedPart u else mat_empty in
  (if isMatrix then
     GISMO_ASSERT (bool_decide (rows rowInd0 * rd = rows (localMat ev)
                                ∧ rows colInd0 * cd = cols (localMat ev)))
       MalformedLocalBlock;;
     GISMO_ASSERT (bool_decide (boundarySize colMap = mat_size fixedDofs))
       InconsistentFixedDofs
   else Ok tt);;
  rs ← index_range rd;
  for_each rs (λ r,
    for_each (upto (mat_rows rowInd0))
      (push_row isMatrix rowMap colMap rowInd0 colInd0 fixedDofs cd patchInd r)) ev.

(** ** What a push contributes, for the statements below

    The lists below collect, in the order of the loops of [push], the
    contributions of one local block [M] to a coefficient of the global
    matrix or to a row of the right-hand side.  They read [M], the active
    indices and the fixed values with a default outside the containers; a
    push that succeeds has found every entry it read inside. *)

Definition entry_or_zero (M : gsMatrix T) (k : Z) : T := value (mat_at M k) s_zero.
Definition coeff_or_zero (M : gsMatrix T) (r c : Z) : T := value (mat_coeff M r c) s_zero.
Definition active_at (A : gsMatrix Z) (i : Z) : Z := value (mat_at A i) 0.

(** The global row of local row [i] of component [r], and the global column
    of local column [j] of component [c]. *)
Definition global_row (v : gsFeSpace) (patchInd r i : Z) : Z :=
  index (sp_mapper v) (active_at (sp_actives v) i) patchInd r.
Definition global_col (u : gsFeSpace) (patchInd c j : Z) : Z :=
  index (sp_mapper u) (active_at (sp_actives u) j) patchInd c.

(** The entry of [M] at local row [i] of component [r] and local column [j]
    of component [c]. *)
Definition local_entry (v u : gsFeSpace) (M : gsMatrix T) (r i c j : Z) : T :=
  coeff_or_zero M (r * rows (sp_actives v) + i) (c * rows (sp_actives u) + j).

(** The local entries added to the coefficient [(a, b)] of the matrix: the
    non-zero entries at a free row [a] and a free column [b]. *)
Definition matrix_terms (v u : gsFeSpace) (patchInd : Z) (M : gsMatrix T) (a b : Z)
  : list T :=
  r ← upto (Z.to_nat (sp_dim v));
  i ← upto (mat_rows (sp_actives v));
  if is_free_index (sp_mapper v) (global_row v patchInd r i)
     && bool_decide (global_row v patchInd r i = a)
  then
    c ← upto (Z.to_nat (sp_dim u));
    j ← upto (mat_rows (sp_actives u));
    if s_is_zero (local_entry v u M r i c j) then []
    else if is_free_index (sp_mapper u) (global_col u patchInd c j)
         then (if decide (global_col u patchInd c j = b)
               then [local_entry v u M r i c j] else [])
         else []
  else [].

(** The products [m * fixedDofs(column)] subtracted from row [a] of the
    right-hand side: one for each non-zero entry [m] at the free row [a] and
    an eliminated column. *)
Definition elim_terms (v u : gsFeSpace) (patchInd : Z) (M : gsMatrix T) (a : Z)
  : list T :=
  r ← upto (Z.to_nat (sp_dim v));
  i ← upto (mat_rows (sp_actives v));
  if is_free_index (sp_mapper v) (global_row v patchInd r i)
     && bool_decide (global_row v patchInd r i = a)
  then
    c ← upto (Z.to_nat (sp_dim u));
    j ← upto (mat_rows (sp_actives u));
    if s_is_zero (local_entry v u M r i c j) then []
    else if is_free_index (sp_mapper u) (global_col u patchInd c j) then []
         else [s_mul (local_entry v u M r i c j)
                 (entry_or_zero (sp_fixedPart u)
                    (global_to_bindex (sp_mapper u) (global_col u patchInd c j)))]
  else [].

(** The local entries of a vector-valued block added to row [a] of the
    right-hand side: those whose global row is [a] and free. *)
Definition vector_terms (v : gsFeSpace) (patchInd : Z) (M : gsMatrix T) (a : Z)
  : list T :=
  r ← upto (Z.to_nat (sp_dim v));
  i ← upto (mat_rows (sp_actives v));
  if is_free_index (sp_mapper v) (global_row v patchInd r i)
     && bool_decide (global_row v patchInd r i = a)
  then [entry_or_zero M (r * rows (sp_actives v) + i)]
  else [].

(** A stored coefficient after the terms [ts] were added to it one by one;
    the first addition to a coefficient that is not stored starts from
    zero, and without additions nothing gets stored. *)
Definition accumulate (ts : list T) (o : option T) : option T :=
  match ts with
  | [] => o
  | _ => Some (foldl s_add (default s_zero o) ts)
  end.

(** The state [ev'] is [ev] after the terms [mt a b] were added to the
    coefficients [(a, b)] and the terms [rt a] combined by [op] into the
    rows [a] of the right-hand side, and nothing else. *)
Record effect (op : T → T → T) (mt : Z → Z → list T) (rt : Z → list T)
  (ev ev' : _eval) : Prop := mkEffect {
  eff_localMat : localMat ev' = localMat ev;
  eff_patch : m_patchInd ev' = m_patchInd ev;
  eff_sm_rows : sm_rows (ev_matrix ev') = sm_rows (ev_matrix ev);
  eff_sm_cols : sm_cols (ev_matrix ev') = sm_cols (ev_matrix ev);
  eff_sm_reserved : sm_reserved (ev_matrix ev') = sm_reserved (ev_matrix ev);
  eff_rhs_rows : mat_rows (ev_rhs ev') = mat_rows (ev_rhs ev);
  eff_rhs_cols : mat_cols (ev_rhs ev') = mat_cols (ev_rhs ev);
  eff_rhs_length : length (mat_data (ev_rhs ev')) = length (mat_data (ev_rhs ev));
  eff_coeffs : ∀ a b, sm_coeffs (ev_matrix ev') !! (a, b)
                      = accumulate (mt a b) (sm_coeffs (ev_matrix ev) !! (a, b));
  eff_rhs : ∀ a x0, mat_at (ev_rhs ev) a = Ok x0 →
                    mat_at (ev_rhs ev') a = Ok (foldl op x0 (rt a))
}.

(** What a matrix-valued push needs to complete: valid spaces of
    non-negative dimension, a local block of the extents of the spaces, the
    fixed values of the column space, containers that hold what their
    extents announce, free rows and columns inside the system, and
    eliminated columns with a fixed value. *)
Record push_matrix_ready (v u : gsFeSpace) (patchInd : Z) (ev : _eval) : Prop :=
  mkMatrixReady {
  rdy_v : isValid v = true;
  rdy_u : isValid u = true;
  rdy_dim_v : 0 ≤ sp_dim v;
  rdy_dim_u : 0 ≤ sp_dim u;
  rdy_rows : rows (sp_actives v) * sp_dim v = rows (localMat ev);
  rdy_cols : rows (sp_actives u) * sp_dim u = cols (localMat ev);
  rdy_fixed : boundarySize (sp_mapper u) = mat_size (sp_fixedPart u);
  rdy_localMat : mat_wf (localMat ev);
  rdy_actives_v : (mat_rows (sp_actives v) ≤ length (mat_data (sp_actives v)))%nat;
  rdy_actives_u : (mat_rows (sp_actives u) ≤ length (mat_data (sp_actives u)))%nat;
  rdy_row_range : ∀ r i,
    r ∈ upto (Z.to_nat (sp_dim v)) → i ∈ upto (mat_rows (sp_actives v)) →
    is_free_index (sp_mapper v) (global_row v patchInd r i) = true →
    0 ≤ global_row v patchInd r i < sm_rows (ev_matrix ev)
    ∧ global_row v patchInd r i < Z.of_nat (length (mat_data (ev_rhs ev)));
  rdy_col_range : ∀ c j,
    c ∈ upto (Z.to_nat (sp_dim u)) → j ∈ upto (mat_rows (sp_actives u)) →
    if is_free_index (sp_mapper u) (global_col u patchInd c j)
    then 0 ≤ global_col u patchInd c j < sm_cols (ev_matrix ev)
    else 0 ≤ global_to_bindex (sp_mapper u) (global_col u patchInd c j)
             < Z.of_nat (length (mat_data (sp_fixedPart u)))
}.

(** What a vector-valued push needs to complete. *)
Record push_vector_ready (v : gsFeSpace) (patchInd : Z) (ev : _eval) : Prop :=
  mkVectorReady {
  vrdy_v : isValid v = true;
  vrdy_rhs : 0 ≠ mat_size (ev_rhs ev);
  vrdy_dim_v : 0 ≤ sp_dim v;
  vrdy_localMat :
    rows (sp_actives v) * sp_dim v ≤ Z.of_nat (length (mat_data (localMat ev)));
  vrdy_actives_v : (mat_rows (sp_actives v) ≤ length (mat_data (sp_actives v)))%nat;
  vrdy_row_range : ∀ r i,
    r ∈ upto (Z.to_nat (sp_dim v)) → i ∈ upto (mat_rows (sp_actives v)) →
    is_free_index (sp_mapper v) (global_row v patchInd r i) = true →
    0 ≤ global_row v patchInd r i < Z.of_nat (length (mat_data (ev_rhs ev)))
}.

(** The extents a push never changes. *)
Definition same_shape (ev ev' : _eval) : Prop :=
  localMat ev' = localMat ev
  ∧ sm_rows (ev_matrix ev') = sm_rows (ev_matrix ev)
  ∧ sm_cols (ev_matrix ev') = sm_cols (ev_matrix ev)
  ∧ length (mat_data (ev_rhs ev')) = length (mat_data (ev_rhs ev)).

(** ** Evaluation of one expression on one element *)

(** What [precompute] leaves for the expressions: the mapped quadrature
    points, the patch, and for the boundary and interface variants the side,
    the boundary source and the paired patch. *)
Record gsEvalContext : Type := mkContext {
  ctx_points : gsMatrix T;
  ctx_patch : Z;
  ctx_side : option Z;
  ctx_source : option (nat * bool);
  ctx_iface : option (Z * Z)
}.

(** The evaluator contract of an expression [E]: [E::isMatrix()],
    [E::isVector()], [eval(k)], [rowVar()], [colVar()]; [isNull] marks
    gsNullExpr. *)
Record gsExpr : Type := mkExpr {
  isNull : bool;
  isMatrix : bool;
  isVector : bool;
  eval : gsEvalContext → Z → gsMatrix T;
  rowVar : gsEvalContext → gsFeSpace;
  colVar : gsEvalContext → gsFeSpace
}.

(** [w * M]. *)
Definition mat_scale (w : T) (M : gsMatrix T) : gsMatrix T :=
  mkMatrix (mat_rows M) (mat_cols M) (s_mul w <$> mat_data M).

(** [A += B]; Eigen requires equal extents. *)
Definition mat_add (A B : gsMatrix T) : result (gsMatrix T) :=
  if decide (mat_rows A = mat_rows B ∧ mat_cols A = mat_cols B) then
    Ok (mkMatrix (mat_rows A) (mat_cols A) (zip_with s_add (mat_data A) (mat_data B)))
  else Fatal SizeMismatch.

(** The state a traversal threads through its elements. *)
Record gsTraversal : Type := mkTraversal {
  tr_eval : _eval;                     (* the functor [ee] *)
  tr_calls : list gsCall               (* calls served by m_exprdata *)
}.

Definition log_call (c : gsCall) (st : gsTraversal) : gsTraversal :=
  mkTraversal (tr_eval st) (tr_calls st ++ [c]).

(** [_eval::operator()(ee)] with quadrature weights [w]. *)
Definition eval_expr (ctx : gsEvalContext) (w : list T) (e : gsExpr)
  (st : gsTraversal) : result gsTraversal :=
  if isNull e then Ok st
  else
    w0 ← list_at w 0;
    let st0 := log_call (CallEval 0) st in
    '(M, st1) ← for_each (seq 1 (length w - 1))
      (λ k '(M, st),
         wk ← list_at w (Z.of_nat k);
         M' ← mat_add M (mat_scale wk (eval e ctx (Z.of_nat k)));
         Ok (M', log_call (CallEval (Z.of_nat k)) st))
      (mat_scale w0 (eval e ctx 0), st0);
    let ev := with_localMat M (tr_eval st1) in
    if isMatrix e then
      ev' ← push true (rowVar e ctx) (colVar e ctx) (m_patchInd ev) ev;
      Ok (mkTraversal ev' (tr_calls st1))
    else if isVector e then
      ev' ← push false (rowVar e ctx) (colVar e ctx) (m_patchInd ev) ev;
      Ok (mkTraversal ev' (tr_calls st1))
    else Fatal NotMatrixNorVector.

(** [op_tuple(ee, args)]: the expressions in order. *)
Definition op_tuple (ctx : gsEvalContext) (w : list T) (args : list gsExpr)
  (st : gsTraversal) : result gsTraversal :=
  for_each args (eval_expr ctx w) st.

(** ** Quadrature-driven traversal *)

Record boundary_condition : Type := mkBc {
  bc_patch : Z;
  bc_side : Z;
  bc_function : nat;
  bc_parametric : bool
}.

Record boundaryInterface : Type := mkInterface {
  first_patch : Z;
  first_side : Z;
  second_patch : Z;
  second_side : Z
}.

Section Traversal.
(** The quadrature provider and the element partition of the mesh, which
    the assembler consumes as black boxes: [getPtr] builds the rule of a
    patch (restricted to the direction of a side, if any), [mapTo] maps it
    to an element and yields points and weights, [makeDomainIterator] lists
    the elements of a patch (touching a side, if any). *)
Context {Element QuRule : Type}.
Variable getPtr : Z → gsOptionList → option Z → QuRule.
Variable mapTo : QuRule → Element → gsMatrix T * list T.
Variable makeDomainIterator : Z → option Z → list Element.

(** Loop body of the volume variant, [assemble(args...)]. *)
Definition assemble_element (args : list gsExpr) (patchInd : Z) (rule : QuRule)
  (el : Element) (st : gsTraversal) : result gsTraversal :=
  let '(points, quWeights) := mapTo rule el in
  if decide (cols points = 0) then Ok st
  else
    let st1 := log_call (CallPrecompute patchInd) st in
    op_tuple (mkContext points patchInd None None None) quWeights args st1.

(** Loop body of the boundary variant, [assemble(BCs, args...)]. *)
Definition assemble_bc_element (args : list gsExpr) (bc : boundary_condition)
  (rule : QuRule) (el : Element) (st : gsTraversal) : result gsTraversal :=
  let '(points, quWeights) := mapTo rule el in
  if decide (cols points = 0) then Ok st
  else
    let st1 := log_call (CallPrecompute (bc_patch bc)) st in
    op_tuple (mkContext points (bc_patch bc) (Some (bc_side bc))
                (Some (bc_function bc, bc_parametric bc)) None)
      quWeights args st1.

(** Loop body of [assembleLhsRhsBc_impl]. *)
Definition assembleLhsRhsBc_element (arg_lhs arg_rhs : gsExpr)
  (bc : boundary_condition) (rule : QuRule) (el : Element) (st : gsTraversal)
  : result gsTraversal :=
  let '(points, quWeights) := mapTo rule el in
  if decide (cols points = 0) then Ok st
  else
    let st1 := log_call (CallPrecompute (bc_patch bc)) st in
    let ctx := mkContext points (bc_patch bc) (Some (bc_side bc))
                 (Some (bc_function bc, bc_parametric bc)) None in
    let st2 := mkTraversal (setPatch (bc_patch bc) (tr_eval st1)) (tr_calls st1) in
    st3 ← eval_expr ctx quWeights arg_lhs st2;
    eval_expr ctx quWeights arg_rhs st3.

(** Loop body of the interface variant, [assembleInterface_impl]. *)
Definition assembleInterface_element (arg_lhs arg_rhs : gsExpr)
  (iFace : boundaryInterface) (rule : QuRule) (el : Element) (st : gsTraversal)
  : result gsTraversal :=
  let patch1 := first_patch iFace in
  let patch2 := second_patch iFace in
  let '(points, quWeights) := mapTo rule el in
  if decide (cols points = 0) then Ok st
  else
    let st1 := log_call (CallIfacePrecompute patch2)
                 (log_call (CallPrecompute patch1) st) in
    let ctx := mkContext points patch1 (Some (first_side iFace)) None
                 (Some (patch2, second_side iFace)) in
    let st2 := mkTraversal (setPatch patch1 (tr_eval st1)) (tr_calls st1) in
    st3 ← eval_expr ctx quWeights arg_lhs st2;
    eval_expr ctx quWeights arg_rhs st3.

(** Entering a traversal: the functor [ee] refers to the assembler's matrix
    and right-hand side, starts at patch 0 with an empty local block. *)
Definition enter (a : gsExprAssembler) : gsTraversal :=
  mkTraversal (mkEval (m_matrix a) (m_rhs a) 0 mat_empty) (calls (m_exprdata a)).

(** Leaving it: [m_matrix.makeCompressed()] keeps every stored entry. *)
Definition leave (st : gsTraversal) (a : gsExprAssembler) : gsExprAssembler :=
  with_exprdata (mkHelper (multiBasis (m_exprdata a)) (tr_calls st))
    (with_rhs (ev_rhs (tr_eval st)) (with_matrix (ev_matrix (tr_eval st)) a)).

(** [GISMO_ASSERT(matrix().cols()==numDofs(), "System not initialized")]. *)
Definition assert_initialized (a : gsExprAssembler) : result unit :=
  n ← numDofs a;
  GISMO_ASSERT (bool_decide (sm_cols (m_matrix a) = n)) SystemNotInitialized.

(** [assemble(args...)]: all elements of all patches (one thread). *)
Definition assemble (args : list gsExpr) (a : gsExprAssembler)
  : result gsExprAssembler :=
  assert_initialized a;;
  st ← for_each (upto (nBases (multiBasis (m_exprdata a))))
    (λ patchInd st,
       let st' := mkTraversal (setPatch patchInd (tr_eval st)) (tr_calls st) in
       let rule := getPtr patchInd (m_options a) None in
       for_each (makeDomainIterator patchInd None)
         (assemble_element args patchInd rule) st')
    (enter a);
  Ok (leave st a).

(** [assemble(BCs, args...)]: the elements on the side of each boundary
    condition. *)
Definition assemble_bc (BCs : list boundary_condition) (args : list gsExpr)
  (a : gsExprAssembler) : result gsExprAssembler :=
  assert_initialized a;;
  st ← for_each BCs
    (λ bc st,
       let rule := getPtr (bc_patch bc) (m_options a) (Some (bc_side bc)) in
       for_each (makeDomainIterator (bc_patch bc) (Some (bc_side bc)))
         (assemble_bc_element args bc rule) st)
    (enter a);
  Ok (leave st a).

Definition assembleLhsRhsBc_impl (arg_lhs arg_rhs : gsExpr)
  (BCs : list boundary_condition) (a : gsExprAssembler) : result gsExprAssembler :=
  st ← for_each BCs
    (λ bc st,
       let rule := getPtr (bc_patch bc) (m_options a) (Some (bc_side bc)) in
       for_each (makeDomainIterator (bc_patch bc) (Some (bc_side bc)))
         (assembleLhsRhsBc_element arg_lhs arg_rhs bc rule) st)
    (enter a);
  Ok (leave st a).

Definition assembleInterface_impl (arg_lhs arg_rhs : gsExpr)
  (iFaces : list boundaryInterface) (a : gsExprAssembler) : result gsExprAssembler :=
  st ← for_each iFaces
    (λ iFace st,
       let rule := getPtr (first_patch iFace) (m_options a) (Some (first_side iFace)) in
       for_each (makeDomainIterator (first_patch iFace) (Some (first_side iFace)))
         (assembleInterface_element arg_lhs arg_rhs iFace rule) st)
    (enter a);
  Ok (leave st a).

(** The elements of the mesh whose mapped quadrature rule has points. *)
Definition has_points (rule : QuRule) (el : Element) : bool :=
  negb (bool_decide (cols (mapTo rule el).1 = 0)).

Definition nonempty_elements (opts : gsOptionList) (patch : Z) (side : option Z)
  : list Element :=
  List.filter (has_points (getPtr patch opts side)) (makeDomainIterator patch side).

End Traversal.

End Assembler.

(** ** gsContainerBasis *)

Section ContainerBasis.
Context {T : Type}.

(** A subspace of the container, gsTensorBSplineBasis<d,T>, through the
    members the container calls: [size()], [active_into(u, result)] and
    [degree(dir)]. *)
Record gsTensorBSplineBasis : Type := mkTensorBasis {
  tb_size : Z;
  tb_active_into : gsMatrix T → gsMatrix Z;
  tb_degree : Z → Z
}.

Record gsContainerBasis : Type := mkContainerBasis {
  d : Z;                                         (* template parameter *)
  basisContainer : list gsTensorBSplineBasis
}.

(** [size()]. *)
Definition size (B : gsContainerBasis) : Z :=
  foldl (λ sz b, sz + tb_size b) 0 (basisContainer B).

(** [degree(dir)]. *)
Definition degree (B : gsContainerBasis) (dir : Z) : Z :=
  foldl (λ deg b, if decide (tb_degree b dir > deg) then tb_degree b dir else deg)
        0 (basisContainer B).

(** [M.array() += s]. *)
Definition mat_shift (s : Z) (M : gsMatrix Z) : gsMatrix Z :=
  mkMatrix (mat_rows M) (mat_cols M) ((λ x, x + s) <$> mat_data M).

(** [R.block(r0, 0, nr, nc) = M]: the block must lie inside [R] and have the
    extents of [M]. *)
Definition block_assign (R : gsMatrix Z) (r0 : nat) (nr nc : nat) (M : gsMatrix Z)
  : result (gsMatrix Z) :=
  if decide ((r0 + nr ≤ mat_rows R)%nat ∧ (nc ≤ mat_cols R)%nat) then
    if decide (mat_rows M = nr ∧ mat_cols M = nc) then
      Ok (mkMatrix (mat_rows R) (mat_cols R)
            (imap (λ k x,
               let r := (k `mod` mat_rows R)%nat in
               let c := (k `div` mat_rows R)%nat in
               if decide ((r0 ≤ r < r0 + nr)%nat ∧ (c < nc)%nat)
               then default x (mat_data M !! ((r - r0) + c * nr)%nat)
               else x) (mat_data R)))
    else Fatal SizeMismatch
  else Fatal OutOfRange.

(** [active_into(u, result)].  [resize] leaves the entries of [result]
    unspecified; they are zero here until the blocks overwrite them. *)
Definition active_into (B : gsContainerBasis) (u : gsMatrix T) : result (gsMatrix Z) :=
  GISMO_ASSERT (bool_decide (rows u = d B)) WrongPointDimension;;
  let result_temp := (λ b, tb_active_into b u) <$> basisContainer B in
  let nr := foldl (λ nr t, nr + mat_rows t)%nat 0%nat result_temp in
  let result0 := mkMatrix nr (mat_cols u) (replicate (nr * mat_cols u) 0) in
  st ← for_each (zip (basisContainer B) result_temp)
    (λ '(b, t) '(result, shift, shift_rows),
       result' ← block_assign result shift_rows (mat_rows t) (mat_cols u)
                   (mat_shift shift t);
       Ok (result', shift + tb_size b, (shift_rows + mat_rows t)%nat))
    (result0, 0, 0%nat);
  Ok (st.1.1).

(** *** For the statements below *)

Definition Zsum (l : list Z) : Z := foldr Z.add 0 l.

(** The sum of the sizes of the subspaces before subspace [i]. *)
Definition offset (B : gsContainerBasis) (i : nat) : Z :=
  Zsum (tb_size <$> take i (basisContainer B)).

(** The number of rows the subspaces before subspace [i] report for [u]. *)
Definition row_offset (B : gsContainerBasis) (u : gsMatrix T) (i : nat) : nat :=
  sum_list_with (λ b, mat_rows (tb_active_into b u)) (take i (basisContainer B)).

(** The entry [(r, c)] of a matrix, if it has one. *)
Definition entry {X} (M : gsMatrix X) (r c : nat) : option X :=
  if decide ((r < mat_rows M)%nat ∧ (c < mat_cols M)%nat)
  then mat_data M !! (r + c * mat_rows M)%nat
  else None.

(** What a subspace owes the container: a non-negative size, and for the
    points [u] a matrix of active indices, all of them below its size. *)
Definition subspace_ok (u : gsMatrix T) (b : gsTensorBSplineBasis) : Prop :=
  0 ≤ tb_size b
  ∧ mat_wf (tb_active_into b u)
  ∧ Forall (λ x, 0 ≤ x < tb_size b) (mat_data (tb_active_into b u)).

(** The state of the second loop of [active_into] after [k] subspaces. *)
Definition active_inv (B : gsContainerBasis) (u : gsMatrix T) (nr k : nat)
  (st : gsMatrix Z * Z * nat) : Prop :=
  st.1.2 = offset B k
  ∧ st.2 = row_offset B u k
  ∧ mat_wf st.1.1 ∧ mat_rows st.1.1 = nr ∧ mat_cols st.1.1 = mat_cols u
  ∧ (∀ i b r c x, (i < k)%nat → basisContainer B !! i = Some b →
       entry (tb_active_into b u) r c = Some x →
       entry st.1.1 (row_offset B u i + r) c = Some (x + offset B i))
  ∧ ((∀ b, b ∈ basisContainer B → mat_wf (tb_active_into b u)) →
     ∀ r c, (r < row_offset B u k)%nat → (c < mat_cols u)%nat →
       ∃ i b x, (i < k)%nat ∧ basisContainer B !! i = Some b
                ∧ (row_offset B u i ≤ r)%nat
                ∧ entry (tb_active_into b u) (r - row_offset B u i) c = Some x
                ∧ entry st.1.1 r c = Some (x + offset B i)).

End ContainerBasis.

(** ** Further members of gsExprAssembler *)

(** Modelled from the spec: the macro GISMO_ENSURE is defined outside the
    two source files.  Like a violated assertion, the violated condition is
    fatal for the call (section 7 of the specification). *)
Definition GISMO_ENSURE (c : bool) (e : gsError) : result unit :=
  if c then Ok tt else Fatal e.


Section AssemblerMembers.
Context {T : Type} `{Scalar T}.

(** [trialSpace(id)]: the handle returned is bound to the space data behind
    [m_vcol[id]]; the model returns that space data. *)
Definition trialSpace (id0 : Z) (a : gsExprAssembler (T:=T)) : result gsFeSpaceData :=
  p ← list_at (m_vcol a) id0;
  GISMO_ASSERT (bool_decide (p ≠ None)) InvalidRegistration;;
  deref (m_sdata a) p.

(** [testSpace(id)]: the same through [m_vrow[id]]. *)
Definition testSpace (id0 : Z) (a : gsExprAssembler (T:=T)) : result gsFeSpaceData :=
  p ← list_at (m_vrow a) id0;
  GISMO_ASSERT (bool_decide (p ≠ None)) InvalidRegistration;;
  deref (m_sdata a) p.

(** [giveMatrix()]: the matrix is swapped with a default-constructed one and
    returned. *)
Definition giveMatrix (a : gsExprAssembler (T:=T)) : gsSparseMatrix * gsExprAssembler :=
  (m_matrix a, with_matrix (sparse_new 0 0) a).



(** [setFixedDofVector(vals, unk)]: the values are swapped into the space
    data of block [unk], the argument is left empty; returns the assembler
    and what is left in [vals]. *)
Definition setFixedDofVector (vals : gsMatrix T) (unk : Z) (a : gsExprAssembler (T:=T))
  : result (gsExprAssembler * gsMatrix T) :=
  p ← list_at (m_vcol a) unk;
  sd ← deref (m_sdata a) p;
  let sd' := mkSpaceData (fs sd) (dim sd) (id sd) (mapper sd) vals in
  GISMO_ENSURE (bool_decide (mat_size (fixedDofs sd') = boundarySize (mapper sd')))
    InconsistentFixedDofs;;
  match p with
  | Some k => Ok (with_sdata (<[k := sd']> (m_sdata a)) a, mat_empty)
  | None => Fatal NullPointer
  end.

(** The handle of registered space data on an element with the active
    functions [actives]: what [dim()], [mapper()] and [fixedPart()] read
    through the pointer to the space data. *)
Definition space_handle (sd : gsFeSpaceData (T:=T)) (actives : gsMatrix Z) : gsFeSpace :=
  mkSpace true (id sd) (dim sd) (mapper sd) actives (fixedDofs sd).


End AssemblerMembers.

(** ** Further members of gsContainerBasis *)

Section ContainerMembers.
Context {T : Type} `{Scalar T}.

(** The evaluation members of a subspace, which the container calls as
    black boxes: [eval_into], [deriv_into] and [deriv2_into] of
    gsTensorBSplineBasis<d,T>. *)
Variable tb_eval_into : gsTensorBSplineBasis (T:=T) → gsMatrix T → gsMatrix T.
Variable tb_deriv_into : gsTensorBSplineBasis (T:=T) → gsMatrix T → gsMatrix T.
Variable tb_deriv2_into : gsTensorBSplineBasis (T:=T) → gsMatrix T → gsMatrix T.

(** [basisContainer[row]] for a signed index. *)
Definition getBasis (row : Z) (B : gsContainerBasis (T:=T)) : result gsTensorBSplineBasis :=
  list_at (basisContainer B) row.

(** [basisContainer[row] = basis]. *)
Definition setBasis (row : Z) (basis : gsTensorBSplineBasis) (B : gsContainerBasis (T:=T))
  : result gsContainerBasis :=
  _ ← list_at (basisContainer B) row;
  Ok (mkContainerBasis (d B) (<[Z.to_nat row := basis]> (basisContainer B))).

(** [R.conservativeResize(R.rows() + M.rows(), R.cols());
     R.bottomRows(M.rows()) = M]: the rows of [R] stay where they are and
    the rows of [M] follow them; the assignment to the block requires [M]
    to have the columns of [R].  An entry read outside the data of a
    malformed operand is zero. *)
Definition append_rows (R M : gsMatrix T) : result (gsMatrix T) :=
  if decide (mat_cols M = mat_cols R) then
    let nr := (mat_rows R + mat_rows M)%nat in
    Ok (mkMatrix nr (mat_cols R)
          ((λ k,
              let r := (k `mod` nr)%nat in
              let c := (k `div` nr)%nat in
              if decide (r < mat_rows R)%nat
              then default s_zero (mat_data R !! (r + c * mat_rows R)%nat)
              else default s_zero
                     (mat_data M !! ((r - mat_rows R) + c * mat_rows M)%nat))
           <$> seq 0 (nr * mat_cols R)))
  else Fatal SizeMismatch.

(** The common body of [eval_into], [deriv_into] and [deriv2_into]: the
    results of the subspaces, one below the other. *)
Definition stack_into (f : gsTensorBSplineBasis (T:=T) → gsMatrix T → gsMatrix T)
  (B : gsContainerBasis) (u : gsMatrix T) : result (gsMatrix T) :=
  for_each (basisContainer B) (λ b result, append_rows result (f b u))
    (mkMatrix 0 (mat_cols u) []).

Definition eval_into (B : gsContainerBasis) (u : gsMatrix T) : result (gsMatrix T) :=
  stack_into tb_eval_into B u.
Definition deriv_into (B : gsContainerBasis) (u : gsMatrix T) : result (gsMatrix T) :=
  stack_into tb_deriv_into B u.
Definition deriv2_into (B : gsContainerBasis) (u : gsMatrix T) : result (gsMatrix T) :=
  stack_into tb_deriv2_into B u.

(** The number of rows the subspaces before subspace [i] return from [f]. *)
Definition stack_offset (f : gsTensorBSplineBasis (T:=T) → gsMatrix T → gsMatrix T)
  (B : gsContainerBasis) (u : gsMatrix T) (i : nat) : nat :=
  sum_list_with (λ b, mat_rows (f b u)) (take i (basisContainer B)).

(** [R] holds the results of [f] for the subspaces, one below the other:
    the result of subspace [i] starts at row [stack_offset f B u i]. *)
Definition stacked (f : gsTensorBSplineBasis (T:=T) → gsMatrix T → gsMatrix T)
  (B : gsContainerBasis) (u : gsMatrix T) (R : gsMatrix T) : Prop :=
  mat_wf R
  ∧ mat_rows R = stack_offset f B u (length (basisContainer B))
  ∧ mat_cols R = mat_cols u
  ∧ ∀ i b r c x, basisContainer B !! i = Some b → entry (f b u) r c = Some x →
      entry R (stack_offset f B u i + r) c = Some x.

End ContainerMembers.

(** ** The calls and the extents of a traversal, for the statements below *)

Section TraversalTrace.
Context {T : Type} `{Scalar T} {Element QuRule : Type}.
Variable getPtr : Z → gsOptionList (T:=T) → option Z → QuRule.
Variable mapTo : QuRule → Element → gsMatrix T * list T.
Variable makeDomainIterator : Z → option Z → list Element.

(** The extents of the system a functor refers to. *)
Definition system_shape (ev : _eval (T:=T)) : Z * Z * option Z * nat * nat * nat :=
  (sm_rows (ev_matrix ev), sm_cols (ev_matrix ev), sm_reserved (ev_matrix ev),
   mat_rows (ev_rhs ev), mat_cols (ev_rhs ev), length (mat_data (ev_rhs ev))).

(** The evaluations one expression asks for on an element with the weights
    [w]: none for gsNullExpr, else one at each quadrature point, in order. *)
Definition expr_calls (w : list T) (e : gsExpr (T:=T)) : list gsCall :=
  if isNull e then [] else CallEval <$> upto (length w).



End TraversalTrace.


(** ** The weighted sum of an element, for the statements below *)

Section WeightedSum.
Context {T : Type} `{Scalar T}.

(** The quadrature weight of point [k], and one term [w_k * eval(k)] of the
    sum at the linear position [idx] of the local block. *)
Definition quWeight (w : list T) (k : Z) : T := value (list_at w k) s_zero.
Definition weighted_term (ctx : gsEvalContext (T:=T)) (w : list T) (e : gsExpr (T:=T))
  (idx k : Z) : T :=
  s_mul (quWeight w k) (entry_or_zero (eval e ctx k) idx).

(** The sum over the quadrature points, point 0 first and the others added
    to it in point order. *)
Definition weighted_sum (ctx : gsEvalContext (T:=T)) (w : list T) (e : gsExpr (T:=T))
  (idx : Z) : T :=
  foldl (λ acc k, s_add acc (weighted_term ctx w e idx k))
    (weighted_term ctx w e idx 0) (Z.of_nat <$> seq 1 (length w - 1)).

End WeightedSum.

(** ** Worked configurations *)

(** A finalized mapper numbering its [n] free indices first and its [b]
    eliminated indices after them. *)
Definition simple_mapper {T} `{Scalar T} (n b : Z) : gsDofMapper :=
  mkMapper 0 true n 0 b (λ s i _ _, i + s) (λ s gl, bool_decide (gl < n + s))
    (λ s gl, gl - s - n).

Definition scalar_source : gsFunctionSet := mkFunctionSet 1 0.

(** One block over the integers, 5 free and 2 eliminated indices. *)
Definition single_block_0 : gsExprAssembler (T:=Z) :=
  new_assembler (defaultOptions 0) (mkMultiBasis 2 (λ _, 2) 1) 1 1.
Definition single_block : gsExprAssembler (T:=Z) :=
  setup_space 0 (simple_mapper 5 2) (mkMatrix 2 1 [7; 9])
    (value (getSpace scalar_source 1 0 single_block_0) single_block_0).

(** One block over the rationals with the default options, on a mesh of
    dimension 2 and degree 2 in both directions. *)
Definition rational_block_0 : gsExprAssembler (T:=Q) :=
  new_assembler (defaultOptions (333 # 1000)) (mkMultiBasis 2 (λ _, 2) 1) 1 1.
Definition rational_block : gsExprAssembler (T:=Q) :=
  setup_space 0 (simple_mapper 9 0) mat_empty
    (value (getSpace scalar_source 1 0 rational_block_0) rational_block_0).

(** Two blocks; block 0 has a test space of its own (5 free indices against
    3 of its trial space), block 1 uses its trial space as test space. *)
Definition two_blocks_0 : gsExprAssembler (T:=Z) :=
  new_assembler (defaultOptions 0) (mkMultiBasis 2 (λ _, 2) 1) 2 2.
Definition two_blocks_1 : gsExprAssembler (T:=Z) :=
  value (getSpace scalar_source 1 0 two_blocks_0) two_blocks_0.
Definition two_blocks_2 : gsExprAssembler (T:=Z) :=
  value (getSpace scalar_source 1 1 two_blocks_1) two_blocks_0.
Definition two_blocks_3 : gsExprAssembler (T:=Z) :=
  value (getTestSpace 0 1 scalar_source (-1) two_blocks_2) two_blocks_0.
Definition mixed_blocks : gsExprAssembler (T:=Z) :=
  setup_space 2 (simple_mapper 5 0) mat_empty
    (setup_space 1 (simple_mapper 4 0) mat_empty
       (setup_space 0 (simple_mapper 3 0) mat_empty two_blocks_3)).

(** Two blocks, each with one space for trial and test functions. *)
Definition galerkin_blocks : gsExprAssembler (T:=Z) :=
  setup_space 1 (simple_mapper 4 0) mat_empty
    (setup_space 0 (simple_mapper 3 0) mat_empty two_blocks_2).

(** A space of dimension 1 with three active functions on the element; the
    first two are free, the third is eliminated and fixed to 10. *)
Definition demo_space : gsFeSpace (T:=Z) :=
  mkSpace true 0 1 (simple_mapper 2 1) (mkMatrix 3 1 [0; 1; 2]) (mkMatrix 1 1 [10]).

(** A 2 x 2 system before assembly, with a 3 x 3 local block
    [[4 0 1] [0 5 2] [1 2 6]] evaluated on the element. *)
Definition demo_eval : _eval (T:=Z) :=
  mkEval (sparse_new 2 2) (mkMatrix 2 1 [100; 200]) 0
    (mkMatrix 3 3 [4; 0; 1; 0; 5; 2; 1; 2; 6]).

(** The same system with a local block of 3 rows and 1 column. *)
Definition demo_vector_eval : _eval (T:=Z) :=
  mkEval (sparse_new 2 2) (mkMatrix 2 1 [100; 200]) 0 (mkMatrix 3 1 [7; 8; 9]).

(** The space of [demo_space] before its fixed values were supplied. *)
Definition unfixed_space : gsFeSpace (T:=Z) :=
  mkSpace true 0 1 (simple_mapper 2 1) (mkMatrix 3 1 [0; 1; 2]) mat_empty.

(** A space with a single active function. *)
Definition short_space : gsFeSpace (T:=Z) :=
  mkSpace true 0 1 (simple_mapper 2 1) (mkMatrix 1 1 [0]) (mkMatrix 1 1 [10]).

(** A mesh of two elements per patch: element 0 is degenerate (its mapped
    rule has no points), element 1 carries one quadrature point of weight 1. *)
Definition demo_mapTo (rule : unit) (el : nat) : gsMatrix Z * list Z :=
  match el with
  | O => (mkMatrix 2 0 [], [])
  | _ => (mkMatrix 2 1 [0; 0], [1])
  end.
Definition demo_getPtr (patch : Z) (o : gsOptionList (T:=Z)) (side : option Z) : unit := tt.
Definition demo_elements (patch : Z) (side : option Z) : list nat := [0%nat; 1%nat].

(** The constant 1 against a space with one free function, as a
    vector-valued expression. *)
Definition one_space : gsFeSpace (T:=Z) :=
  mkSpace true 0 1 (simple_mapper 1 0) (mkMatrix 1 1 [0]) mat_empty.
Definition constant_one : gsExpr (T:=Z) :=
  mkExpr false false true (λ _ _, mkMatrix 1 1 [1]) (λ _, one_space) (λ _, one_space).

(** A traversal state over a 1 x 1 system. *)
Definition demo_traversal : gsTraversal (T:=Z) :=
  mkTraversal (mkEval (sparse_new 1 1) (mkMatrix 1 1 [0]) 0 mat_empty) [].

(** A container of two subspaces of sizes 4 and 9 over points of dimension
    2; at any point the first reports the active indices 1, 2 and the second
    0, 4, 8. *)
Definition demo_container : gsContainerBasis (T:=Z) :=
  mkContainerBasis 2
    [mkTensorBasis 4 (λ u, mkMatrix 2 (mat_cols u) (seq 0 (mat_cols u) ≫= λ _, [1; 2])) (λ _, 1);
     mkTensorBasis 9 (λ u, mkMatrix 3 (mat_cols u) (seq 0 (mat_cols u) ≫= λ _, [0; 4; 8])) (λ _, 2)].

Definition demo_points : gsMatrix Z := mkMatrix 2 2 [0; 0; 1; 1].

(** A sized system with a single degree of freedom. *)
Definition one_dof_0 : gsExprAssembler (T:=Z) :=
  new_assembler (defaultOptions 0) (mkMultiBasis 2 (λ _, 0) 1) 1 1.
Definition one_dof_system : gsExprAssembler (T:=Z) :=
  value (initSystem
           (setup_space 0 (simple_mapper 1 0) mat_empty
              (value (getSpace scalar_source 1 0 one_dof_0) one_dof_0)))
    one_dof_0.

(** One block whose three indices are all eliminated: a system without
    degrees of freedom. *)
Definition constrained_block : gsExprAssembler (T:=Z) :=
  setup_space 0 (simple_mapper 0 3) (mkMatrix 3 1 [1; 2; 3])
    (value (getSpace scalar_source 1 0 single_block_0) single_block_0).

(** A space over two patches with one function each: the function of
    patch [k] has the global index [k].  The constant 1 against it, as a
    vector-valued expression, and a system of two degrees of freedom. *)
Definition patch_space : gsFeSpace (T:=Z) :=
  mkSpace true 0 1 (mkMapper 0 true 2 0 0 (λ s i k _, i + k + s) (λ _ _, true) (λ _ gl, gl))
    (mkMatrix 1 1 [0]) mat_empty.
Definition patch_one : gsExpr (T:=Z) :=
  mkExpr false false true (λ _ _, mkMatrix 1 1 [1]) (λ _, patch_space) (λ _, patch_space).
Definition null_expr : gsExpr (T:=Z) :=
  mkExpr true false false (λ _ _, mat_empty) (λ _, patch_space) (λ _, patch_space).
Definition two_dof_traversal : gsTraversal (T:=Z) :=
  mkTraversal (mkEval (sparse_new 2 2) (mkMatrix 2 1 [0; 0]) 0 mat_empty) [].

(** A space whose three active functions are all eliminated, and the
    system of [demo_eval] with a local block of zeros. *)
Definition fixed_space : gsFeSpace (T:=Z) :=
  mkSpace true 0 1 (simple_mapper 0 3) (mkMatrix 3 1 [0; 1; 2]) (mkMatrix 3 1 [10; 11; 12]).
Definition zero_block_eval : _eval (T:=Z) :=
  mkEval (sparse_new 2 2) (mkMatrix 2 1 [100; 200]) 0
    (mkMatrix 3 3 [0; 0; 0; 0; 0; 0; 0; 0; 0]).

(** An evaluation for the subspaces of [demo_container]: every active
    function of a subspace has the size of the subspace as its value.  And a
    further subspace of size 6 and degree 3. *)
Definition demo_eval_into (b : gsTensorBSplineBasis (T:=Z)) (u : gsMatrix Z) : gsMatrix Z :=
  mkMatrix (mat_rows (tb_active_into b u)) (mat_cols u)
    (replicate (mat_rows (tb_active_into b u) * mat_cols u) (tb_size b)).
Definition demo_subspace : gsTensorBSplineBasis (T:=Z) :=
  mkTensorBasis 6 (λ u, mkMatrix 1 (mat_cols u) (replicate (mat_cols u) 5)) (λ _, 3).

(** An expression with the value [k + 1] at quadrature point [k], against
    the space with one free function. *)
Definition two_point_expr : gsExpr (T:=Z) :=
  mkExpr false false true (λ _ k, mkMatrix 1 1 [k + 1]) (λ _, one_space) (λ _, one_space).

(* ================================================================== *)
(** * Properties *)

(** ** The result monad and loops *)

Lemma bind_Ok {A B} (r : result A) (f : A → result B) (b : B) :
  r ≫= f = Ok b ↔ ∃ a, r = Ok a ∧ f a = Ok b.
Proof.
  destruct r as [a|e]; simpl; split.
  - intros Hf. exists a. auto.
  - intros (a' & Ha & Hf). congruence.
  - discriminate.
  - intros (a' & Ha & _). discriminate.
Qed.

Lemma GISMO_ASSERT_Ok c e u : GISMO_ASSERT c e = Ok u ↔ c = true.
Proof. destruct c, u; simpl; split; congruence. Qed.

Lemma GISMO_ASSERT_false e : GISMO_ASSERT false e = Fatal e.
Proof. reflexivity. Qed.

Ltac inv_ok H :=
  lazymatch type of H with
  | _ ≫= _ = Ok _ =>
      let x := fresh "x" in
      let H1 := fresh H in
      apply bind_Ok in H; destruct H as (x & H1 & H); cbv beta in H;
      inv_ok H1; inv_ok H
  | GISMO_ASSERT _ _ = Ok _ => apply GISMO_ASSERT_Ok in H
  | Ok _ = Ok _ => injection H as H
  | Fatal _ = Ok _ => discriminate H
  | _ => idtac
  end.

(** Loop invariants over a counted loop [for (i = a; i != a + n; ++i)]:
    [P k s] holds of the state [s] before iteration [k]. *)
Lemma for_each_seq_ind {S} (P : nat → S → Prop) (body : nat → S → result S) n :
  ∀ a s s',
    (∀ k s1 s2, (a ≤ k < a + n)%nat → P k s1 → body k s1 = Ok s2 → P (Datatypes.S k) s2) →
    P a s → for_each (seq a n) body s = Ok s' → P (a + n)%nat s'.
Proof.
  induction n as [|n IH]; intros a s s' Hstep HP Hrun; simpl in Hrun.
  - injection Hrun as <-. by rewrite Nat.add_0_r.
  - inv_ok Hrun. replace (a + Datatypes.S n)%nat with (Datatypes.S a + n)%nat by lia.
    eapply IH; [| |exact Hrun].
    + intros k s1 s2 Hk. apply Hstep. lia.
    + eapply Hstep; [|exact HP|exact Hrun0]. lia.
Qed.

(** A loop completes when its body does on every state of an invariant. *)
Lemma for_each_completes {A S} (I : S → Prop) (body : A → S → result S) l s :
  I s → (∀ x s, x ∈ l → I s → ∃ s', body x s = Ok s' ∧ I s') →
  ∃ s', for_each l body s = Ok s' ∧ I s'.
Proof.
  revert s. induction l as [|x l IH]; intros s HI Hbody; simpl; [eauto|].
  destruct (Hbody x s) as (s1 & Hs1 & HI1); [by left|done|]. rewrite Hs1. simpl.
  apply IH; [done|]. intros y s2 Hy. apply Hbody. by right.
Qed.

(** A loop whose body fixes the state fixes it as a whole. *)
Lemma for_each_fixed {A S} (body : A → S → result S) l s :
  (∀ x, x ∈ l → body x s = Ok s) → for_each l body s = Ok s.
Proof.
  induction l as [|x l IH]; intros Hfix; simpl; [done|].
  rewrite Hfix by left. simpl. apply IH. intros y Hy. apply Hfix. by right.
Qed.

(** Removing the elements the body skips does not change a loop. *)
Lemma for_each_filter {A S} (keep : A → bool) (body : A → S → result S) l s :
  (∀ x s, keep x = false → body x s = Ok s) →
  for_each l body s = for_each (List.filter keep l) body s.
Proof.
  intros Hskip. revert s. induction l as [|x l IH]; intros s; simpl; [done|].
  destruct (keep x) eqn:Hk; simpl.
  - destruct (body x s); simpl; auto.
  - rewrite Hskip by done. simpl. apply IH.
Qed.

(** ** The space registry *)

Section RegistryFacts.
Context {T : Type} `{Scalar T}.

Lemma with_mapper_same_shift (d : gsFeSpaceData (T:=T)) s :
  m_shift (mapper d) = s → with_mapper (setShift s (mapper d)) d = d.
Proof. destruct d as [f dm i [sh fin fr co bo ix isf bi] fx]; simpl. by intros ->. Qed.

Lemma same_but_shift_refl (d : gsFeSpaceData (T:=T)) : same_but_shift d d.
Proof. unfold same_but_shift. by rewrite with_mapper_same_shift. Qed.

Lemma same_but_shift_set (d : gsFeSpaceData (T:=T)) s :
  same_but_shift d (with_mapper (setShift s (mapper d)) d).
Proof. reflexivity. Qed.

Lemma same_but_shift_trans (d1 d2 d3 : gsFeSpaceData (T:=T)) :
  same_but_shift d1 d2 → same_but_shift d2 d3 → same_but_shift d1 d3.
Proof. unfold same_but_shift. intros -> ->. reflexivity. Qed.

Lemma same_but_shift_sizes (d1 d2 : gsFeSpaceData (T:=T)) :
  same_but_shift d1 d2 →
  dim d2 = dim d1 ∧ freeSize (mapper d2) = freeSize (mapper d1)
  ∧ boundarySize (mapper d2) = boundarySize (mapper d1)
  ∧ isFinalized (mapper d2) = isFinalized (mapper d1)
  ∧ fixedDofs d2 = fixedDofs d1.
Proof. intros ->. done. Qed.

Lemma setShift_at_Ok p s (sd sd' : list (gsFeSpaceData (T:=T))) :
  setShift_at p s sd = Ok sd' ↔
  ∃ k d, p = Some k ∧ sd !! k = Some d
         ∧ sd' = <[k := with_mapper (setShift s (mapper d)) d]> sd.
Proof.
  unfold setShift_at, deref. destruct p as [k|]; simpl.
  - destruct (sd !! k) as [d|] eqn:Hk; simpl; split.
    + intros [= <-]. eauto.
    + intros (k' & d' & [= <-] & Hd & ->). rewrite Hk in Hd. by injection Hd as <-.
    + discriminate.
    + intros (k' & d' & [= <-] & Hd & _). congruence.
  - split; [discriminate|]. intros (k' & d' & ? & _). discriminate.
Qed.

Lemma setShift_at_Some k d s (sd : list (gsFeSpaceData (T:=T))) :
  sd !! k = Some d →
  setShift_at (Some k) s sd = Ok (<[k := with_mapper (setShift s (mapper d)) d]> sd).
Proof. intros Hk. apply setShift_at_Ok. eauto. Qed.

Lemma slot_data_Some (sd : list (gsFeSpaceData (T:=T))) v i d :
  slot_data sd v i = Some d ↔ ∃ p, v !! i = Some (Some p) ∧ sd !! p = Some d.
Proof.
  unfold slot_data. destruct (v !! i) as [[p|]|]; simpl; split;
    try discriminate; try (intros (p' & ? & _); discriminate).
  - eauto.
  - intros (p' & [= <-] & ?). done.
Qed.

(** A block that is chained stays chained when the data of its two slots is
    left alone. *)
Lemma chained_at_frame (sd sd' : list (gsFeSpaceData (T:=T))) v i :
  chained_at sd v i →
  (∀ j p, j = i ∨ j = (i - 1)%nat → v !! j = Some (Some p) → sd' !! p = sd !! p) →
  chained_at sd' v i.
Proof.
  intros (di & dp & Hi & Hp & Heq) Hsame.
  apply slot_data_Some in Hi as (pi & Hvi & Hsi).
  apply slot_data_Some in Hp as (pp & Hvp & Hsp).
  exists di, dp. split_and!; [| |done]; apply slot_data_Some.
  - exists pi. split; [done|]. rewrite (Hsame i) by auto. done.
  - exists pp. split; [done|]. rewrite (Hsame (i - 1)%nat) by auto. done.
Qed.

(** What one successful iteration of resetDimensions did. *)
Lemma resetDimensions_step_post vrow vcol i (sd sd' : list (gsFeSpaceData (T:=T))) :
  slots_wf vrow vcol → (1 ≤ i)%nat →
  resetDimensions_step vrow vcol i sd = Ok sd' →
  step_fixed vrow vcol sd' i
  ∧ length sd' = length sd
  ∧ (∀ p, vcol !! i ≠ Some (Some p) → vrow !! i ≠ Some (Some p) → sd' !! p = sd !! p)
  ∧ (∀ p d', sd' !! p = Some d' → ∃ d, sd !! p = Some d ∧ same_but_shift d d').
Proof.
  intros [W1 W2 W3] Hi Hstep. unfold resetDimensions_step, vec_get in Hstep.
  destruct (vcol !! i) as [ci|] eqn:Hci; simpl in Hstep; [|discriminate].
  destruct (vcol !! (i - 1)%nat) as [cp|] eqn:Hcp; simpl in Hstep; [|discriminate].
  destruct (deref sd cp) as [dpp|] eqn:Hdpp; simpl in Hstep; [|discriminate].
  destruct (setShift_at ci (chained dpp) sd) as [sd1|] eqn:Hsd1; simpl in Hstep;
    [|discriminate].
  destruct (vrow !! i) as [ri|] eqn:Hri; simpl in Hstep; [|discriminate].
  apply setShift_at_Ok in Hsd1 as (pc & dpc & -> & Hpc & ->).
  unfold deref in Hdpp. destruct cp as [pp|]; [|discriminate].
  destruct (sd !! pp) as [dpp'|] eqn:Hpp; [|discriminate]. injection Hdpp as ->.
  assert (pp ≠ pc) as Hne by (intros ->; specialize (W1 _ _ _ Hci Hcp); lia).
  assert (pc < length sd)%nat as Hlen by (by eapply lookup_lt_Some).
  set (sd1 := <[pc := with_mapper (setShift (chained dpp) (mapper dpc)) dpc]> sd) in *.
  assert (chained_at sd1 vcol i) as Hc1.
  { exists (with_mapper (setShift (chained dpp) (mapper dpc)) dpc), dpp.
    split_and!; [| |done]; apply slot_data_Some.
    - exists pc. split; [done|]. subst sd1. by apply list_lookup_insert_eq.
    - exists pp. split; [done|]. subst sd1. by rewrite list_lookup_insert_ne. }
  assert (∀ p d', sd1 !! p = Some d' → ∃ d, sd !! p = Some d ∧ same_but_shift d d')
    as Hs1.
  { intros p d' Hp. subst sd1. destruct (decide (p = pc)) as [->|Hp'].
    - rewrite list_lookup_insert_eq in Hp by done. injection Hp as <-.
      exists dpc. split; [done|]. apply same_but_shift_set.
    - rewrite list_lookup_insert_ne in Hp by done. exists d'. split; [done|].
      apply same_but_shift_refl. }
  destruct (decide (Some pc ≠ ri)) as [Hdiff|Hsame].
  - destruct (vrow !! (i - 1)%nat) as [rp|] eqn:Hrp; simpl in Hstep; [|discriminate].
    destruct (deref sd1 rp) as [dpq|] eqn:Hdpq; simpl in Hstep; [|discriminate].
    apply setShift_at_Ok in Hstep as (pr & dpr & -> & Hpr & ->).
    unfold deref in Hdpq. destruct rp as [pq|]; [|discriminate].
    destruct (sd1 !! pq) as [dpq'|] eqn:Hpq; [|discriminate]. injection Hdpq as ->.
    assert (pr ≠ pc) by congruence.
    assert (pq ≠ pr) by (intros ->; specialize (W2 _ _ _ Hri Hrp); lia).
    assert (pq ≠ pc) by (intros ->; specialize (W3 _ _ _ Hci Hrp); lia).
    assert (pr ≠ pp) by (intros ->; specialize (W3 _ _ _ Hcp Hri); lia).
    assert (pr < length sd1)%nat by (by eapply lookup_lt_Some).
    split_and!.
    + split.
      * eapply chained_at_frame; [exact Hc1|]. intros j p [->| ->] Hj.
        -- rewrite Hci in Hj. injection Hj as <-. by rewrite list_lookup_insert_ne.
        -- rewrite Hcp in Hj. injection Hj as <-. by rewrite list_lookup_insert_ne.
      * right. exists (with_mapper (setShift (chained dpq) (mapper dpr)) dpr), dpq.
        split_and!; [| |done]; apply slot_data_Some.
        -- exists pr. split; [done|]. by apply list_lookup_insert_eq.
        -- exists pq. split; [done|]. by rewrite list_lookup_insert_ne.
    + subst sd1. by rewrite !length_insert.
    + intros p Hp1 Hp2. rewrite list_lookup_insert_ne by congruence.
      subst sd1. rewrite list_lookup_insert_ne by congruence. done.
    + intros p d' Hp. destruct (decide (p = pr)) as [->|Hp'].
      * rewrite list_lookup_insert_eq in Hp by done. injection Hp as <-.
        destruct (Hs1 _ _ Hpr) as (d & Hd & Hdd). exists d. split; [done|].
        eapply same_but_shift_trans; [exact Hdd|]. apply same_but_shift_set.
      * rewrite list_lookup_insert_ne in Hp by done. by apply Hs1.
  - injection Hstep as <-. apply dec_stable in Hsame. subst ri. split_and!.
    + split; [done|]. left. congruence.
    + subst sd1. by rewrite length_insert.
    + intros p Hp1 _. subst sd1. rewrite list_lookup_insert_ne by congruence. done.
    + done.
Qed.

(** An iteration over a block that is already in place changes nothing. *)
Lemma resetDimensions_step_fixed vrow vcol i (sd : list (gsFeSpaceData (T:=T))) :
  step_fixed vrow vcol sd i → resetDimensions_step vrow vcol i sd = Ok sd.
Proof.
  intros [(di & dp & Hi & Hp & Heq) Hrow].
  apply slot_data_Some in Hi as (pc & Hci & Hsc).
  apply slot_data_Some in Hp as (pp & Hcp & Hsp).
  unfold resetDimensions_step, vec_get. rewrite Hci, Hcp. simpl. rewrite Hsp. simpl.
  rewrite (setShift_at_Some _ _ _ _ Hsc). simpl.
  rewrite with_mapper_same_shift by done. rewrite list_insert_id by done.
  destruct Hrow as [Hrow|(ei & ep & Hi' & Hp' & Heq')].
  - rewrite Hrow, Hci. simpl. destruct (decide (Some pc ≠ Some pc)); done.
  - apply slot_data_Some in Hi' as (pr & Hri & Hsr).
    apply slot_data_Some in Hp' as (pq & Hrp & Hsq).
    rewrite Hri. simpl. destruct (decide (Some pc ≠ Some pr)); [|done].
    rewrite Hrp. simpl. rewrite Hsq. simpl. rewrite (setShift_at_Some _ _ _ _ Hsr).
    rewrite with_mapper_same_shift by done. by rewrite list_insert_id.
Qed.

(** What a successful run of resetDimensions did: only shifts changed, and
    every block from the second on is in place. *)
Lemma resetDimensions_post (a a' : gsExprAssembler (T:=T)) :
  slots_wf (m_vrow a) (m_vcol a) → resetDimensions a = Ok a' →
  a' = with_sdata (m_sdata a') a
  ∧ length (m_sdata a') = length (m_sdata a)
  ∧ (∀ i, (1 ≤ i < length (m_vcol a))%nat →
          step_fixed (m_vrow a) (m_vcol a) (m_sdata a') i)
  ∧ (∀ p d', m_sdata a' !! p = Some d' →
             ∃ d, m_sdata a !! p = Some d ∧ same_but_shift d d').
Proof.
  intros W Hrun. unfold resetDimensions in Hrun.
  destruct (length (m_vcol a)) as [|n] eqn:Hn; [discriminate|].
  inv_ok Hrun. subst a'. simpl. split; [done|].
  pose (P := λ (k : nat) (sd : list (gsFeSpaceData (T:=T))),
          length sd = length (m_sdata a)
          ∧ (∀ i, (1 ≤ i < k)%nat → step_fixed (m_vrow a) (m_vcol a) sd i)
          ∧ (∀ p d', sd !! p = Some d' →
                     ∃ d, m_sdata a !! p = Some d ∧ same_but_shift d d')).
  assert (P (1 + n)%nat x) as (Hlen & Hfix & Hsame);
    [|split_and!; [done| intros i Hi; apply Hfix; lia |done]].
  eapply (for_each_seq_ind P); [| |exact Hrun0].
  - intros k s1 s2 Hk (Hlen & Hfix & Hsame) Hstep.
    destruct (resetDimensions_step_post _ _ _ _ _ W (proj1 Hk) Hstep)
      as (Hk_fixed & Hlen' & Hframe & Hsame').
    split_and!.
    + congruence.
    + intros i Hi. destruct (decide (i = k)) as [->|Hik]; [done|].
      destruct (Hfix i ltac:(lia)) as [Hcol Hrow]. destruct W as [W1 W2 W3].
      split.
      * eapply chained_at_frame; [exact Hcol|]. intros j p Hj Hjp. apply Hframe.
        -- intros Hkp. specialize (W1 _ _ _ Hjp Hkp). lia.
        -- intros Hkp. specialize (W3 _ _ _ Hjp Hkp). lia.
      * destruct Hrow as [Hrow|Hrow]; [by left|right].
        eapply chained_at_frame; [exact Hrow|]. intros j p Hj Hjp. apply Hframe.
        -- intros Hkp. specialize (W3 _ _ _ Hkp Hjp). lia.
        -- intros Hkp. specialize (W2 _ _ _ Hjp Hkp). lia.
    + intros p d' Hp. destruct (Hsame' _ _ Hp) as (d1 & Hd1 & Hdd1).
      destruct (Hsame _ _ Hd1) as (d0 & Hd0 & Hdd0). exists d0. split; [done|].
      eapply same_but_shift_trans; eauto.
  - split_and!; [done| intros i Hi; lia |].
    intros p d' Hp. exists d'. split; [done|]. apply same_but_shift_refl.
Qed.

Lemma resetDimensions_slots (a a' : gsExprAssembler (T:=T)) :
  resetDimensions a = Ok a' →
  m_vrow a' = m_vrow a ∧ m_vcol a' = m_vcol a ∧ m_options a' = m_options a
  ∧ m_exprdata a' = m_exprdata a ∧ m_matrix a' = m_matrix a ∧ m_rhs a' = m_rhs a.
Proof.
  unfold resetDimensions. destruct (length (m_vcol a)); [discriminate|].
  intros Hrun. inv_ok Hrun. subst a'. done.
Qed.

(** A run on blocks that are all in place is the identity. *)
Lemma resetDimensions_fixed (a : gsExprAssembler (T:=T)) :
  m_vcol a ≠ [] →
  (∀ i, (1 ≤ i < length (m_vcol a))%nat → step_fixed (m_vrow a) (m_vcol a) (m_sdata a) i) →
  resetDimensions a = Ok a.
Proof.
  intros Hne Hfix. unfold resetDimensions.
  destruct (length (m_vcol a)) as [|n] eqn:Hn.
  - by apply length_zero_iff_nil in Hn.
  - rewrite for_each_fixed.
    + simpl. by destruct a.
    + intros i Hi. apply resetDimensions_step_fixed, Hfix.
      apply elem_of_seq in Hi. lia.
Qed.

(** resetDimensions is idempotent. *)
Lemma resetDimensions_idempotent (a a' : gsExprAssembler (T:=T)) :
  slots_wf (m_vrow a) (m_vcol a) → resetDimensions a = Ok a' →
  resetDimensions a' = Ok a'.
Proof.
  intros W Hrun.
  destruct (resetDimensions_post _ _ W Hrun) as (_ & _ & Hfix & _).
  destruct (resetDimensions_slots _ _ Hrun) as (Hr & Hc & _).
  apply resetDimensions_fixed.
  - rewrite Hc. unfold resetDimensions in Hrun. intros Hnil. rewrite Hnil in Hrun.
    discriminate.
  - rewrite Hr, Hc. done.
Qed.

(** With every slot registered resetDimensions completes. *)
Lemma resetDimensions_completes (a : gsExprAssembler (T:=T)) :
  all_registered a → ∃ a', resetDimensions a = Ok a'.
Proof.
  intros (Hne & Hlen & Hreg). unfold resetDimensions.
  destruct (length (m_vcol a)) as [|n] eqn:Hn;
    [by apply length_zero_iff_nil in Hn|].
  destruct (for_each_completes (λ sd, length sd = length (m_sdata a))
              (resetDimensions_step (m_vrow a) (m_vcol a)) (seq 1 n) (m_sdata a))
    as (sd & -> & _); [done| |simpl; eauto].
  intros i sd Hi Hsd. apply elem_of_seq in Hi.
  destruct (Hreg i ltac:(lia)) as (pc & pr & Hci & Hri & Hpc & Hpr).
  destruct (Hreg (i - 1)%nat ltac:(lia)) as (pp & pq & Hcp & Hrp & Hpp & Hpq).
  rewrite <- Hsd in Hpc, Hpr, Hpp, Hpq.
  apply lookup_lt_is_Some in Hpc as [dpc Hdpc]. apply lookup_lt_is_Some in Hpp as [dpp Hdpp].
  unfold resetDimensions_step, vec_get. rewrite Hci, Hcp. simpl. rewrite Hdpp. simpl.
  rewrite (setShift_at_Some _ _ _ _ Hdpc). simpl. rewrite Hri. simpl.
  set (sd1 := <[pc := _]> sd).
  assert (length sd1 = length sd) as Hlen1 by apply length_insert.
  destruct (decide (Some pc ≠ Some pr)); [|eexists; split; [done|congruence]].
  rewrite Hrp. simpl. rewrite <- Hlen1 in Hpr, Hpq.
  apply lookup_lt_is_Some in Hpr as [dpr Hdpr]. apply lookup_lt_is_Some in Hpq as [dpq Hdpq].
  rewrite Hdpq. simpl. rewrite (setShift_at_Some _ _ _ _ Hdpr).
  eexists. split; [done|]. rewrite length_insert. congruence.
Qed.

(** *** The registry invariant *)

Lemma insert_lookup_Some_inv {A} (l : list A) i j x y :
  <[i := x]> l !! j = Some y → (j = i ∧ y = x) ∨ (j ≠ i ∧ l !! j = Some y).
Proof.
  intros Hl. apply list_lookup_insert_Some in Hl as [(-> & -> & _)|[? ?]]; auto.
Qed.

Lemma registry_wf_new opts mb r c : registry_wf (new_assembler (T:=T) opts mb r c).
Proof.
  split; [split|]; simpl.
  - intros i k p Hi. apply lookup_replicate in Hi as [? _]. discriminate.
  - intros i k p Hi. apply lookup_replicate in Hi as [? _]. discriminate.
  - intros i k p Hi. apply lookup_replicate in Hi as [? _]. discriminate.
  - intros i p [Hi|Hi]; apply lookup_replicate in Hi as [? _]; discriminate.
Qed.

Lemma registry_wf_getSpace (a a' : gsExprAssembler (T:=T)) mp dim0 id0 :
  registry_wf a → getSpace mp dim0 id0 a = Ok a' → registry_wf a'.
Proof.
  intros [[W1 W2 W3] Wb] Hget. unfold getSpace in Hget. inv_ok Hget. subst a'.
  set (n := Z.to_nat id0) in *. set (q := length (m_sdata a)) in *.
  assert (∀ i p, m_vcol a !! i = Some (Some p) → p ≠ q) as Hc
    by (intros i p Hi; specialize (Wb i p (or_introl Hi)); lia).
  assert (∀ i p, m_vrow a !! i = Some (Some p) → p ≠ q) as Hr
    by (intros i p Hi; specialize (Wb i p (or_intror Hi)); lia).
  split; [split|]; simpl.
  - intros i k p Hi Hk.
    apply insert_lookup_Some_inv in Hi as [[-> Hi]|[? Hi]];
      apply insert_lookup_Some_inv in Hk as [[-> Hk]|[? Hk]]; try done.
    + injection Hi as ->. by destruct (Hc _ _ Hk).
    + injection Hk as ->. by destruct (Hc _ _ Hi).
    + eauto.
  - intros i k p Hi Hk.
    apply insert_lookup_Some_inv in Hi as [[-> Hi]|[? Hi]];
      apply insert_lookup_Some_inv in Hk as [[-> Hk]|[? Hk]]; try done.
    + injection Hi as ->. by destruct (Hr _ _ Hk).
    + injection Hk as ->. by destruct (Hr _ _ Hi).
    + eauto.
  - intros i k p Hi Hk.
    apply insert_lookup_Some_inv in Hi as [[-> Hi]|[? Hi]];
      apply insert_lookup_Some_inv in Hk as [[-> Hk]|[? Hk]]; try done.
    + injection Hi as ->. by destruct (Hr _ _ Hk).
    + injection Hk as ->. by destruct (Hc _ _ Hi).
    + eauto.
  - intros i p Hi. rewrite length_app. simpl.
    destruct Hi as [Hi|Hi]; apply insert_lookup_Some_inv in Hi as [[-> Hi]|[? Hi]].
    + injection Hi as ->. lia.
    + specialize (Wb i p (or_introl Hi)). lia.
    + injection Hi as ->. lia.
    + specialize (Wb i p (or_intror Hi)). lia.
Qed.

Lemma registry_wf_getTestSpace (a a' : gsExprAssembler (T:=T)) uid udim mp dim0 :
  registry_wf a → getTestSpace uid udim mp dim0 a = Ok a' → registry_wf a'.
Proof.
  intros [[W1 W2 W3] Wb] Hget. unfold getTestSpace in Hget. inv_ok Hget. subst a'.
  set (n := Z.to_nat uid) in *. set (q := length (m_sdata a)) in *.
  assert (∀ i p, m_vcol a !! i = Some (Some p) → p ≠ q) as Hc
    by (intros i p Hi; specialize (Wb i p (or_introl Hi)); lia).
  assert (∀ i p, m_vrow a !! i = Some (Some p) → p ≠ q) as Hr
    by (intros i p Hi; specialize (Wb i p (or_intror Hi)); lia).
  split; [split|]; simpl.
  - done.
  - intros i k p Hi Hk.
    apply insert_lookup_Some_inv in Hi as [[-> Hi]|[? Hi]];
      apply insert_lookup_Some_inv in Hk as [[-> Hk]|[? Hk]]; try done.
    + injection Hi as ->. by destruct (Hr _ _ Hk).
    + injection Hk as ->. by destruct (Hr _ _ Hi).
    + eauto.
  - intros i k p Hi Hk.
    apply insert_lookup_Some_inv in Hk as [[-> Hk]|[? Hk]].
    + injection Hk as ->. by destruct (Hc _ _ Hi).
    + eauto.
  - intros i p Hi. rewrite length_app. simpl. destruct Hi as [Hi|Hi].
    + specialize (Wb i p (or_introl Hi)). lia.
    + apply insert_lookup_Some_inv in Hi as [[-> Hi]|[? Hi]].
      * injection Hi as ->. lia.
      * specialize (Wb i p (or_intror Hi)). lia.
Qed.

Lemma registry_wf_same_slots (a a' : gsExprAssembler (T:=T)) :
  m_vrow a' = m_vrow a → m_vcol a' = m_vcol a →
  length (m_sdata a') = length (m_sdata a) → registry_wf a → registry_wf a'.
Proof. unfold registry_wf. intros -> -> ->. done. Qed.

Lemma registry_wf_resetDimensions (a a' : gsExprAssembler (T:=T)) :
  registry_wf a → resetDimensions a = Ok a' → registry_wf a'.
Proof.
  intros W Hrun. destruct (resetDimensions_slots _ _ Hrun) as (Hr & Hc & _).
  destruct (resetDimensions_post _ _ (proj1 W) Hrun) as (_ & Hlen & _).
  by eapply registry_wf_same_slots.
Qed.

Lemma registry_wf_initMatrix (a a' : gsExprAssembler (T:=T)) :
  registry_wf a → initMatrix a = Ok a' → registry_wf a'.
Proof.
  intros W Hrun. unfold initMatrix in Hrun. inv_ok Hrun.
  pose proof (registry_wf_resetDimensions _ _ W Hrun0) as W'.
  destruct (decide _) in Hrun.
  - injection Hrun as <-. eapply registry_wf_same_slots; [..|exact W']; done.
  - inv_ok Hrun. subst a'. eapply registry_wf_same_slots; [..|exact W']; done.
Qed.

(** Every assembler a program can build has a well-formed registry. *)
Lemma reachable_registry_wf (a : gsExprAssembler (T:=T)) :
  reachable a → registry_wf a.
Proof.
  induction 1 as [opts mb r c|a a' mp dim0 id0 _ IH Hget|a a' uid udim mp dim0 _ IH Hget
                  |a p m fixed _ IH|a a' _ IH Hrun|a a' n _ IH Hrun|a a' _ IH Hrun].
  - apply registry_wf_new.
  - by eapply registry_wf_getSpace.
  - by eapply registry_wf_getTestSpace.
  - unfold setup_space. destruct (m_sdata a !! p); [|done].
    eapply registry_wf_same_slots; [..|exact IH]; simpl; try done.
    by rewrite length_insert.
  - by eapply registry_wf_initMatrix.
  - unfold initVector in Hrun. inv_ok Hrun. subst a'.
    pose proof (registry_wf_resetDimensions _ _ IH Hrun0) as W'.
    eapply registry_wf_same_slots; [..|exact W']; done.
  - unfold initSystem in Hrun. inv_ok Hrun. subst a'.
    pose proof (registry_wf_initMatrix _ _ IH Hrun0) as W'.
    eapply registry_wf_same_slots; [..|exact W']; done.
Qed.

(** *** Chained blocks *)

Lemma slot_data_lt (sd : list (gsFeSpaceData (T:=T))) v i di :
  slot_data sd v i = Some di → (i < length v)%nat.
Proof.
  intros Hi. apply slot_data_Some in Hi as (p & Hv & _). by eapply lookup_lt_Some.
Qed.

(** Along a chain of blocks with non-negative extents, a later block starts
    at or after the end of an earlier one. *)
Lemma chain_monotone (sd : list (gsFeSpaceData (T:=T))) v :
  (∀ i, (1 ≤ i < length v)%nat → chained_at sd v i) → extents_nonneg sd v →
  ∀ j i di dj, (i < j)%nat →
    slot_data sd v i = Some di → slot_data sd v j = Some dj →
    chained di ≤ firstIndex (mapper dj).
Proof.
  intros Hchain Hext. induction j as [|j IH]; intros i di dj Hij Hi Hj; [lia|].
  pose proof (slot_data_lt _ _ _ _ Hj) as Hlt.
  destruct (Hchain (S j) ltac:(lia)) as (dj' & dp & Hj' & Hp & Heq).
  rewrite Hj in Hj'. injection Hj' as <-.
  replace (S j - 1)%nat with j in Hp by lia.
  destruct (decide (i = j)) as [->|Hne].
  - rewrite Hi in Hp. injection Hp as <-. lia.
  - specialize (IH i di dp ltac:(lia) Hi Hp).
    pose proof (Hext _ _ Hp) as Hnn. unfold chained in *. lia.
Qed.

Lemma chained_blocks_disjoint (sd : list (gsFeSpaceData (T:=T))) v :
  (∀ i, (1 ≤ i < length v)%nat → chained_at sd v i) → extents_nonneg sd v →
  ∀ i j x, (i < j)%nat → in_block sd v i x → in_block sd v j x → False.
Proof.
  intros Hchain Hext i j x Hij (di & Hi & Hxi) (dj & Hj & Hxj).
  pose proof (chain_monotone _ _ Hchain Hext j i di dj Hij Hi Hj). lia.
Qed.

(** C3 (amended): on the registry of an assembler built through the
    registration interface resetDimensions() completes when every slot is
    registered, and after it every trial (column) block i ≥ 1 has mapper
    shift equal to trial block i-1's first index plus its vector dimension
    times its free size; every test (row) block i ≥ 1 whose space is not the
    trial space of block i is chained to test block i-1 in the same way; and
    when no trial block has a negative extent, no global index lies in the
    ranges [shift, shift + dim·freeSize) of two distinct trial blocks. *)
Theorem resetDimensions_chains_blocks (a : gsExprAssembler (T:=T)) :
  reachable a →
  (all_registered a → ∃ a', resetDimensions a = Ok a')
  ∧ ∀ a', resetDimensions a = Ok a' →
    (∀ i, (1 ≤ i < length (m_vcol a'))%nat → chained_at (m_sdata a') (m_vcol a') i)
    ∧ (∀ i, (1 ≤ i < length (m_vcol a'))%nat → m_vrow a' !! i ≠ m_vcol a' !! i →
            chained_at (m_sdata a') (m_vrow a') i)
    ∧ (extents_nonneg (m_sdata a') (m_vcol a') →
       ∀ i j x, (i < j)%nat →
         in_block (m_sdata a') (m_vcol a') i x →
         in_block (m_sdata a') (m_vcol a') j x → False).
Proof.
  intros Hreach. split; [apply resetDimensions_completes|]. intros a' Hrun.
  destruct (reachable_registry_wf _ Hreach) as [W _].
  destruct (resetDimensions_post _ _ W Hrun) as (_ & _ & Hfix & _).
  destruct (resetDimensions_slots _ _ Hrun) as (Hr & Hc & _).
  rewrite Hr, Hc.
  assert (∀ i, (1 ≤ i < length (m_vcol a))%nat →
               chained_at (m_sdata a') (m_vcol a) i) as Hcol
    by (intros i Hi; apply (Hfix i Hi)).
  split_and!.
  - done.
  - intros i Hi Hne. destruct (Hfix i Hi) as [_ [Heq|Hrow]]; done.
  - intros Hext. by apply chained_blocks_disjoint.
Qed.

(** C9: for an assembler built through the registration interface,
    resetDimensions() is idempotent, and a second initMatrix() right after a
    first one succeeds and produces the same matrix (same row and column
    dimensions, same per-column reservation) over the same space data. *)
Theorem initMatrix_twice (a : gsExprAssembler (T:=T)) :
  reachable a →
  (∀ a', resetDimensions a = Ok a' → resetDimensions a' = Ok a')
  ∧ (∀ a1, initMatrix a = Ok a1 →
       ∃ a2, initMatrix a1 = Ok a2
             ∧ sm_rows (m_matrix a2) = sm_rows (m_matrix a1)
             ∧ sm_cols (m_matrix a2) = sm_cols (m_matrix a1)
             ∧ sm_reserved (m_matrix a2) = sm_reserved (m_matrix a1)
             ∧ m_matrix a2 = m_matrix a1
             ∧ m_sdata a2 = m_sdata a1).
Proof.
  intros Hreach. destruct (reachable_registry_wf _ Hreach) as [W _]. split.
  - intros a'. by apply resetDimensions_idempotent.
  - intros a1 Hrun. unfold initMatrix in Hrun. inv_ok Hrun.
    rename x into a', x0 into nr, x1 into nc.
    pose proof (resetDimensions_idempotent _ _ W Hrun0) as Hidem.
    assert (∀ M w, resetDimensions (mkAssembler (m_options a') (m_exprdata a') M
                     (m_rhs a') (m_sdata a') (m_vrow a') (m_vcol a') w)
                   = Ok (mkAssembler (m_options a') (m_exprdata a') M
                     (m_rhs a') (m_sdata a') (m_vrow a') (m_vcol a') w)) as Hidem'.
    { intros M w. unfold resetDimensions in *. simpl.
      destruct (length (m_vcol a')); [done|]. inv_ok Hidem.
      rewrite Hidem0. simpl. apply (f_equal m_sdata) in Hidem. simpl in Hidem.
      by subst x. }
    simpl in Hrun. destruct (decide (0 = nr ∨ 0 = nc)) as [Hz|Hnz].
    + injection Hrun as <-. eexists. split.
      { unfold initMatrix, warn, with_matrix. simpl. rewrite Hidem'. simpl.
        unfold numTestDofs, numDofs in *. simpl. rewrite Hrun1. simpl.
        rewrite Hrun2. simpl. destruct (decide _) as [Hd|Hd]; [|exfalso; tauto].
        reflexivity. }
      split_and!; reflexivity.
    + inv_ok Hrun. subst a1. rename x into nz, x0 into nb.
      eexists. split.
      { unfold initMatrix, warn, with_matrix. simpl. rewrite Hidem'. simpl.
        unfold numTestDofs, numDofs in *. simpl. rewrite Hrun1. simpl.
        rewrite Hrun2. simpl. destruct (decide _) as [Hd|Hd]; [exfalso; tauto|].
        simpl in Hrun3. rewrite Hrun3. simpl.
        unfold numBlocks in *. simpl in *. rewrite Hrun4. simpl. reflexivity. }
      split_and!; reflexivity.
Qed.

(** *** Sizes *)

(** C8: with the space data of the last trial block and of the last test
    block at hand (a single-block system has one of each), numDofs() returns
    the trial mapper's first index plus its free size and numTestDofs() the
    test mapper's first index plus its free size; before the mapper is
    finalized either query aborts with the uninitialized-state error. *)
Theorem numDofs_numTestDofs (a : gsExprAssembler (T:=T)) pc pr dc dr :
  list.last (m_vcol a) = Some (Some pc) → m_sdata a !! pc = Some dc →
  list.last (m_vrow a) = Some (Some pr) → m_sdata a !! pr = Some dr →
  numDofs a = (if isFinalized (mapper dc)
               then Ok (firstIndex (mapper dc) + freeSize (mapper dc))
               else Fatal UninitializedState)
  ∧ numTestDofs a = (if isFinalized (mapper dr)
                     then Ok (firstIndex (mapper dr) + freeSize (mapper dr))
                     else Fatal UninitializedState).
Proof.
  intros Hc Hdc Hr Hdr. unfold numDofs, numTestDofs, vec_back.
  rewrite Hc, Hr. simpl. rewrite Hdc, Hdr. simpl.
  split; [destruct (isFinalized (mapper dc))|destruct (isFinalized (mapper dr))]; done.
Qed.

Lemma nz_estimate_product (o : gsOptionList (T:=T)) mb nz :
  nz_estimate o mb = Ok nz →
  0 ≤ domainDim mb
  ∧ nz = s_product (degree_factor o mb <$> upto (Z.to_nat (domainDim mb))).
Proof.
  unfold nz_estimate, index_range. destruct (decide (0 ≤ domainDim mb)); [|done].
  simpl. intros [= <-]. split; [done|]. unfold s_product. by rewrite foldl_fmap.
Qed.

Lemma numBlocks_loop (sd : list (gsFeSpaceData (T:=T))) v n0 nb :
  for_each v (λ p nb, d ← deref sd p; Ok (nb + dim d)) n0 = Ok nb →
  ∃ ds, Forall2 (λ p d, deref sd p = Ok d) v ds
        ∧ nb = foldl (λ n d, n + dim d) n0 ds.
Proof.
  revert n0. induction v as [|p v IH]; intros n0 Hrun; simpl in Hrun.
  - injection Hrun as <-. exists []. split; [constructor|done].
  - inv_ok Hrun. subst x. destruct (IH _ Hrun) as (ds & Hds & ->).
    exists (x0 :: ds). split; [by constructor|done].
Qed.

(** C2 (amended): when the sized matrix has non-zero rows and columns,
    initMatrix() reserves per column numBlocks times the integer cast of the
    product over the domain dimensions of (bdA times the maximal degree in
    that dimension plus bdB), multiplied by (1+bdO); numBlocks is the sum of
    the vector dimensions of the registered row spaces. *)
Theorem initMatrix_reserves_product (a a' : gsExprAssembler (T:=T)) :
  initMatrix a = Ok a' →
  sm_rows (m_matrix a') ≠ 0 → sm_cols (m_matrix a') ≠ 0 →
  ∃ nb ds,
    Forall2 (λ p d, deref (m_sdata a') p = Ok d) (m_vrow a') ds
    ∧ nb = foldl (λ n d, n + dim d) 0 ds
    ∧ numBlocks a' = Ok nb
    ∧ sm_reserved (m_matrix a')
      = Some (reserve_by_product (m_options a') (multiBasis (m_exprdata a')) nb).
Proof.
  intros Hrun Hrows Hcols. unfold initMatrix in Hrun. inv_ok Hrun.
  rename x into a1, x0 into nr, x1 into nc. simpl in Hrun.
  destruct (decide (0 = nr ∨ 0 = nc)) as [Hz|Hnz].
  - injection Hrun as <-. simpl in *. lia.
  - inv_ok Hrun. subst a'. simpl in *.
    apply nz_estimate_product in Hrun3 as [Hdim ->].
    destruct (numBlocks_loop _ _ _ _ Hrun4) as (ds & Hds & Hnb).
    exists x0, ds. split_and!; done.
Qed.

End RegistryFacts.

(** *** The worked configurations are reachable *)

Lemma reachable_single_block : reachable single_block.
Proof.
  apply reach_setup.
  eapply (reach_getSpace single_block_0 _ scalar_source 1 0);
    [apply reach_new|reflexivity].
Qed.

Lemma reachable_rational_block : reachable rational_block.
Proof.
  apply reach_setup.
  eapply (reach_getSpace rational_block_0 _ scalar_source 1 0);
    [apply reach_new|reflexivity].
Qed.

Lemma reachable_two_blocks_2 : reachable two_blocks_2.
Proof.
  eapply (reach_getSpace two_blocks_1 _ scalar_source 1 1); [|reflexivity].
  eapply (reach_getSpace two_blocks_0 _ scalar_source 1 0); [|reflexivity].
  apply reach_new.
Qed.

Lemma reachable_mixed_blocks : reachable mixed_blocks.
Proof.
  do 3 apply reach_setup.
  eapply (reach_getTestSpace two_blocks_2 _ 0 1 scalar_source (-1)); [|reflexivity].
  apply reachable_two_blocks_2.
Qed.

Lemma reachable_galerkin_blocks : reachable galerkin_blocks.
Proof. do 2 apply reach_setup. apply reachable_two_blocks_2. Qed.

(** *** Sizes, reservation and shifts on the worked configurations *)

Lemma numDofs_numTestDofs_witness :
  numDofs single_block = Ok 5 ∧ numTestDofs single_block = Ok 5.
Proof.
  apply (numDofs_numTestDofs single_block 0%nat 0%nat
           (mkSpaceData scalar_source 1 0 (simple_mapper 5 2) (mkMatrix 2 1 [7; 9]))
           (mkSpaceData scalar_source 1 0 (simple_mapper 5 2) (mkMatrix 2 1 [7; 9])));
    reflexivity.
Defined.

(** C2 as the specification states it fails: on a mesh of dimension 2 and
    degree 2 with the default options the code reserves
    1 * cast(5 * 5 * 1.333) = 33 entries per column, the sum formula gives
    1 * cast(1.333 * (5 + 5)) = 13. *)
Lemma initMatrix_reserve_is_not_the_sum :
  ∃ a', initMatrix rational_block = Ok a'
        ∧ sm_rows (m_matrix a') ≠ 0 ∧ sm_cols (m_matrix a') ≠ 0
        ∧ numBlocks a' = Ok 1
        ∧ sm_reserved (m_matrix a') = Some 33
        ∧ reserve_by_sum (m_options a') (multiBasis (m_exprdata a')) 1 = 13
        ∧ sm_reserved (m_matrix a')
          ≠ Some (reserve_by_sum (m_options a') (multiBasis (m_exprdata a')) 1).
Proof.
  eexists. split; [vm_compute; reflexivity|].
  split_and!; vm_compute; congruence.
Qed.

Lemma initMatrix_reserves_product_witness :
  ∃ nb ds,
    Forall2 (λ p d, deref (m_sdata (value (initMatrix rational_block) rational_block)) p = Ok d)
      (m_vrow (value (initMatrix rational_block) rational_block)) ds
    ∧ nb = foldl (λ n d, n + dim d) 0 ds
    ∧ numBlocks (value (initMatrix rational_block) rational_block) = Ok nb
    ∧ sm_reserved (m_matrix (value (initMatrix rational_block) rational_block))
      = Some (reserve_by_product
                (m_options (value (initMatrix rational_block) rational_block))
                (multiBasis (m_exprdata (value (initMatrix rational_block) rational_block)))
                nb).
Proof.
  apply (initMatrix_reserves_product rational_block
           (value (initMatrix rational_block) rational_block)).
  - vm_compute. reflexivity.
  - vm_compute. discriminate.
  - vm_compute. discriminate.
Defined.

(** C3 as the specification states it fails for test blocks: block 0 has a
    test space of its own with 5 free indices while its trial space has 3,
    block 1 shares one space between both roles.  The shared mapper of
    block 1 is shifted along the trial chain to 3, so test block 1 does not
    start at 0 + 1 * 5 where test block 0 ends, and global row 4 lies in the
    ranges [0, 5) and [3, 7) of both test blocks. *)
Lemma resetDimensions_mixed_rows_overlap :
  reachable mixed_blocks
  ∧ ∃ a', resetDimensions mixed_blocks = Ok a'
          ∧ m_vrow a' !! 1%nat = m_vcol a' !! 1%nat
          ∧ ¬ chained_at (m_sdata a') (m_vrow a') 1
          ∧ in_block (m_sdata a') (m_vrow a') 0 4
          ∧ in_block (m_sdata a') (m_vrow a') 1 4.
Proof.
  split; [apply reachable_mixed_blocks|].
  eexists. split; [vm_compute; reflexivity|]. split_and!.
  - reflexivity.
  - intros (di & dp & Hi & Hp & Heq). vm_compute in Hi, Hp.
    injection Hi as <-. injection Hp as <-. vm_compute in Heq. discriminate.
  - eexists. split; [vm_compute; reflexivity|]. vm_compute. split; congruence.
  - eexists. split; [vm_compute; reflexivity|]. vm_compute. split; congruence.
Qed.

Lemma all_registered_mixed_blocks : all_registered mixed_blocks.
Proof.
  split_and!; [done|simpl; lia|]. intros i Hi. simpl in Hi.
  assert (i = 0 ∨ i = 1)%nat as [->| ->] by lia.
  - exists 0%nat, 2%nat. vm_compute. split_and!; (reflexivity || lia).
  - exists 1%nat, 1%nat. vm_compute. split_and!; (reflexivity || lia).
Qed.

Lemma resetDimensions_chains_blocks_witness :
  let a' := value (resetDimensions mixed_blocks) mixed_blocks in
  (∃ a1, resetDimensions mixed_blocks = Ok a1)
  ∧ (∀ i, (1 ≤ i < length (m_vcol a'))%nat → chained_at (m_sdata a') (m_vcol a') i)
  ∧ (∀ i, (1 ≤ i < length (m_vcol a'))%nat → m_vrow a' !! i ≠ m_vcol a' !! i →
          chained_at (m_sdata a') (m_vrow a') i)
  ∧ (extents_nonneg (m_sdata a') (m_vcol a') →
     ∀ i j x, (i < j)%nat →
       in_block (m_sdata a') (m_vcol a') i x →
       in_block (m_sdata a') (m_vcol a') j x → False).
Proof.
  intros a'.
  destruct (resetDimensions_chains_blocks mixed_blocks reachable_mixed_blocks)
    as [Hcompletes Hchains].
  split.
  - apply Hcompletes, all_registered_mixed_blocks.
  - apply (Hchains a'). vm_compute. reflexivity.
Defined.

Lemma initMatrix_twice_witness :
  (∀ a', resetDimensions galerkin_blocks = Ok a' → resetDimensions a' = Ok a')
  ∧ (∀ a1, initMatrix galerkin_blocks = Ok a1 →
       ∃ a2, initMatrix a1 = Ok a2
             ∧ sm_rows (m_matrix a2) = sm_rows (m_matrix a1)
             ∧ sm_cols (m_matrix a2) = sm_cols (m_matrix a1)
             ∧ sm_reserved (m_matrix a2) = sm_reserved (m_matrix a1)
             ∧ m_matrix a2 = m_matrix a1
             ∧ m_sdata a2 = m_sdata a1).
Proof. apply (initMatrix_twice galerkin_blocks). apply reachable_galerkin_blocks. Defined.

(** The two-block Galerkin system is sized 7 x 7 with 2 * cast(25 * 1) = 50
    reserved entries per column, the first time and the second. *)
Example initMatrix_galerkin_blocks :
  let a1 := value (initMatrix galerkin_blocks) galerkin_blocks in
  initMatrix galerkin_blocks = Ok a1
  ∧ initMatrix a1 = Ok a1
  ∧ m_matrix a1 = mkSparse 7 7 ∅ (Some 50).
Proof. vm_compute. done. Qed.

(** ** The local-to-global scatter *)

Section ScatterFacts.
Context {T : Type} `{Scalar T}.

Lemma list_at_Ok {X} (l : list X) k x :
  list_at l k = Ok x ↔ 0 ≤ k ∧ l !! Z.to_nat k = Some x.
Proof.
  unfold list_at. destruct (decide (0 ≤ k)); [|split; [done|lia]].
  destruct (l !! Z.to_nat k) eqn:Hk; split; try done.
  - intros [= ->]. done.
  - intros [_ [= ->]]. done.
  - intros [_ ?]. done.
Qed.

Lemma value_Ok {A} (r : result A) x y : r = Ok x → value r y = x.
Proof. by intros ->. Qed.

Lemma index_range_Ok n l : index_range n = Ok l → 0 ≤ n ∧ l = upto (Z.to_nat n).
Proof. unfold index_range. destruct (decide (0 ≤ n)); [|done]. by intros [= <-]. Qed.

Lemma accumulate_app (l1 l2 : list T) o :
  accumulate (l1 ++ l2) o = accumulate l2 (accumulate l1 o).
Proof.
  destruct l1 as [|t1 l1]; [done|]. destruct l2 as [|t2 l2].
  - by rewrite app_nil_r.
  - simpl. by rewrite foldl_app.
Qed.

Lemma bind_nil_const {A B} (l : list A) : (l ≫= λ _, @nil B) = [].
Proof. induction l; simpl; auto. Qed.

Lemma bind_if_const {A B} (b : bool) (l : list A) (f : A → list B) :
  (l ≫= λ x, if b then f x else []) = if b then l ≫= f else [].
Proof. destruct b; [done|]. apply bind_nil_const. Qed.

(** *** Composition of effects *)

Lemma effect_refl op (ev : _eval (T:=T)) : effect op (λ _ _, []) (λ _, []) ev ev.
Proof. by split. Qed.

Lemma effect_trans op mt1 rt1 mt2 rt2 (ev ev1 ev2 : _eval (T:=T)) :
  effect op mt1 rt1 ev ev1 → effect op mt2 rt2 ev1 ev2 →
  effect op (λ a b, mt1 a b ++ mt2 a b) (λ a, rt1 a ++ rt2 a) ev ev2.
Proof.
  intros [] []. split; try congruence.
  - intros a b. rewrite accumulate_app. congruence.
  - intros a x0 Hx0. rewrite foldl_app. eauto.
Qed.

Lemma effect_ext op mt rt mt' rt' (ev ev' : _eval (T:=T)) :
  (∀ a b, mt a b = mt' a b) → (∀ a, rt a = rt' a) →
  effect op mt rt ev ev' → effect op mt' rt' ev ev'.
Proof.
  intros Hmt Hrt []. split; try done.
  - intros a b. by rewrite <- Hmt.
  - intros a x0. rewrite <- Hrt. auto.
Qed.

(** The effect of a loop is the effect of its iterations, one after the
    other. *)
Lemma effect_for_each {A} op (M : gsMatrix T) (body : A → _eval → result _eval)
  (mt : A → Z → Z → list T) (rt : A → Z → list T) l :
  (∀ x s s', localMat s = M → body x s = Ok s' → effect op (mt x) (rt x) s s') →
  ∀ s s', localMat s = M → for_each l body s = Ok s' →
  effect op (λ a b, l ≫= λ x, mt x a b) (λ a, l ≫= λ x, rt x a) s s'.
Proof.
  intros Hbody. induction l as [|x l IH]; intros s s' HM Hrun; simpl in Hrun.
  - injection Hrun as <-. apply effect_refl.
  - inv_ok Hrun. pose proof (Hbody _ _ _ HM Hrun0) as Hx.
    assert (localMat x0 = M) as HM' by (destruct Hx; congruence).
    exact (effect_trans _ _ _ _ _ _ _ _ Hx (IH _ _ HM' Hrun)).
Qed.

(** *** The updates *)

Lemma rhs_update_effect op t ii (ev ev' : _eval (T:=T)) :
  rhs_update (λ y, op y t) ii ev = Ok ev' →
  effect op (λ _ _, []) (λ a, if decide (a = ii) then [t] else []) ev ev'.
Proof.
  unfold rhs_update, mat_set_at, mat_at. intros Hrun. inv_ok Hrun. subst.
  apply list_at_Ok in Hrun0 as [Hii Hx]. split; simpl; try done.
  - by rewrite length_insert.
  - intros a x0 Ha. apply list_at_Ok in Ha as [Ha Hx0]. apply list_at_Ok.
    split; [done|]. destruct (decide (a = ii)) as [->|Hne]; simpl.
    + rewrite Hx in Hx0. injection Hx0 as <-.
      apply list_lookup_insert_eq. by eapply lookup_lt_Some.
    + rewrite list_lookup_insert_ne by lia. done.
Qed.

Lemma coeffRef_add_effect op ii jj m (ev : _eval (T:=T)) M' :
  coeffRef_add ii jj m (ev_matrix ev) = Ok M' →
  effect op (λ a b, if decide (a = ii ∧ b = jj) then [m] else []) (λ _, [])
    ev (with_ev_matrix M' ev).
Proof.
  unfold coeffRef_add. destruct (decide _) as [Hin|]; [|done]. intros [= <-].
  split; simpl; try done. intros a b.
  destruct (decide (a = ii ∧ b = jj)) as [[-> ->]|Hne]; simpl.
  - by rewrite lookup_insert_eq.
  - rewrite lookup_insert_ne; [done|]. intros [= -> ->]. tauto.
Qed.

Lemma effect_for_each_guard {A} op (M : gsMatrix T) (body : A → _eval → result _eval)
  (g : Z → bool) (mt : A → Z → Z → list T) (rt : A → Z → list T) l :
  (∀ x s s', localMat s = M → body x s = Ok s' →
     effect op (λ a b, if g a then mt x a b else []) (λ a, if g a then rt x a else []) s s') →
  ∀ s s', localMat s = M → for_each l body s = Ok s' →
  effect op (λ a b, if g a then l ≫= (λ x, mt x a b) else [])
            (λ a, if g a then l ≫= (λ x, rt x a) else []) s s'.
Proof.
  intros Hbody s s' HM Hrun.
  pose proof (effect_for_each op M body _ _ l Hbody s s' HM Hrun) as Heff.
  eapply effect_ext; [| |exact Heff]; intros; simpl; apply bind_if_const.
Qed.

Lemma effect_for_each_rhs {A} op (M : gsMatrix T) (body : A → _eval → result _eval)
  (rt : A → Z → list T) l :
  (∀ x s s', localMat s = M → body x s = Ok s' → effect op (λ _ _, []) (rt x) s s') →
  ∀ s s', localMat s = M → for_each l body s = Ok s' →
  effect op (λ _ _, []) (λ a, l ≫= λ x, rt x a) s s'.
Proof.
  intros Hbody s s' HM Hrun.
  pose proof (effect_for_each op M body _ _ l Hbody s s' HM Hrun) as Heff.
  eapply effect_ext; [| |exact Heff]; intros; simpl; [apply bind_nil_const|done].
Qed.

Lemma rhs_update_effect_guard op t ii (ev ev' : _eval (T:=T)) :
  rhs_update (λ y, op y t) ii ev = Ok ev' →
  effect op (λ _ _, []) (λ a, if bool_decide (ii = a) then [t] else []) ev ev'.
Proof.
  intros Hrun. pose proof (rhs_update_effect _ _ _ _ _ Hrun) as Heff.
  eapply effect_ext; [| |exact Heff]; [done|].
  intros a. simpl. destruct (decide (a = ii)) as [->|Hne].
  - by rewrite bool_decide_eq_true_2.
  - by rewrite bool_decide_eq_false_2.
Qed.

(** *** The loops of push *)

Lemma push_entry_effect (v u : gsFeSpace (T:=T)) patchInd ii r i c j M
  (ev ev' : _eval (T:=T)) :
  localMat ev = M →
  push_entry (sp_mapper u) (sp_actives u) (sp_fixedPart u) patchInd ii
    (r * rows (sp_actives v)) i c j ev = Ok ev' →
  effect s_sub
    (λ a b, if bool_decide (ii = a) then
              if s_is_zero (local_entry v u M r i c j) then []
              else if is_free_index (sp_mapper u) (global_col u patchInd c j)
                   then (if decide (global_col u patchInd c j = b)
                         then [local_entry v u M r i c j] else [])
                   else []
            else [])
    (λ a, if bool_decide (ii = a) then
            if s_is_zero (local_entry v u M r i c j) then []
            else if is_free_index (sp_mapper u) (global_col u patchInd c j) then []
                 else [s_mul (local_entry v u M r i c j)
                         (entry_or_zero (sp_fixedPart u)
                            (global_to_bindex (sp_mapper u) (global_col u patchInd c j)))]
          else [])
    ev ev'.
Proof.
  intros HM Hrun. unfold push_entry in Hrun.
  apply bind_Ok in Hrun as (m & Hm & Hrun). rewrite HM in Hm.
  unfold local_entry, coeff_or_zero. rewrite (value_Ok _ _ _ Hm).
  destruct (s_is_zero m) eqn:Hzero.
  - injection Hrun as <-. eapply effect_ext; [| |apply effect_refl];
      intros; simpl; by destruct (bool_decide _).
  - apply bind_Ok in Hrun as (cj & Hcj & Hrun).
    unfold global_col, active_at. rewrite (value_Ok _ _ _ Hcj).
    destruct (is_free_index (sp_mapper u) (index (sp_mapper u) cj patchInd c)) eqn:Hfree.
    + apply bind_Ok in Hrun as (M' & HM' & Hrun). injection Hrun as <-.
      pose proof (coeffRef_add_effect s_sub _ _ _ _ _ HM') as Heff.
      eapply effect_ext; [| |exact Heff].
      * intros a b. simpl.
        destruct (decide (a = ii ∧ b = index (sp_mapper u) cj patchInd c))
          as [[-> ->]|Hne].
        -- rewrite bool_decide_eq_true_2 by done. by rewrite decide_True.
        -- destruct (bool_decide_reflect (ii = a)) as [Heq|]; [|done].
           rewrite decide_False; [done|]. intros Hb. by apply Hne.
      * intros a. simpl. by destruct (bool_decide _).
    + apply bind_Ok in Hrun as (f & Hf & Hrun).
      unfold entry_or_zero. rewrite (value_Ok _ _ _ Hf).
      pose proof (rhs_update_effect_guard s_sub _ _ _ _ Hrun) as Heff.
      eapply effect_ext; [| |exact Heff].
      * intros a b. simpl. by destruct (bool_decide _).
      * done.
Qed.

Lemma push_row_effect_matrix (v u : gsFeSpace (T:=T)) patchInd r i M
  (ev ev' : _eval (T:=T)) :
  localMat ev = M →
  push_row true (sp_mapper v) (sp_mapper u) (sp_actives v) (sp_actives u)
    (sp_fixedPart u) (sp_dim u) patchInd r i ev = Ok ev' →
  effect s_sub
    (λ a b,
       if is_free_index (sp_mapper v) (global_row v patchInd r i)
          && bool_decide (global_row v patchInd r i = a)
       then
         c ← upto (Z.to_nat (sp_dim u));
         j ← upto (mat_rows (sp_actives u));
         if s_is_zero (local_entry v u M r i c j) then []
         else if is_free_index (sp_mapper u) (global_col u patchInd c j)
              then (if decide (global_col u patchInd c j = b)
                    then [local_entry v u M r i c j] else [])
              else []
       else [])
    (λ a,
       if is_free_index (sp_mapper v) (global_row v patchInd r i)
          && bool_decide (global_row v patchInd r i = a)
       then
         c ← upto (Z.to_nat (sp_dim u));
         j ← upto (mat_rows (sp_actives u));
         if s_is_zero (local_entry v u M r i c j) then []
         else if is_free_index (sp_mapper u) (global_col u patchInd c j) then []
              else [s_mul (local_entry v u M r i c j)
                      (entry_or_zero (sp_fixedPart u)
                         (global_to_bindex (sp_mapper u) (global_col u patchInd c j)))]
       else [])
    ev ev'.
Proof.
  intros HM Hrun. unfold push_row in Hrun.
  apply bind_Ok in Hrun as (ri & Hri & Hrun).
  unfold global_row, active_at. rewrite (value_Ok _ _ _ Hri).
  destruct (is_free_index (sp_mapper v) (index (sp_mapper v) ri patchInd r)) eqn:Hfree;
    simpl.
  - apply bind_Ok in Hrun as (cs & Hcs & Hrun).
    apply index_range_Ok in Hcs as [_ ->].
    eapply (effect_for_each_guard s_sub M _
              (λ a, bool_decide (index (sp_mapper v) ri patchInd r = a)));
      [|exact HM|exact Hrun].
    intros c s s' Hs Hc. simpl.
    eapply (effect_for_each_guard s_sub M _
              (λ a, bool_decide (index (sp_mapper v) ri patchInd r = a)));
      [|exact Hs|exact Hc].
    intros j s1 s1' Hs1 Hj. by eapply push_entry_effect.
  - injection Hrun as <-. apply effect_refl.
Qed.

Lemma push_row_effect_vector (v : gsFeSpace (T:=T)) colMap colInd0 fixed cd patchInd
  r i M (ev ev' : _eval (T:=T)) :
  localMat ev = M →
  push_row false (sp_mapper v) colMap (sp_actives v) colInd0 fixed cd patchInd r i ev
    = Ok ev' →
  effect s_add (λ _ _, [])
    (λ a,
       if is_free_index (sp_mapper v) (global_row v patchInd r i)
          && bool_decide (global_row v patchInd r i = a)
       then [entry_or_zero M (r * rows (sp_actives v) + i)]
       else [])
    ev ev'.
Proof.
  intros HM Hrun. unfold push_row in Hrun.
  apply bind_Ok in Hrun as (ri & Hri & Hrun).
  unfold global_row, active_at. rewrite (value_Ok _ _ _ Hri).
  destruct (is_free_index (sp_mapper v) (index (sp_mapper v) ri patchInd r)) eqn:Hfree;
    simpl.
  - apply bind_Ok in Hrun as (x & Hx & Hrun). rewrite HM in Hx.
    unfold entry_or_zero. rewrite (value_Ok _ _ _ Hx).
    by eapply rhs_update_effect_guard.
  - injection Hrun as <-. apply effect_refl.
Qed.

(** A matrix-valued push that succeeds adds [matrix_terms] to the
    coefficients and subtracts [elim_terms] from the right-hand side. *)
Lemma push_matrix_effect (v u : gsFeSpace (T:=T)) patchInd (ev ev' : _eval (T:=T)) :
  push true v u patchInd ev = Ok ev' →
  effect s_sub (matrix_terms v u patchInd (localMat ev))
    (elim_terms v u patchInd (localMat ev)) ev ev'.
Proof.
  intros Hrun. unfold push in Hrun. simpl in Hrun.
  apply bind_Ok in Hrun as (? & _ & Hrun). apply bind_Ok in Hrun as (? & _ & Hrun).
  apply bind_Ok in Hrun as (? & _ & Hrun). apply bind_Ok in Hrun as (rs & Hrs & Hrun).
  apply index_range_Ok in Hrs as [_ ->].
  unfold matrix_terms, elim_terms.
  eapply (effect_for_each s_sub (localMat ev)); [|done|exact Hrun].
  intros r s s' Hs Hr. simpl.
  eapply (effect_for_each s_sub (localMat ev)); [|exact Hs|exact Hr].
  intros i s1 s1' Hs1 Hi. by eapply push_row_effect_matrix.
Qed.

(** A vector-valued push that succeeds adds [vector_terms] to the right-hand
    side and leaves the matrix alone. *)
Lemma push_vector_effect (v u : gsFeSpace (T:=T)) patchInd (ev ev' : _eval (T:=T)) :
  push false v u patchInd ev = Ok ev' →
  effect s_add (λ _ _, []) (vector_terms v patchInd (localMat ev)) ev ev'.
Proof.
  intros Hrun. unfold push in Hrun. simpl in Hrun.
  apply bind_Ok in Hrun as (? & _ & Hrun). apply bind_Ok in Hrun as (? & _ & Hrun).
  apply bind_Ok in Hrun as (rs & Hrs & Hrun).
  apply index_range_Ok in Hrs as [_ ->].
  unfold vector_terms.
  eapply (effect_for_each_rhs s_add (localMat ev)); [|done|exact Hrun].
  intros r s s' Hs Hr. simpl.
  eapply (effect_for_each_rhs s_add (localMat ev)); [|exact Hs|exact Hr].
  intros i s1 s1' Hs1 Hi. by eapply push_row_effect_vector.
Qed.

(** *** Which entries the lists collect *)

Lemma elem_of_upto n k : k ∈ upto n ↔ 0 ≤ k < Z.of_nat n.
Proof.
  unfold upto. rewrite list_elem_of_fmap. split.
  - intros (i & -> & Hi). apply elem_of_seq in Hi. lia.
  - intros Hk. exists (Z.to_nat k). split; [lia|]. apply elem_of_seq. lia.
Qed.

Lemma elem_of_matrix_terms (v u : gsFeSpace (T:=T)) patchInd M a b x :
  x ∈ matrix_terms v u patchInd M a b ↔
  ∃ r i c j,
    r ∈ upto (Z.to_nat (sp_dim v)) ∧ i ∈ upto (mat_rows (sp_actives v))
    ∧ c ∈ upto (Z.to_nat (sp_dim u)) ∧ j ∈ upto (mat_rows (sp_actives u))
    ∧ global_row v patchInd r i = a ∧ is_free_index (sp_mapper v) a = true
    ∧ global_col u patchInd c j = b ∧ is_free_index (sp_mapper u) b = true
    ∧ x = local_entry v u M r i c j ∧ s_is_zero x = false.
Proof.
  unfold matrix_terms. split.
  - intros Hx. apply list_elem_of_bind in Hx as (r & Hx & Hr).
    apply list_elem_of_bind in Hx as (i & Hx & Hi).
    destruct (is_free_index (sp_mapper v) (global_row v patchInd r i)) eqn:Hfr;
      simpl in Hx; [|by apply elem_of_nil in Hx].
    destruct (bool_decide_reflect (global_row v patchInd r i = a)) as [Ha|];
      [|by apply elem_of_nil in Hx].
    apply list_elem_of_bind in Hx as (c & Hx & Hc).
    apply list_elem_of_bind in Hx as (j & Hx & Hj).
    destruct (s_is_zero (local_entry v u M r i c j)) eqn:Hz;
      [by apply elem_of_nil in Hx|].
    destruct (is_free_index (sp_mapper u) (global_col u patchInd c j)) eqn:Hfc;
      [|by apply elem_of_nil in Hx].
    destruct (decide (global_col u patchInd c j = b)) as [Hb|];
      [|by apply elem_of_nil in Hx].
    apply list_elem_of_singleton in Hx as ->. exists r, i, c, j.
    subst a b. split_and!; done.
  - intros (r & i & c & j & Hr & Hi & Hc & Hj & Ha & Hfr & Hb & Hfc & -> & Hz).
    apply list_elem_of_bind. exists r. split; [|done].
    apply list_elem_of_bind. exists i. split; [|done].
    rewrite Ha, Hfr, bool_decide_eq_true_2 by done. simpl.
    apply list_elem_of_bind. exists c. split; [|done].
    apply list_elem_of_bind. exists j. split; [|done].
    rewrite Hz, Hb, Hfc, decide_True by done. by apply list_elem_of_singleton.
Qed.

Lemma elem_of_elim_terms (v u : gsFeSpace (T:=T)) patchInd M a x :
  x ∈ elim_terms v u patchInd M a ↔
  ∃ r i c j,
    r ∈ upto (Z.to_nat (sp_dim v)) ∧ i ∈ upto (mat_rows (sp_actives v))
    ∧ c ∈ upto (Z.to_nat (sp_dim u)) ∧ j ∈ upto (mat_rows (sp_actives u))
    ∧ global_row v patchInd r i = a ∧ is_free_index (sp_mapper v) a = true
    ∧ is_free_index (sp_mapper u) (global_col u patchInd c j) = false
    ∧ s_is_zero (local_entry v u M r i c j) = false
    ∧ x = s_mul (local_entry v u M r i c j)
            (entry_or_zero (sp_fixedPart u)
               (global_to_bindex (sp_mapper u) (global_col u patchInd c j))).
Proof.
  unfold elim_terms. split.
  - intros Hx. apply list_elem_of_bind in Hx as (r & Hx & Hr).
    apply list_elem_of_bind in Hx as (i & Hx & Hi).
    destruct (is_free_index (sp_mapper v) (global_row v patchInd r i)) eqn:Hfr;
      simpl in Hx; [|by apply elem_of_nil in Hx].
    destruct (bool_decide_reflect (global_row v patchInd r i = a)) as [Ha|];
      [|by apply elem_of_nil in Hx].
    apply list_elem_of_bind in Hx as (c & Hx & Hc).
    apply list_elem_of_bind in Hx as (j & Hx & Hj).
    destruct (s_is_zero (local_entry v u M r i c j)) eqn:Hz;
      [by apply elem_of_nil in Hx|].
    destruct (is_free_index (sp_mapper u) (global_col u patchInd c j)) eqn:Hfc;
      [by apply elem_of_nil in Hx|].
    apply list_elem_of_singleton in Hx as ->. exists r, i, c, j.
    subst a. split_and!; done.
  - intros (r & i & c & j & Hr & Hi & Hc & Hj & Ha & Hfr & Hfc & Hz & ->).
    apply list_elem_of_bind. exists r. split; [|done].
    apply list_elem_of_bind. exists i. split; [|done].
    rewrite Ha, Hfr, bool_decide_eq_true_2 by done. simpl.
    apply list_elem_of_bind. exists c. split; [|done].
    apply list_elem_of_bind. exists j. split; [|done].
    rewrite Hz, Hfc. by apply list_elem_of_singleton.
Qed.

Lemma elem_of_vector_terms (v : gsFeSpace (T:=T)) patchInd M a x :
  x ∈ vector_terms v patchInd M a ↔
  ∃ r i,
    r ∈ upto (Z.to_nat (sp_dim v)) ∧ i ∈ upto (mat_rows (sp_actives v))
    ∧ global_row v patchInd r i = a ∧ is_free_index (sp_mapper v) a = true
    ∧ x = entry_or_zero M (r * rows (sp_actives v) + i).
Proof.
  unfold vector_terms. split.
  - intros Hx. apply list_elem_of_bind in Hx as (r & Hx & Hr).
    apply list_elem_of_bind in Hx as (i & Hx & Hi).
    destruct (is_free_index (sp_mapper v) (global_row v patchInd r i)) eqn:Hfr;
      simpl in Hx; [|by apply elem_of_nil in Hx].
    destruct (bool_decide_reflect (global_row v patchInd r i = a)) as [Ha|];
      [|by apply elem_of_nil in Hx].
    apply list_elem_of_singleton in Hx as ->. exists r, i. subst a. done.
  - intros (r & i & Hr & Hi & Ha & Hfr & ->).
    apply list_elem_of_bind. exists r. split; [|done].
    apply list_elem_of_bind. exists i. split; [|done].
    rewrite Ha, Hfr, bool_decide_eq_true_2 by done. simpl.
    by apply list_elem_of_singleton.
Qed.

Lemma matrix_terms_eliminated_col (v u : gsFeSpace (T:=T)) patchInd M a b :
  is_free_index (sp_mapper u) b = false → matrix_terms v u patchInd M a b = [].
Proof.
  intros Hb. apply elem_of_nil_inv. intros x Hx.
  apply elem_of_matrix_terms in Hx as (r & i & c & j & _ & _ & _ & _ & _ & _ & _ & Hf & _).
  congruence.
Qed.

Lemma vector_terms_eliminated_row (v : gsFeSpace (T:=T)) patchInd M a :
  is_free_index (sp_mapper v) a = false → vector_terms v patchInd M a = [].
Proof.
  intros Ha. apply elem_of_nil_inv. intros x Hx.
  apply elem_of_vector_terms in Hx as (r & i & _ & _ & _ & Hf & _). congruence.
Qed.

Lemma mat_at_same_length {X} (M M' : gsMatrix X) a :
  length (mat_data M') = length (mat_data M) →
  (∀ x0, mat_at M a = Ok x0 → mat_at M' a = Ok x0) → mat_at M' a = mat_at M a.
Proof.
  intros Hlen Hsame. destruct (mat_at M a) as [x0|e] eqn:Ha; [by apply Hsame|].
  unfold mat_at, list_at in *. destruct (decide (0 ≤ a)); [|done].
  destruct (mat_data M !! Z.to_nat a) eqn:Hl; [done|].
  apply lookup_ge_None in Hl. rewrite <- Hlen in Hl. apply lookup_ge_None in Hl.
  by rewrite Hl.
Qed.

(** *** A push that is ready completes *)

Lemma effect_same_shape op mt rt (ev s s' : _eval (T:=T)) :
  same_shape ev s → effect op mt rt s s' → same_shape ev s'.
Proof. intros (? & ? & ? & ?) []. unfold same_shape. split_and!; congruence. Qed.

Lemma list_at_lt {X} (l : list X) k :
  0 ≤ k < Z.of_nat (length l) → ∃ x, list_at l k = Ok x.
Proof.
  intros Hk. unfold list_at. rewrite decide_True by lia.
  destruct (lookup_lt_is_Some_2 l (Z.to_nat k)) as [x ->]; [lia|]. eauto.
Qed.

Lemma mat_at_lt {X} (M : gsMatrix X) k :
  0 ≤ k < Z.of_nat (length (mat_data M)) → ∃ x, mat_at M k = Ok x.
Proof. apply list_at_lt. Qed.

Lemma rhs_update_completes f ii (s : _eval (T:=T)) :
  0 ≤ ii < Z.of_nat (length (mat_data (ev_rhs s))) →
  ∃ s', rhs_update f ii s = Ok s'.
Proof.
  intros Hii. unfold rhs_update, mat_set_at.
  destruct (mat_at_lt (ev_rhs s) ii Hii) as [x ->]. simpl. eauto.
Qed.

Lemma stride_lt r i n d : 0 ≤ r < d → 0 ≤ i < n → 0 ≤ r * n + i < n * d.
Proof. nia. Qed.

Lemma push_matrix_completes (v u : gsFeSpace (T:=T)) patchInd (ev : _eval (T:=T)) :
  push_matrix_ready v u patchInd ev → ∃ ev', push true v u patchInd ev = Ok ev'.
Proof.
  intros []. unfold push. rewrite rdy_v0, rdy_u0. simpl.
  rewrite bool_decide_eq_true_2 by done. simpl.
  rewrite bool_decide_eq_true_2 by done. simpl.
  unfold index_range. rewrite decide_True by done. simpl.
  destruct (for_each_completes (same_shape ev)
              (λ r, for_each (upto (mat_rows (sp_actives v)))
                      (push_row true (sp_mapper v) (sp_mapper u) (sp_actives v)
                         (sp_actives u) (sp_fixedPart u) (sp_dim u) patchInd r))
              (upto (Z.to_nat (sp_dim v))) ev) as (ev' & Hev' & _); [done| |eauto].
  intros r s Hr Hs. apply for_each_completes; [done|]. intros i s1 Hi Hs1.
  assert (∃ s', push_row true (sp_mapper v) (sp_mapper u) (sp_actives v)
                  (sp_actives u) (sp_fixedPart u) (sp_dim u) patchInd r i s1 = Ok s')
    as [s' Hs']; [|exists s'; split; [done|];
                   eapply effect_same_shape; [exact Hs1|];
                   eapply push_row_effect_matrix; [reflexivity|exact Hs']].
  unfold push_row. pose proof Hi as Hi'. apply elem_of_upto in Hi'.
  destruct (mat_at_lt (sp_actives v) i ltac:(lia)) as [ri Hri].
  rewrite Hri. simpl.
  pose proof (rdy_row_range0 r i Hr Hi) as Hrow.
  unfold global_row, active_at in Hrow. rewrite Hri in Hrow. simpl in Hrow.
  destruct (is_free_index (sp_mapper v) (index (sp_mapper v) ri patchInd r)) eqn:Hfree;
    [|eauto].
  specialize (Hrow eq_refl). unfold index_range. rewrite decide_True by done. simpl.
  eapply (for_each_completes (same_shape ev)
            (λ c, for_each (upto (mat_rows (sp_actives u)))
                    (push_entry (sp_mapper u) (sp_actives u) (sp_fixedPart u) patchInd
                       (index (sp_mapper v) ri patchInd r)
                       (r * rows (sp_actives v)) i c))) in Hs1 as (s' & Hs' & _);
    [eauto|].
  intros c s2 Hc Hs2. apply for_each_completes; [done|]. intros j s3 Hj Hs3.
  assert (∃ s', push_entry (sp_mapper u) (sp_actives u) (sp_fixedPart u) patchInd
                  (index (sp_mapper v) ri patchInd r) (r * rows (sp_actives v)) i c j s3
                = Ok s')
    as [s' Hs']; [|exists s'; split; [done|];
                   eapply effect_same_shape; [exact Hs3|];
                   eapply (push_entry_effect v u); [reflexivity|exact Hs']].
  destruct Hs3 as (HM & Hsr & Hsc & Hlen).
  unfold push_entry. pose proof Hj as Hj'. apply elem_of_upto in Hj'.
  pose proof Hr as Hr'. apply elem_of_upto in Hr'.
  pose proof Hc as Hc'. apply elem_of_upto in Hc'.
  unfold rows, cols in *.
  assert (∃ m, mat_coeff (localMat s3) (r * Z.of_nat (mat_rows (sp_actives v)) + i)
                 (c * Z.of_nat (mat_rows (sp_actives u)) + j) = Ok m) as [m Hm].
  { rewrite HM. unfold mat_coeff, rows, cols.
    pose proof (stride_lt r i (Z.of_nat (mat_rows (sp_actives v))) (sp_dim v)
                  ltac:(lia) ltac:(lia)) as Hrow'.
    pose proof (stride_lt c j (Z.of_nat (mat_rows (sp_actives u))) (sp_dim u)
                  ltac:(lia) ltac:(lia)) as Hcol'.
    rewrite decide_True by lia. apply list_at_lt. rewrite rdy_localMat0.
    rewrite Nat2Z.inj_mul.
    pose proof (stride_lt (c * Z.of_nat (mat_rows (sp_actives u)) + j)
                  (r * Z.of_nat (mat_rows (sp_actives v)) + i)
                  (Z.of_nat (mat_rows (localMat ev))) (Z.of_nat (mat_cols (localMat ev)))
                  ltac:(lia) ltac:(lia)). lia. }
  rewrite Hm. simpl. destruct (s_is_zero m); [eauto|].
  destruct (mat_at_lt (sp_actives u) j ltac:(lia)) as [cj Hcj].
  rewrite Hcj. simpl.
  pose proof (rdy_col_range0 c j Hc Hj) as Hcol.
  unfold global_col, active_at in Hcol. rewrite Hcj in Hcol. simpl in Hcol.
  destruct (is_free_index (sp_mapper u) (index (sp_mapper u) cj patchInd c)).
  - unfold coeffRef_add. rewrite decide_True by lia. simpl. eauto.
  - destruct (mat_at_lt (sp_fixedPart u)
                (global_to_bindex (sp_mapper u) (index (sp_mapper u) cj patchInd c))
                Hcol) as [f Hf].
    rewrite Hf. simpl. apply rhs_update_completes. lia.
Qed.

Lemma push_vector_completes (v u : gsFeSpace (T:=T)) patchInd (ev : _eval (T:=T)) :
  push_vector_ready v patchInd ev → ∃ ev', push false v u patchInd ev = Ok ev'.
Proof.
  intros []. unfold push. rewrite vrdy_v0. simpl.
  rewrite bool_decide_eq_true_2 by done. simpl.
  unfold index_range. rewrite decide_True by done. simpl.
  destruct (for_each_completes (same_shape ev)
              (λ r, for_each (upto (mat_rows (sp_actives v)))
                      (push_row false (sp_mapper v) (sp_mapper v) (sp_actives v)
                         (sp_actives v) mat_empty (sp_dim u) patchInd r))
              (upto (Z.to_nat (sp_dim v))) ev) as (ev' & Hev' & _); [done| |eauto].
  intros r s Hr Hs. apply for_each_completes; [done|]. intros i s1 Hi Hs1.
  assert (∃ s', push_row false (sp_mapper v) (sp_mapper v) (sp_actives v)
                  (sp_actives v) mat_empty (sp_dim u) patchInd r i s1 = Ok s')
    as [s' Hs']; [|exists s'; split; [done|];
                   eapply effect_same_shape; [exact Hs1|];
                   eapply push_row_effect_vector; [reflexivity|exact Hs']].
  destruct Hs1 as (HM & _ & _ & Hlen).
  unfold push_row. pose proof Hi as Hi'. apply elem_of_upto in Hi'.
  pose proof Hr as Hr'. apply elem_of_upto in Hr'.
  destruct (mat_at_lt (sp_actives v) i ltac:(lia)) as [ri Hri].
  rewrite Hri. simpl.
  pose proof (vrdy_row_range0 r i Hr Hi) as Hrow.
  unfold global_row, active_at in Hrow. rewrite Hri in Hrow. simpl in Hrow.
  destruct (is_free_index (sp_mapper v) (index (sp_mapper v) ri patchInd r)) eqn:Hfree;
    [|eauto].
  specialize (Hrow eq_refl). unfold rows in *.
  destruct (mat_at_lt (localMat s1)
              (r * Z.of_nat (mat_rows (sp_actives v)) + i)) as [x Hx].
  { rewrite HM.
    pose proof (stride_lt r i (Z.of_nat (mat_rows (sp_actives v))) (sp_dim v)
                  ltac:(lia) ltac:(lia)). lia. }
  rewrite Hx. simpl. apply rhs_update_completes. lia.
Qed.

(** *** What push does *)

(** C1: a matrix-valued push that is ready (see [push_matrix_ready])
    completes; and when a matrix-valued push completes, no coefficient of
    the global matrix at an eliminated (boundary) column was written,
    whatever the row; row a of the right-hand side ends as its old value
    minus, one after the other, the products m * fixedDofs(boundary index of
    the column) of [elim_terms]; and these are exactly the products of the
    non-zero local entries m at a free global row a and an eliminated global
    column, one for each such local entry. *)
Theorem push_eliminates_boundary_columns (v u : gsFeSpace (T:=T)) patchInd
  (ev : _eval (T:=T)) :
  (push_matrix_ready v u patchInd ev → ∃ ev', push true v u patchInd ev = Ok ev')
  ∧ ∀ ev', push true v u patchInd ev = Ok ev' →
    (∀ a b, is_free_index (sp_mapper u) b = false →
            sm_coeffs (ev_matrix ev') !! (a, b) = sm_coeffs (ev_matrix ev) !! (a, b))
    ∧ (∀ a x0, mat_at (ev_rhs ev) a = Ok x0 →
               mat_at (ev_rhs ev') a
               = Ok (foldl s_sub x0 (elim_terms v u patchInd (localMat ev) a)))
    ∧ (∀ a x, x ∈ elim_terms v u patchInd (localMat ev) a ↔
         ∃ r i c j,
           r ∈ upto (Z.to_nat (sp_dim v)) ∧ i ∈ upto (mat_rows (sp_actives v))
           ∧ c ∈ upto (Z.to_nat (sp_dim u)) ∧ j ∈ upto (mat_rows (sp_actives u))
           ∧ global_row v patchInd r i = a ∧ is_free_index (sp_mapper v) a = true
           ∧ is_free_index (sp_mapper u) (global_col u patchInd c j) = false
           ∧ s_is_zero (local_entry v u (localMat ev) r i c j) = false
           ∧ x = s_mul (local_entry v u (localMat ev) r i c j)
                   (entry_or_zero (sp_fixedPart u)
                      (global_to_bindex (sp_mapper u) (global_col u patchInd c j)))).
Proof.
  split; [apply push_matrix_completes|].
  intros ev' Hrun. destruct (push_matrix_effect _ _ _ _ _ Hrun). split_and!.
  - intros a b Hb. rewrite eff_coeffs0.
    by rewrite matrix_terms_eliminated_col.
  - done.
  - intros a x. apply elem_of_elim_terms.
Qed.

(** C4: a vector-valued push that is ready (see [push_vector_ready])
    completes; and when a vector-valued push completes, the global matrix is
    left as it was; row a of the right-hand side ends as its old value plus,
    one after the other, the local entries of [vector_terms], which are
    exactly the local entries whose resolved global row is a and free; a row
    that is eliminated keeps its value. *)
Theorem push_vector_adds_free_rows (v u : gsFeSpace (T:=T)) patchInd
  (ev : _eval (T:=T)) :
  (push_vector_ready v patchInd ev → ∃ ev', push false v u patchInd ev = Ok ev')
  ∧ ∀ ev', push false v u patchInd ev = Ok ev' →
    ev_matrix ev' = ev_matrix ev
    ∧ (∀ a x0, mat_at (ev_rhs ev) a = Ok x0 →
               mat_at (ev_rhs ev') a
               = Ok (foldl s_add x0 (vector_terms v patchInd (localMat ev) a)))
    ∧ (∀ a x, x ∈ vector_terms v patchInd (localMat ev) a ↔
         ∃ r i,
           r ∈ upto (Z.to_nat (sp_dim v)) ∧ i ∈ upto (mat_rows (sp_actives v))
           ∧ global_row v patchInd r i = a ∧ is_free_index (sp_mapper v) a = true
           ∧ x = entry_or_zero (localMat ev) (r * rows (sp_actives v) + i))
    ∧ (∀ a, is_free_index (sp_mapper v) a = false →
            mat_at (ev_rhs ev') a = mat_at (ev_rhs ev) a).
Proof.
  split; [apply push_vector_completes|].
  intros ev' Hrun. destruct (push_vector_effect _ _ _ _ _ Hrun). split_and!.
  - destruct (ev_matrix ev') as [r' c' m' k'], (ev_matrix ev) as [r c m k].
    simpl in *. subst. f_equal. apply map_eq. intros [a b]. apply eff_coeffs0.
  - done.
  - intros a x. apply elem_of_vector_terms.
  - intros a Ha. apply mat_at_same_length; [done|]. intros x0 Hx0.
    rewrite (eff_rhs0 _ _ Hx0). by rewrite vector_terms_eliminated_row.
Qed.

(** C5: a matrix-valued push that is ready completes; and when a
    matrix-valued push completes, the coefficient (a, b) of the global
    matrix ends as [accumulate] leaves it: untouched, stored or not, when no
    term targets it, and otherwise its old value (zero if it was not stored)
    plus the terms, one after the other.  The terms are local entries that
    do not compare equal to zero, so a zero entry is never stored; and the
    push of a second element adds its terms to what the first one left. *)
Theorem push_accumulates_nonzero_entries (v u : gsFeSpace (T:=T)) patchInd
  (ev : _eval (T:=T)) :
  (push_matrix_ready v u patchInd ev → ∃ ev', push true v u patchInd ev = Ok ev')
  ∧ ∀ ev', push true v u patchInd ev = Ok ev' →
    (∀ a b, sm_coeffs (ev_matrix ev') !! (a, b)
            = accumulate (matrix_terms v u patchInd (localMat ev) a b)
                (sm_coeffs (ev_matrix ev) !! (a, b)))
    ∧ (∀ a b x, x ∈ matrix_terms v u patchInd (localMat ev) a b ↔
         ∃ r i c j,
           r ∈ upto (Z.to_nat (sp_dim v)) ∧ i ∈ upto (mat_rows (sp_actives v))
           ∧ c ∈ upto (Z.to_nat (sp_dim u)) ∧ j ∈ upto (mat_rows (sp_actives u))
           ∧ global_row v patchInd r i = a ∧ is_free_index (sp_mapper v) a = true
           ∧ global_col u patchInd c j = b ∧ is_free_index (sp_mapper u) b = true
           ∧ x = local_entry v u (localMat ev) r i c j ∧ s_is_zero x = false)
    ∧ (∀ a b, matrix_terms v u patchInd (localMat ev) a b = [] →
              sm_coeffs (ev_matrix ev') !! (a, b) = sm_coeffs (ev_matrix ev) !! (a, b))
    ∧ (∀ v2 u2 patch2 M2 ev2,
         push true v2 u2 patch2 (with_localMat M2 ev') = Ok ev2 →
         ∀ a b, sm_coeffs (ev_matrix ev2) !! (a, b)
                = accumulate (matrix_terms v u patchInd (localMat ev) a b
                              ++ matrix_terms v2 u2 patch2 M2 a b)
                    (sm_coeffs (ev_matrix ev) !! (a, b))).
Proof.
  split; [apply push_matrix_completes|].
  intros ev' Hrun. destruct (push_matrix_effect _ _ _ _ _ Hrun). split_and!.
  - done.
  - intros a b x. apply elem_of_matrix_terms.
  - intros a b Hnil. by rewrite eff_coeffs0, Hnil.
  - intros v2 u2 patch2 M2 ev2 Hrun2 a b.
    destruct (push_matrix_effect _ _ _ _ _ Hrun2) as [_ _ _ _ _ _ _ _ Hc2 _].
    simpl in Hc2. by rewrite Hc2, accumulate_app, eff_coeffs0.
Qed.

(** C7 (amended): a matrix-valued push on valid row and column spaces
    whose local block has a row extent other than the row space's active
    count times its dimension, or a column extent other than the column
    space's active count times its dimension, fails with the
    malformed-local-block error; one whose column mapper's boundary size
    differs from the length of the column space's fixed-DOF vector fails
    too, with the inconsistent-fixed-dofs error when the extents agree. *)
Theorem push_matrix_checks_block (v u : gsFeSpace (T:=T)) patchInd (ev : _eval (T:=T)) :
  isValid v = true → isValid u = true →
  (rows (sp_actives v) * sp_dim v ≠ rows (localMat ev)
   ∨ rows (sp_actives u) * sp_dim u ≠ cols (localMat ev) →
   push true v u patchInd ev = Fatal MalformedLocalBlock)
  ∧ (boundarySize (sp_mapper u) ≠ mat_size (sp_fixedPart u) →
     push true v u patchInd ev
     = Fatal (if bool_decide (rows (sp_actives v) * sp_dim v = rows (localMat ev)
                              ∧ rows (sp_actives u) * sp_dim u = cols (localMat ev))
              then InconsistentFixedDofs else MalformedLocalBlock)).
Proof.
  intros Hv Hu. unfold push. rewrite Hv, Hu. simpl. split.
  - intros Hext. destruct (bool_decide_reflect
      (rows (sp_actives v) * sp_dim v = rows (localMat ev)
       ∧ rows (sp_actives u) * sp_dim u = cols (localMat ev))) as [[? ?]|];
      simpl; [|done]. by destruct Hext.
  - intros Hb. destruct (bool_decide_reflect
      (rows (sp_actives v) * sp_dim v = rows (localMat ev)
       ∧ rows (sp_actives u) * sp_dim u = cols (localMat ev))); simpl; [|done].
    by rewrite bool_decide_eq_false_2.
Qed.

End ScatterFacts.

(** *** Push on a worked element *)

(** The local block [[4 0 1] [0 5 2] [1 2 6]] over two free and one
    eliminated index (fixed to 10): the coefficients (0,0) and (1,1) are
    stored, the zero entries and the eliminated column are not, and the
    right-hand side loses 1 * 10 and 2 * 10. *)
Example push_demo :
  push true demo_space demo_space 0 demo_eval
  = Ok (mkEval (mkSparse 2 2 (<[(0, 0) := 4]> (<[(1, 1) := 5]> ∅)) None)
          (mkMatrix 2 1 [90; 180]) 0 (localMat demo_eval)).
Proof. vm_compute. reflexivity. Qed.

Example push_vector_demo :
  push false demo_space demo_space 0 demo_vector_eval
  = Ok (mkEval (sparse_new 2 2) (mkMatrix 2 1 [107; 208]) 0 (localMat demo_vector_eval)).
Proof. vm_compute. reflexivity. Qed.

(** The worked element is ready for both kinds of push. *)
Lemma demo_matrix_ready : push_matrix_ready demo_space demo_space 0 demo_eval.
Proof.
  split; try (vm_compute; first [reflexivity|congruence|lia]).
  - intros r i Hr Hi Hfree. apply elem_of_upto in Hr, Hi. simpl in Hr, Hi.
    assert (r = 0) as -> by lia.
    assert (i = 0 ∨ i = 1 ∨ i = 2) as [->|[->| ->]] by lia;
      vm_compute in Hfree |- *; try discriminate; split_and!; congruence.
  - intros c j Hc Hj. apply elem_of_upto in Hc, Hj. simpl in Hc, Hj.
    assert (c = 0) as -> by lia.
    assert (j = 0 ∨ j = 1 ∨ j = 2) as [->|[->| ->]] by lia;
      vm_compute; split_and!; congruence.
Qed.

Lemma demo_vector_ready : push_vector_ready demo_space 0 demo_vector_eval.
Proof.
  split; try (vm_compute; first [reflexivity|congruence|lia]).
  intros r i Hr Hi Hfree. apply elem_of_upto in Hr, Hi. simpl in Hr, Hi.
  assert (r = 0) as -> by lia.
  assert (i = 0 ∨ i = 1 ∨ i = 2) as [->|[->| ->]] by lia;
    vm_compute in Hfree |- *; try discriminate; split_and!; congruence.
Qed.

Lemma push_eliminates_boundary_columns_witness :
  let ev' := value (push true demo_space demo_space 0 demo_eval) demo_eval in
  (∃ ev1, push true demo_space demo_space 0 demo_eval = Ok ev1)
  ∧ sm_coeffs (ev_matrix ev') !! (0, 2) = None
  ∧ sm_coeffs (ev_matrix ev') !! (1, 2) = None
  ∧ mat_at (ev_rhs ev') 0 = Ok (100 - 1 * 10)
  ∧ mat_at (ev_rhs ev') 1 = Ok (200 - 2 * 10).
Proof.
  intros ev'.
  destruct (push_eliminates_boundary_columns demo_space demo_space 0 demo_eval)
    as [Hcompletes Heffect].
  destruct (Heffect ev') as (Hcol & Hrhs & _); [vm_compute; reflexivity|].
  split_and!.
  - apply Hcompletes, demo_matrix_ready.
  - rewrite Hcol by reflexivity. reflexivity.
  - rewrite Hcol by reflexivity. reflexivity.
  - apply (Hrhs 0 100). reflexivity.
  - apply (Hrhs 1 200). reflexivity.
Defined.

Lemma push_vector_adds_free_rows_witness :
  let ev' := value (push false demo_space demo_space 0 demo_vector_eval)
               demo_vector_eval in
  (∃ ev1, push false demo_space demo_space 0 demo_vector_eval = Ok ev1)
  ∧ ev_matrix ev' = ev_matrix demo_vector_eval
  ∧ mat_at (ev_rhs ev') 0 = Ok (100 + 7)
  ∧ mat_at (ev_rhs ev') 1 = Ok (200 + 8)
  ∧ mat_at (ev_rhs ev') 2 = mat_at (ev_rhs demo_vector_eval) 2.
Proof.
  intros ev'.
  destruct (push_vector_adds_free_rows demo_space demo_space 0 demo_vector_eval)
    as [Hcompletes Heffect].
  destruct (Heffect ev') as (Hmat & Hrhs & _ & Helim); [vm_compute; reflexivity|].
  split_and!.
  - apply Hcompletes, demo_vector_ready.
  - exact Hmat.
  - apply (Hrhs 0 100). reflexivity.
  - apply (Hrhs 1 200). reflexivity.
  - apply Helim. reflexivity.
Defined.

Lemma push_accumulates_nonzero_entries_witness :
  let ev1 := value (push true demo_space demo_space 0 demo_eval) demo_eval in
  let ev2 := value (push true demo_space demo_space 0 ev1) ev1 in
  (∃ ev, push true demo_space demo_space 0 demo_eval = Ok ev)
  ∧ sm_coeffs (ev_matrix ev1) !! (0, 0) = Some (0 + 4)
  ∧ sm_coeffs (ev_matrix ev1) !! (0, 1) = None
  ∧ sm_coeffs (ev_matrix ev2) !! (0, 0) = Some (0 + 4 + 4)
  ∧ sm_coeffs (ev_matrix ev2) !! (0, 1) = None.
Proof.
  intros ev1 ev2.
  destruct (push_accumulates_nonzero_entries demo_space demo_space 0 demo_eval)
    as [Hcompletes Heffect].
  destruct (Heffect ev1) as (Hacc & _ & Hnone & Htwo); [vm_compute; reflexivity|].
  split_and!.
  - apply Hcompletes, demo_matrix_ready.
  - rewrite Hacc. reflexivity.
  - rewrite Hnone by reflexivity. reflexivity.
  - rewrite (Htwo demo_space demo_space 0 (localMat demo_eval) ev2)
      by (vm_compute; reflexivity). reflexivity.
  - rewrite (Htwo demo_space demo_space 0 (localMat demo_eval) ev2)
      by (vm_compute; reflexivity). reflexivity.
Defined.

(** C7 as the specification states it fails for vector-valued blocks: the
    row space has one active function and dimension 1, the local block has
    3 rows, and the push completes, adding the first entry. *)
Lemma push_vector_ignores_extents :
  rows (sp_actives short_space) * sp_dim short_space ≠ rows (localMat demo_vector_eval)
  ∧ push false short_space short_space 0 demo_vector_eval
    = Ok (mkEval (sparse_new 2 2) (mkMatrix 2 1 [107; 200]) 0
            (localMat demo_vector_eval)).
Proof. split; [vm_compute; congruence|vm_compute; reflexivity]. Qed.

Lemma push_matrix_checks_block_witness :
  push true short_space short_space 0 demo_eval = Fatal MalformedLocalBlock
  ∧ push true unfixed_space unfixed_space 0 demo_eval = Fatal InconsistentFixedDofs.
Proof.
  split.
  - refine (proj1 (push_matrix_checks_block short_space short_space 0 demo_eval
                     eq_refl eq_refl) _).
    left. vm_compute. congruence.
  - refine (proj2 (push_matrix_checks_block unfixed_space unfixed_space 0 demo_eval
                     eq_refl eq_refl) _).
    vm_compute. congruence.
Defined.

(** The same local block against the same spaces is refused when it is
    pushed as a matrix. *)
Example push_matrix_refuses_extents :
  push true short_space short_space 0 demo_eval = Fatal MalformedLocalBlock.
Proof. vm_compute. reflexivity. Qed.

(** ** The traversals *)

Section TraversalFacts.
Context {T : Type} `{Scalar T} {Element QuRule : Type}.
Variable getPtr : Z → gsOptionList (T:=T) → option Z → QuRule.
Variable mapTo : QuRule → Element → gsMatrix T * list T.
Variable makeDomainIterator : Z → option Z → list Element.

Lemma for_each_ext {A S} (f g : A → S → result S) l s :
  (∀ x s, f x s = g x s) → for_each l f s = for_each l g s.
Proof.
  intros Hfg. revert s. induction l as [|x l IH]; intros s; simpl; [done|].
  rewrite Hfg. destruct (g x s); simpl; auto.
Qed.

Lemma for_each_bind_ext {A S B} (f g : A → S → result S) l s (k : S → result B) :
  (∀ x s, f x s = g x s) → for_each l f s ≫= k = for_each l g s ≫= k.
Proof. intros Hfg. by rewrite (for_each_ext f g). Qed.

Lemma has_points_false rule el :
  has_points mapTo rule el = false ↔ cols (mapTo rule el).1 = 0.
Proof.
  unfold has_points. destruct (bool_decide_reflect (cols (mapTo rule el).1 = 0));
    simpl; split; congruence.
Qed.

(** The loop bodies return at once on an element without points. *)
Lemma element_bodies_skip (args : list (gsExpr (T:=T))) (arg_lhs arg_rhs : gsExpr)
  (patchInd : Z) (bc : boundary_condition) (iFace : boundaryInterface)
  (rule : QuRule) (el : Element) (st : gsTraversal) :
  cols (mapTo rule el).1 = 0 →
  assemble_element mapTo args patchInd rule el st = Ok st
  ∧ assemble_bc_element mapTo args bc rule el st = Ok st
  ∧ assembleLhsRhsBc_element mapTo arg_lhs arg_rhs bc rule el st = Ok st
  ∧ assembleInterface_element mapTo arg_lhs arg_rhs iFace rule el st = Ok st.
Proof.
  intros Hempty.
  unfold assemble_element, assemble_bc_element, assembleLhsRhsBc_element,
    assembleInterface_element.
  destruct (mapTo rule el) as [points quWeights]. simpl in Hempty.
  rewrite !decide_True by done. done.
Qed.

(** The traversals visit the elements without points to no effect. *)
Lemma traversals_skip_empty_elements (args : list (gsExpr (T:=T)))
  (arg_lhs arg_rhs : gsExpr) BCs iFaces (a : gsExprAssembler) :
  assemble getPtr mapTo makeDomainIterator args a
  = assemble getPtr mapTo
      (nonempty_elements getPtr mapTo makeDomainIterator (m_options a)) args a
  ∧ assemble_bc getPtr mapTo makeDomainIterator BCs args a
    = assemble_bc getPtr mapTo
        (nonempty_elements getPtr mapTo makeDomainIterator (m_options a)) BCs args a
  ∧ assembleLhsRhsBc_impl getPtr mapTo makeDomainIterator arg_lhs arg_rhs BCs a
    = assembleLhsRhsBc_impl getPtr mapTo
        (nonempty_elements getPtr mapTo makeDomainIterator (m_options a))
        arg_lhs arg_rhs BCs a
  ∧ assembleInterface_impl getPtr mapTo makeDomainIterator arg_lhs arg_rhs iFaces a
    = assembleInterface_impl getPtr mapTo
        (nonempty_elements getPtr mapTo makeDomainIterator (m_options a))
        arg_lhs arg_rhs iFaces a.
Proof.
  unfold assemble, assemble_bc, assembleLhsRhsBc_impl, assembleInterface_impl,
    nonempty_elements.
  split_and!.
  - destruct (assert_initialized a); simpl; [|done].
    apply for_each_bind_ext. intros patchInd st.
    apply for_each_filter. intros el s Hel. apply has_points_false in Hel.
    by apply (element_bodies_skip args arg_lhs arg_rhs patchInd
                (mkBc 0 0 0 false) (mkInterface 0 0 0 0)).
  - destruct (assert_initialized a); simpl; [|done].
    apply for_each_bind_ext. intros bc st.
    apply for_each_filter. intros el s Hel. apply has_points_false in Hel.
    by apply (element_bodies_skip args arg_lhs arg_rhs 0 bc (mkInterface 0 0 0 0)).
  - apply for_each_bind_ext. intros bc st.
    apply for_each_filter. intros el s Hel. apply has_points_false in Hel.
    by apply (element_bodies_skip args arg_lhs arg_rhs 0 bc (mkInterface 0 0 0 0)).
  - apply for_each_bind_ext. intros iFace st.
    apply for_each_filter. intros el s Hel. apply has_points_false in Hel.
    by apply (element_bodies_skip args arg_lhs arg_rhs 0 (mkBc 0 0 0 false) iFace).
Qed.

(** C6: in each traversal variant (volume, the two boundary loops,
    interface) the loop body leaves the traversal state as it is on an
    element whose mapped quadrature rule has no points: the body returns
    without error, no call of precompute or of an evaluation is recorded,
    and matrix and right-hand side are untouched.  Hence every traversal
    gives the result it gives on the mesh without those elements. *)
Theorem empty_element_is_skipped (args : list (gsExpr (T:=T))) (arg_lhs arg_rhs : gsExpr)
  (patchInd : Z) (bc : boundary_condition) (iFace : boundaryInterface)
  (rule : QuRule) (el : Element) (st : gsTraversal) BCs iFaces
  (a : gsExprAssembler) :
  (cols (mapTo rule el).1 = 0 →
   assemble_element mapTo args patchInd rule el st = Ok st
   ∧ assemble_bc_element mapTo args bc rule el st = Ok st
   ∧ assembleLhsRhsBc_element mapTo arg_lhs arg_rhs bc rule el st = Ok st
   ∧ assembleInterface_element mapTo arg_lhs arg_rhs iFace rule el st = Ok st)
  ∧ assemble getPtr mapTo makeDomainIterator args a
    = assemble getPtr mapTo
        (nonempty_elements getPtr mapTo makeDomainIterator (m_options a)) args a
  ∧ assemble_bc getPtr mapTo makeDomainIterator BCs args a
    = assemble_bc getPtr mapTo
        (nonempty_elements getPtr mapTo makeDomainIterator (m_options a)) BCs args a
  ∧ assembleLhsRhsBc_impl getPtr mapTo makeDomainIterator arg_lhs arg_rhs BCs a
    = assembleLhsRhsBc_impl getPtr mapTo
        (nonempty_elements getPtr mapTo makeDomainIterator (m_options a))
        arg_lhs arg_rhs BCs a
  ∧ assembleInterface_impl getPtr mapTo makeDomainIterator arg_lhs arg_rhs iFaces a
    = assembleInterface_impl getPtr mapTo
        (nonempty_elements getPtr mapTo makeDomainIterator (m_options a))
        arg_lhs arg_rhs iFaces a.
Proof.
  split; [apply element_bodies_skip|apply traversals_skip_empty_elements].
Qed.

End TraversalFacts.

Lemma empty_element_is_skipped_witness :
  assemble_element demo_mapTo [constant_one] 0 tt 0%nat demo_traversal = Ok demo_traversal
  ∧ assemble_bc_element demo_mapTo [constant_one] (mkBc 0 1 0 false) tt 0%nat demo_traversal
    = Ok demo_traversal
  ∧ assembleLhsRhsBc_element demo_mapTo constant_one constant_one (mkBc 0 1 0 false) tt
      0%nat demo_traversal = Ok demo_traversal
  ∧ assembleInterface_element demo_mapTo constant_one constant_one (mkInterface 0 1 1 2)
      tt 0%nat demo_traversal = Ok demo_traversal.
Proof.
  apply (empty_element_is_skipped demo_getPtr demo_mapTo demo_elements [constant_one]
           constant_one constant_one 0 (mkBc 0 1 0 false) (mkInterface 0 1 1 2) tt 0%nat
           demo_traversal [] [] single_block).
  reflexivity.
Defined.

(** Assembling the constant 1 over the mesh of one degenerate and one
    regular element: the degenerate element leaves no trace, the regular one
    is precomputed and evaluated once, and the right-hand side is [1]. *)
Example assemble_constant_one :
  ∃ a', assemble demo_getPtr demo_mapTo demo_elements [constant_one] one_dof_system = Ok a'
        ∧ m_rhs a' = mkMatrix 1 1 [1]
        ∧ sm_coeffs (m_matrix a') = ∅
        ∧ calls (m_exprdata a') = [CallPrecompute 0; CallEval 0].
Proof. eexists. split; [vm_compute; reflexivity|]. split_and!; reflexivity. Qed.

(** On the element with one point of weight 1 the constant 1 is evaluated
    once and adds 1 to the right-hand side. *)
Example full_element_contributes :
  assemble_element demo_mapTo [constant_one] 0 tt 1%nat demo_traversal
  = Ok (mkTraversal (mkEval (sparse_new 1 1) (mkMatrix 1 1 [1]) 0 (mkMatrix 1 1 [1]))
          [CallPrecompute 0; CallEval 0]).
Proof. vm_compute. reflexivity. Qed.

(** ** The container basis *)

Section ContainerFacts.
Context {T : Type}.

Lemma Zsum_app l1 l2 : Zsum (l1 ++ l2) = Zsum l1 + Zsum l2.
Proof. unfold Zsum. induction l1 as [|x l1 IH]; simpl in *; lia. Qed.

Lemma foldl_Zsum {A} (g : A → Z) l s0 :
  foldl (λ s b, s + g b) s0 l = s0 + Zsum (g <$> l).
Proof.
  revert s0. induction l as [|x l IH]; intros s0; [simpl; lia|].
  change (foldl (λ s b, s + g b) (s0 + g x) l = s0 + (g x + Zsum (g <$> l))).
  rewrite IH. lia.
Qed.

Lemma foldl_sum_list {A} (g : A → nat) l n0 :
  foldl (λ n b, n + g b)%nat n0 l = (n0 + sum_list_with g l)%nat.
Proof.
  revert n0. induction l as [|x l IH]; intros n0; simpl; [lia|]. rewrite IH. lia.
Qed.

Lemma size_sum (B : gsContainerBasis (T:=T)) :
  size B = Zsum (tb_size <$> basisContainer B).
Proof. unfold size. rewrite foldl_Zsum. lia. Qed.

Lemma offset_all (B : gsContainerBasis (T:=T)) :
  offset B (length (basisContainer B)) = size B.
Proof. unfold offset. by rewrite take_ge, size_sum. Qed.

Lemma offset_S (B : gsContainerBasis (T:=T)) i b :
  basisContainer B !! i = Some b → offset B (S i) = offset B i + tb_size b.
Proof.
  intros Hi. unfold offset. rewrite (take_S_r _ _ _ Hi), fmap_app, Zsum_app.
  unfold Zsum. simpl. lia.
Qed.

Lemma row_offset_S (B : gsContainerBasis (T:=T)) u i b :
  basisContainer B !! i = Some b →
  row_offset B u (S i) = (row_offset B u i + mat_rows (tb_active_into b u))%nat.
Proof.
  intros Hi. unfold row_offset. rewrite (take_S_r _ _ _ Hi), sum_list_with_app.
  simpl. lia.
Qed.

Lemma row_offset_mono (B : gsContainerBasis (T:=T)) u i k :
  (i ≤ k)%nat → (row_offset B u i ≤ row_offset B u k)%nat.
Proof.
  intros Hik. unfold row_offset.
  replace k with (i + (k - i))%nat by lia.
  rewrite <- take_take_drop, sum_list_with_app. lia.
Qed.

Lemma entry_Some_lt {X} (M : gsMatrix X) r c x :
  entry M r c = Some x → (r < mat_rows M)%nat ∧ (c < mat_cols M)%nat.
Proof. unfold entry. destruct (decide _); [done|discriminate]. Qed.

Lemma entry_wf {X} (M : gsMatrix X) r c :
  mat_wf M → (r < mat_rows M)%nat → (c < mat_cols M)%nat → is_Some (entry M r c).
Proof.
  intros Hwf Hr Hc. unfold entry. rewrite decide_True by done.
  apply lookup_lt_is_Some. rewrite Hwf. nia.
Qed.

Lemma entry_in_data {X} (M : gsMatrix X) r c x :
  entry M r c = Some x → x ∈ mat_data M.
Proof.
  unfold entry. destruct (decide _); [|discriminate].
  intros Hx. by eapply list_elem_of_lookup_2.
Qed.

Lemma entry_mat_shift s (M : gsMatrix Z) r c :
  entry (mat_shift s M) r c = (λ x, x + s) <$> entry M r c.
Proof.
  unfold entry, mat_shift. simpl. destruct (decide _); [|done].
  by rewrite list_lookup_fmap.
Qed.

(** The entries of a matrix after a block was assigned. *)
Lemma entry_block_assign (R : gsMatrix Z) r0 nr nc M R' :
  mat_wf R → block_assign R r0 nr nc M = Ok R' →
  mat_wf R' ∧ mat_rows R' = mat_rows R ∧ mat_cols R' = mat_cols R
  ∧ mat_rows M = nr ∧ mat_cols M = nc ∧ (r0 + nr ≤ mat_rows R)%nat
  ∧ ∀ r c, entry R' r c
           = if decide ((r0 ≤ r < r0 + nr)%nat ∧ (c < nc)%nat)
             then match entry M (r - r0) c with
                  | Some x => Some x
                  | None => entry R r c
                  end
             else entry R r c.
Proof.
  intros Hwf Hrun. unfold block_assign in Hrun.
  destruct (decide _) as [[Hfit Hfitc]|]; [|discriminate].
  destruct (decide _) as [[HMr HMc]|]; [|discriminate].
  injection Hrun as <-. unfold mat_wf in *. simpl.
  split_and!; try done; [by rewrite length_imap|].
  intros r c.
  set (R' := mkMatrix (mat_rows R) (mat_cols R) _).
  destruct (decide ((r < mat_rows R)%nat ∧ (c < mat_cols R)%nat)) as [[Hr Hc]|Hout].
  - assert (r + c * mat_rows R < length (mat_data R))%nat as Hlt by (rewrite Hwf; nia).
    apply lookup_lt_is_Some in Hlt as [old Hold].
    assert (entry R r c = Some old) as HR
      by (unfold entry; by rewrite decide_True).
    assert (mat_rows R ≠ 0)%nat by lia.
    assert (entry R' r c
            = Some (if decide ((r0 ≤ r < r0 + nr)%nat ∧ (c < nc)%nat)
                    then default old (mat_data M !! (r - r0 + c * nr)%nat)
                    else old)) as ->.
    { unfold entry, R'. simpl. rewrite decide_True by done.
      rewrite list_lookup_imap, Hold. simpl.
      rewrite Nat.Div0.mod_add, Nat.mod_small by done.
      rewrite Nat.div_add, Nat.div_small by done. done. }
    rewrite HR.
    destruct (decide ((r0 ≤ r < r0 + nr)%nat ∧ (c < nc)%nat)) as [[Hrb Hcb]|]; [|done].
    unfold entry. rewrite HMr, HMc. rewrite decide_True by (split; lia).
    by destruct (mat_data M !! (r - r0 + c * nr)%nat).
  - assert (entry R' r c = None) as -> by (unfold entry; by rewrite decide_False).
    assert (entry R r c = None) as -> by (unfold entry; by rewrite decide_False).
    rewrite decide_False; [done|]. intros [Hrb Hcb]. apply Hout. lia.
Qed.

Lemma active_inv_step (B : gsContainerBasis (T:=T)) u nr k b R shift srows R' :
  basisContainer B !! k = Some b →
  active_inv B u nr k (R, shift, srows) →
  block_assign R srows (mat_rows (tb_active_into b u)) (mat_cols u)
    (mat_shift shift (tb_active_into b u)) = Ok R' →
  active_inv B u nr (S k)
    (R', shift + tb_size b, (srows + mat_rows (tb_active_into b u))%nat).
Proof.
  intros Hk (Hshift & Hsrows & Hwf & Hrows & Hcols & Hin & Hall) Hrun.
  simpl in *. subst shift srows.
  destruct (entry_block_assign _ _ _ _ _ _ Hwf Hrun)
    as (Hwf' & Hrows' & Hcols' & _ & HMc & Hfit & Hentry).
  simpl in HMc. unfold active_inv. simpl. split_and!.
  - by rewrite (offset_S _ _ _ Hk).
  - by rewrite (row_offset_S _ _ _ _ Hk).
  - done.
  - congruence.
  - congruence.
  - intros i bi r c x Hi Hbi Hx. rewrite Hentry.
    pose proof (entry_Some_lt _ _ _ _ Hx) as [Hr Hc].
    destruct (decide (i = k)) as [->|Hne].
    + rewrite Hk in Hbi. injection Hbi as <-.
      rewrite decide_True by (split; lia).
      replace (row_offset B u k + r - row_offset B u k)%nat with r by lia.
      rewrite entry_mat_shift, Hx. done.
    + pose proof (row_offset_S _ u _ _ Hbi) as HS.
      pose proof (row_offset_mono B u (S i) k ltac:(lia)) as Hmono.
      rewrite decide_False by lia. apply (Hin i bi r c x); [lia|done..].
  - intros Hsub r c Hr Hc. rewrite (row_offset_S _ _ _ _ Hk) in Hr.
    destruct (decide (r < row_offset B u k)%nat) as [Hold|Hnew].
    + destruct (Hall Hsub r c Hold Hc) as (i & bi & x & Hi & Hbi & Hle & Hx & HR).
      exists i, bi, x. split_and!; try done; [lia|].
      rewrite Hentry, decide_False by lia. done.
    + assert (b ∈ basisContainer B) as Hb by (by eapply list_elem_of_lookup_2).
      destruct (entry_wf (tb_active_into b u) (r - row_offset B u k) c)
        as [x Hx]; [by apply Hsub|lia|lia|].
      exists k, b, x. split_and!; try done; [lia..|].
      rewrite Hentry, decide_True by (split; lia).
      rewrite entry_mat_shift, Hx. done.
Qed.

Lemma active_inv_loop (B : gsContainerBasis (T:=T)) u nr rest :
  ∀ pre st st',
    basisContainer B = pre ++ rest →
    active_inv B u nr (length pre) st →
    for_each (zip rest ((λ b, tb_active_into b u) <$> rest))
      (λ '(b, t) '(result, shift, shift_rows),
         result' ← block_assign result shift_rows (mat_rows t) (mat_cols u)
                     (mat_shift shift t);
         Ok (result', shift + tb_size b, (shift_rows + mat_rows t)%nat)) st = Ok st' →
    active_inv B u nr (length (basisContainer B)) st'.
Proof.
  induction rest as [|b rest IH]; intros pre st st' HB Hinv Hrun; simpl in Hrun.
  - injection Hrun as <-. by rewrite HB, app_nil_r.
  - destruct st as [[R shift] srows]. simpl in Hrun.
    apply bind_Ok in Hrun as (st1 & Hst1 & Hrun).
    apply bind_Ok in Hst1 as (R' & HR' & Hst1). injection Hst1 as <-.
    assert (basisContainer B !! length pre = Some b) as Hk.
    { rewrite HB. by rewrite list_lookup_middle. }
    pose proof (active_inv_step _ _ _ _ _ _ _ _ _ Hk Hinv HR') as Hinv'.
    eapply (IH (pre ++ [b])); [| |exact Hrun].
    + by rewrite <- app_assoc.
    + by rewrite length_app, Nat.add_1_r.
Qed.

Lemma active_loop_completes (B : gsContainerBasis (T:=T)) u rest :
  (∀ b, b ∈ basisContainer B → mat_cols (tb_active_into b u) = mat_cols u) →
  ∀ pre st,
    basisContainer B = pre ++ rest →
    active_inv B u (row_offset B u (length (basisContainer B))) (length pre) st →
    ∃ st',
      for_each (zip rest ((λ b, tb_active_into b u) <$> rest))
        (λ '(b, t) '(result, shift, shift_rows),
           result' ← block_assign result shift_rows (mat_rows t) (mat_cols u)
                       (mat_shift shift t);
           Ok (result', shift + tb_size b, (shift_rows + mat_rows t)%nat)) st = Ok st'.
Proof.
  intros Hcols. induction rest as [|b rest IH]; intros pre st HB Hinv; simpl; [eauto|].
  destruct st as [[R shift] srows]. simpl.
  assert (basisContainer B !! length pre = Some b) as Hk
    by (rewrite HB; by rewrite list_lookup_middle).
  assert (∃ R', block_assign R srows (mat_rows (tb_active_into b u)) (mat_cols u)
                  (mat_shift shift (tb_active_into b u)) = Ok R') as [R' HR'].
  { destruct Hinv as (_ & Hsrows & _ & Hrows & Hc & _). simpl in *.
    pose proof (row_offset_S _ u _ _ Hk) as HS.
    pose proof (row_offset_mono B u (S (length pre)) (length (basisContainer B))
                  ltac:(apply lookup_lt_Some in Hk; lia)) as Hmono.
    unfold block_assign. rewrite decide_True by lia.
    rewrite decide_True; [eauto|]. simpl. split; [done|].
    apply Hcols. by eapply list_elem_of_lookup_2. }
  rewrite HR'. simpl.
  pose proof (active_inv_step _ _ _ _ _ _ _ _ _ Hk Hinv HR') as Hinv'.
  apply (IH (pre ++ [b])).
  - by rewrite <- app_assoc.
  - by rewrite length_app, Nat.add_1_r.
Qed.

Lemma Zsum_nonneg l : Forall (λ x, 0 ≤ x) l → 0 ≤ Zsum l.
Proof. unfold Zsum. induction 1; simpl; lia. Qed.

Lemma offset_mono (B : gsContainerBasis (T:=T)) i k :
  (∀ b, b ∈ basisContainer B → 0 ≤ tb_size b) → (i ≤ k)%nat →
  offset B i ≤ offset B k.
Proof.
  intros Hnn Hik. unfold offset. replace k with (i + (k - i))%nat by lia.
  rewrite <- take_take_drop, fmap_app, Zsum_app.
  assert (0 ≤ Zsum (tb_size <$> take (k - i) (drop i (basisContainer B)))); [|lia].
  apply Zsum_nonneg, Forall_fmap, list.Forall_forall. intros b Hb. apply Hnn.
  by apply (subseteq_drop i), (subseteq_take (k - i)).
Qed.

(** C10: size() is the sum of the sizes of the subspaces.  active_into
    returns when the points have the dimension of the container and every
    subspace reports one column per point.  When it returns, the result has
    the rows of all subspaces and the columns of the points, and the block
    of subspace i holds its active indices shifted by the sum of the sizes
    of the subspaces before it; an active index that lies in [0, size of
    subspace i) is therefore reported in [sum of the sizes before i, that
    sum plus the size of subspace i).  When every subspace has a
    non-negative size and reports a well-formed matrix of indices below its
    size, every reported index belongs to the block of one subspace i, lies
    in that range of i, and is below size(). *)
Theorem container_active_into (B : gsContainerBasis (T:=T)) (u : gsMatrix T) :
  size B = Zsum (tb_size <$> basisContainer B)
  ∧ (rows u = d B →
     (∀ b, b ∈ basisContainer B → mat_cols (tb_active_into b u) = mat_cols u) →
     ∃ R, active_into B u = Ok R)
  ∧ ∀ R, active_into B u = Ok R →
    mat_rows R = row_offset B u (length (basisContainer B))
    ∧ mat_cols R = mat_cols u
    ∧ (∀ i b r c x,
         basisContainer B !! i = Some b → entry (tb_active_into b u) r c = Some x →
         entry R (row_offset B u i + r) c = Some (x + offset B i)
         ∧ (0 ≤ x < tb_size b →
            offset B i ≤ x + offset B i < offset B i + tb_size b))
    ∧ ((∀ b, b ∈ basisContainer B → subspace_ok u b) →
       ∀ r c y, entry R r c = Some y →
         (∃ i b, basisContainer B !! i = Some b
                 ∧ (row_offset B u i ≤ r < row_offset B u (S i))%nat
                 ∧ offset B i ≤ y < offset B i + tb_size b)
         ∧ 0 ≤ y < size B).
Proof.
  set (nr := foldl (λ nr t, nr + mat_rows t)%nat 0%nat
               ((λ b, tb_active_into b u) <$> basisContainer B)).
  assert (nr = row_offset B u (length (basisContainer B))) as Hnr.
  { unfold nr, row_offset. rewrite foldl_fmap, take_ge by done.
    by rewrite (foldl_sum_list (λ b, mat_rows (tb_active_into b u))). }
  assert (active_inv B u nr 0
            (mkMatrix nr (mat_cols u) (replicate (nr * mat_cols u) 0), 0, 0%nat))
    as Hinit.
  { unfold active_inv, mat_wf. simpl. split_and!; try done.
    - by rewrite length_replicate.
    - intros; lia.
    - intros _ r c Hr. unfold row_offset in Hr. simpl in Hr. lia. }
  split; [apply size_sum|]. split.
  { intros Hd Hcols. unfold active_into. rewrite bool_decide_eq_true_2 by done. simpl.
    fold nr. rewrite Hnr in Hinit |- *.
    destruct (active_loop_completes B u (basisContainer B) Hcols [] _ eq_refl Hinit)
      as [st' ->]. simpl. eauto. }
  intros R Hrun. unfold active_into in Hrun.
  apply bind_Ok in Hrun as (chk & _ & Hrun).
  apply bind_Ok in Hrun as (st & Hloop & Hrun). injection Hrun as <-.
  fold nr in Hloop.
  pose proof (active_inv_loop B u nr (basisContainer B) [] _ _ eq_refl Hinit Hloop)
    as (_ & _ & Hwf & Hrows & Hcols & Hin & Hall).
  split_and!.
  - congruence.
  - done.
  - intros i b r c x Hi Hx. split; [|lia].
    apply (Hin i b r c x); [by eapply lookup_lt_Some|done..].
  - intros Hsub r c y Hy.
    pose proof (entry_Some_lt _ _ _ _ Hy) as [Hr Hc].
    destruct (Hall (λ b Hb, proj1 (proj2 (Hsub b Hb))) r c ltac:(lia) ltac:(lia))
      as (i & b & x & Hi & Hb & Hle & Hx & HR).
    rewrite Hy in HR. injection HR as ->.
    assert (b ∈ basisContainer B) as Hbin by (by eapply list_elem_of_lookup_2).
    destruct (Hsub b Hbin) as (Hnn & _ & Hrange).
    pose proof (proj1 (list.Forall_forall _ _) Hrange x (entry_in_data _ _ _ _ Hx))
      as Hxr.
    pose proof (entry_Some_lt _ _ _ _ Hx) as [Hxrow _].
    pose proof (row_offset_S _ u _ _ Hb) as HrS.
    pose proof (offset_S _ _ _ Hb) as HoS.
    assert (∀ b', b' ∈ basisContainer B → 0 ≤ tb_size b') as Hsizes
      by (intros b' Hb'; apply (Hsub b' Hb')).
    pose proof (offset_mono B 0 i Hsizes ltac:(lia)) as Hlow.
    pose proof (offset_mono B (S i) (length (basisContainer B)) Hsizes
                  ltac:(apply lookup_lt_Some in Hb; lia)) as Hhigh.
    rewrite offset_all in Hhigh. change (offset B 0) with 0 in Hlow.
    simpl in Hxr. split; [exists i, b; split_and!; [done|lia..]|lia].
Qed.

End ContainerFacts.

(** The container on the worked points: the rows of both subspaces, the
    second shifted by the size 4 of the first. *)
Example active_into_demo :
  active_into demo_container demo_points
  = Ok (mkMatrix 5 2 [1; 2; 4; 8; 12; 1; 2; 4; 8; 12]).
Proof. vm_compute. reflexivity. Qed.

Lemma container_active_into_witness :
  let R := value (active_into demo_container demo_points) mat_empty in
  size demo_container = 4 + (9 + 0)
  ∧ (∃ R1, active_into demo_container demo_points = Ok R1)
  ∧ mat_rows R = 5%nat ∧ mat_cols R = 2%nat
  ∧ entry R 3 1 = Some (4 + 4)
  ∧ (∀ r c y, entry R r c = Some y → 0 ≤ y < 13).
Proof.
  intros R.
  assert (∀ b, b ∈ basisContainer demo_container →
               mat_cols (tb_active_into b demo_points) = mat_cols demo_points
               ∧ subspace_ok demo_points b) as Hsub.
  { intros b Hb. unfold demo_container in Hb. simpl in Hb.
    apply elem_of_cons in Hb as [->|Hb];
      [|apply elem_of_cons in Hb as [->|Hb]; [|by apply elem_of_nil in Hb]].
    - split; [reflexivity|]. unfold subspace_ok.
      split_and!; [done|reflexivity|]. simpl. repeat constructor; lia.
    - split; [reflexivity|]. unfold subspace_ok.
      split_and!; [done|reflexivity|]. simpl. repeat constructor; lia. }
  destruct (container_active_into demo_container demo_points)
    as (Hsize & Hcompletes & Hresult).
  destruct (Hresult R) as (Hrows & Hcols & Hblock & Hall); [vm_compute; reflexivity|].
  split_and!.
  - exact Hsize.
  - apply Hcompletes; [reflexivity|]. intros b Hb. apply (Hsub b Hb).
  - exact Hrows.
  - exact Hcols.
  - apply (Hblock 1%nat (mkTensorBasis 9
             (λ u, mkMatrix 3 (mat_cols u) (seq 0 (mat_cols u) ≫= λ _, [0; 4; 8]))
             (λ _, 2)) 1%nat 1%nat 4); reflexivity.
  - intros r c y Hy. apply Hall in Hy as [_ Hy]; [exact Hy|].
    intros b Hb. apply (Hsub b Hb).
Defined.

(** ** Registration and lookup of spaces *)

Section LookupFacts.
Context {T : Type} `{Scalar T}.

(** Sizing a system changes the shifts of the mappers and nothing else of
    the registry. *)
Lemma resetDimensions_registry (a a' : gsExprAssembler (T:=T)) :
  registry_wf a → resetDimensions a = Ok a' →
  m_vrow a' = m_vrow a ∧ m_vcol a' = m_vcol a
  ∧ length (m_sdata a') = length (m_sdata a)
  ∧ ∀ p d', m_sdata a' !! p = Some d' →
            ∃ d0, m_sdata a !! p = Some d0 ∧ same_but_shift d0 d'.
Proof.
  intros [W _] Hrun.
  destruct (resetDimensions_slots _ _ Hrun) as (Hr & Hc & _).
  destruct (resetDimensions_post _ _ W Hrun) as (_ & Hlen & _ & Hsame).
  done.
Qed.

Lemma initMatrix_registry (a a' : gsExprAssembler (T:=T)) :
  registry_wf a → initMatrix a = Ok a' →
  m_vrow a' = m_vrow a ∧ m_vcol a' = m_vcol a
  ∧ length (m_sdata a') = length (m_sdata a)
  ∧ ∀ p d', m_sdata a' !! p = Some d' →
            ∃ d0, m_sdata a !! p = Some d0 ∧ same_but_shift d0 d'.
Proof.
  intros W Hrun. unfold initMatrix in Hrun. inv_ok Hrun.
  pose proof (resetDimensions_registry _ _ W Hrun0) as Hreg.
  destruct (decide _) in Hrun.
  - injection Hrun as <-. exact Hreg.
  - inv_ok Hrun. subst a'. exact Hreg.
Qed.

Lemma initVector_registry n (a a' : gsExprAssembler (T:=T)) :
  registry_wf a → initVector n a = Ok a' →
  m_vrow a' = m_vrow a ∧ m_vcol a' = m_vcol a
  ∧ length (m_sdata a') = length (m_sdata a)
  ∧ ∀ p d', m_sdata a' !! p = Some d' →
            ∃ d0, m_sdata a !! p = Some d0 ∧ same_but_shift d0 d'.
Proof.
  intros W Hrun. unfold initVector in Hrun. inv_ok Hrun. subst a'.
  exact (resetDimensions_registry _ _ W Hrun0).
Qed.

Lemma initSystem_registry (a a' : gsExprAssembler (T:=T)) :
  registry_wf a → initSystem a = Ok a' →
  m_vrow a' = m_vrow a ∧ m_vcol a' = m_vcol a
  ∧ length (m_sdata a') = length (m_sdata a)
  ∧ ∀ p d', m_sdata a' !! p = Some d' →
            ∃ d0, m_sdata a !! p = Some d0 ∧ same_but_shift d0 d'.
Proof.
  intros W Hrun. unfold initSystem in Hrun. inv_ok Hrun. subst a'.
  exact (initMatrix_registry _ _ W Hrun0).
Qed.

Lemma same_but_shift_id (d1 d2 : gsFeSpaceData (T:=T)) :
  same_but_shift d1 d2 → id d2 = id d1 ∧ fs d2 = fs d1.
Proof. intros ->. done. Qed.

(** The space data behind a slot carries the number of the slot as its
    block id. *)
Lemma reachable_slot_id (a : gsExprAssembler (T:=T)) :
  reachable a →
  ∀ i p sd, m_vcol a !! i = Some (Some p) ∨ m_vrow a !! i = Some (Some p) →
            m_sdata a !! p = Some sd → id sd = Z.of_nat i.
Proof.
  revert a.
  assert (∀ a a' : gsExprAssembler (T:=T),
    (∀ i p sd, m_vcol a !! i = Some (Some p) ∨ m_vrow a !! i = Some (Some p) →
               m_sdata a !! p = Some sd → id sd = Z.of_nat i) →
    (m_vrow a' = m_vrow a ∧ m_vcol a' = m_vcol a
     ∧ length (m_sdata a') = length (m_sdata a)
     ∧ ∀ p d', m_sdata a' !! p = Some d' →
               ∃ d0, m_sdata a !! p = Some d0 ∧ same_but_shift d0 d') →
    ∀ i p sd, m_vcol a' !! i = Some (Some p) ∨ m_vrow a' !! i = Some (Some p) →
              m_sdata a' !! p = Some sd → id sd = Z.of_nat i) as Hkeep.
  { intros a a' IH (Hr & Hc & _ & Hsame) i p sd Hslot Hp.
    rewrite Hr, Hc in Hslot. destruct (Hsame _ _ Hp) as (d0 & Hd0 & Hs).
    destruct (same_but_shift_id _ _ Hs) as [-> _]. by eapply IH. }
  intros a0. induction 1 as [opts mb r c|a a' mp dim0 id0 Hreach IH Hget
                  |a a' uid udim mp dim0 Hreach IH Hget
                  |a p m fixed Hreach IH|a a' Hreach IH Hrun|a a' n Hreach IH Hrun
                  |a a' Hreach IH Hrun].
  - intros i p sd [Hs|Hs]; simpl in Hs; apply lookup_replicate in Hs as [? _]; done.
  - pose proof (reachable_registry_wf _ Hreach) as [_ Wlt].
    unfold getSpace in Hget.
    destruct (bool_decide_reflect (1 = targetDim mp)); simpl in Hget; [|done].
    destruct (bool_decide_reflect (0 ≤ id0 ∧ (Z.to_nat id0 < length (m_vrow a))%nat))
      as [[Hid0 Hlt]|]; simpl in Hget; [|done].
    destruct (vec_get (m_vcol a) (Z.to_nat id0)); simpl in Hget; [|done].
    injection Hget as <-. simpl. intros i p sd Hslot Hp.
    assert ((i = Z.to_nat id0 ∧ p = length (m_sdata a))
            ∨ (m_vcol a !! i = Some (Some p) ∨ m_vrow a !! i = Some (Some p)))
      as [[-> ->]|Hold].
    { destruct Hslot as [Hs|Hs]; apply insert_lookup_Some_inv in Hs as [[-> [= ->]]|[_ Hs]];
        auto. }
    + rewrite lookup_app_r, Nat.sub_diag in Hp by lia. injection Hp as <-. simpl. lia.
    + pose proof (Wlt _ _ Hold). rewrite lookup_app_l in Hp by done. by eapply IH.
  - pose proof (reachable_registry_wf _ Hreach) as [_ Wlt].
    unfold getTestSpace in Hget.
    destruct (decide (0 ≤ uid)) as [Huid|]; [|done].
    destruct (vec_get (m_vrow a) (Z.to_nat uid)); simpl in Hget; [|done].
    injection Hget as <-. simpl. intros i p sd Hslot Hp.
    assert ((i = Z.to_nat uid ∧ p = length (m_sdata a))
            ∨ (m_vcol a !! i = Some (Some p) ∨ m_vrow a !! i = Some (Some p)))
      as [[-> ->]|Hold].
    { destruct Hslot as [Hs|Hs]; [auto|].
      apply insert_lookup_Some_inv in Hs as [[-> [= ->]]|[_ Hs]]; auto. }
    + rewrite lookup_app_r, Nat.sub_diag in Hp by lia. injection Hp as <-. simpl. lia.
    + pose proof (Wlt _ _ Hold). rewrite lookup_app_l in Hp by done. by eapply IH.
  - unfold setup_space. destruct (m_sdata a !! p) as [d0|] eqn:Hd0; [|done].
    simpl. intros i q sd Hslot Hq.
    apply insert_lookup_Some_inv in Hq as [[-> ->]|[_ Hq]]; simpl; by eapply IH.
  - eapply Hkeep; [exact IH|]. eapply initMatrix_registry; [|done].
    by apply reachable_registry_wf.
  - eapply Hkeep; [exact IH|]. eapply initVector_registry; [|done].
    by apply reachable_registry_wf.
  - eapply Hkeep; [exact IH|]. eapply initSystem_registry; [|done].
    by apply reachable_registry_wf.
Qed.

End LookupFacts.

Section LookupTheorems.
Context {T : Type} `{Scalar T}.

Lemma deref_app_old (sd : list (gsFeSpaceData (T:=T))) x (p : option nat) :
  (∀ q, p = Some q → (q < length sd)%nat) → deref (sd ++ [x]) p = deref sd p.
Proof.
  intros Hlt. destruct p as [q|]; [|done]. simpl.
  rewrite lookup_app_l by auto. done.
Qed.

(** The lookup through either slot vector, for the two accessors at once. *)
Lemma lookup_slot (sd : list (gsFeSpaceData (T:=T))) (v : list (option nat)) (id0 : Z) :
  (∀ i p, v !! i = Some (Some p) → ∃ d0, sd !! p = Some d0 ∧ id d0 = Z.of_nat i) →
  0 ≤ id0 →
  (∀ p, v !! Z.to_nat id0 = Some (Some p) →
        ∃ d0, (p ← list_at v id0;
               GISMO_ASSERT (bool_decide (p ≠ None)) InvalidRegistration;;
               deref sd p) = Ok d0
              ∧ sd !! p = Some d0 ∧ id d0 = id0)
  ∧ (v !! Z.to_nat id0 = Some None →
     (p ← list_at v id0;
      GISMO_ASSERT (bool_decide (p ≠ None)) InvalidRegistration;;
      deref sd p) = Fatal InvalidRegistration)
  ∧ (v !! Z.to_nat id0 = None →
     (p ← list_at v id0;
      GISMO_ASSERT (bool_decide (p ≠ None)) InvalidRegistration;;
      deref sd p) = Fatal OutOfRange).
Proof.
  intros Hv Hid0. unfold list_at. rewrite decide_True by done. split_and!.
  - intros p Hp. rewrite Hp. simpl. destruct (Hv _ _ Hp) as (d0 & Hd0 & Hid).
    exists d0. rewrite Hd0. split_and!; [done..|]. lia.
  - intros ->. done.
  - intros ->. done.
Qed.

(** X1: on every assembler a program can build, looking a block up by its
    id returns the space data registered for it, which carries that id; a
    block that was never registered is refused as an invalid registration,
    and an id beyond the allocated blocks is outside the slot vector.  A
    registered slot never dangles. *)
Theorem space_lookup_by_block_id (a : gsExprAssembler (T:=T)) (id0 : Z) :
  reachable a → 0 ≤ id0 →
  ((∀ p, m_vcol a !! Z.to_nat id0 = Some (Some p) →
         ∃ sd, trialSpace id0 a = Ok sd ∧ m_sdata a !! p = Some sd ∧ id sd = id0)
   ∧ (m_vcol a !! Z.to_nat id0 = Some None →
      trialSpace id0 a = Fatal InvalidRegistration)
   ∧ (m_vcol a !! Z.to_nat id0 = None → trialSpace id0 a = Fatal OutOfRange))
  ∧ ((∀ p, m_vrow a !! Z.to_nat id0 = Some (Some p) →
           ∃ sd, testSpace id0 a = Ok sd ∧ m_sdata a !! p = Some sd ∧ id sd = id0)
     ∧ (m_vrow a !! Z.to_nat id0 = Some None →
        testSpace id0 a = Fatal InvalidRegistration)
     ∧ (m_vrow a !! Z.to_nat id0 = None → testSpace id0 a = Fatal OutOfRange)).
Proof.
  intros Hreach Hid0.
  pose proof (reachable_registry_wf _ Hreach) as [_ Wlt].
  pose proof (reachable_slot_id _ Hreach) as Hids.
  split; apply lookup_slot; try done.
  - intros i p Hp. destruct (lookup_lt_is_Some_2 (m_sdata a) p) as [d0 Hd0].
    { eapply Wlt. left. exact Hp. }
    exists d0. split; [done|]. eapply Hids; [left; exact Hp|done].
  - intros i p Hp. destruct (lookup_lt_is_Some_2 (m_sdata a) p) as [d0 Hd0].
    { eapply Wlt. right. exact Hp. }
    exists d0. split; [done|]. eapply Hids; [right; exact Hp|done].
Qed.

(** X2: registering a space with getSpace makes it the trial and the test
    space of its block, with the given dimension and a mapper that is not
    yet finalized; the lookups of every other block return what they
    returned before. *)
Theorem getSpace_then_lookup (a a' : gsExprAssembler (T:=T)) mp dim0 id0 :
  reachable a → getSpace mp dim0 id0 a = Ok a' →
  trialSpace id0 a' = Ok (mkSpaceData mp dim0 id0 default_mapper mat_empty)
  ∧ testSpace id0 a' = Ok (mkSpaceData mp dim0 id0 default_mapper mat_empty)
  ∧ ∀ k, k ≠ id0 → trialSpace k a' = trialSpace k a ∧ testSpace k a' = testSpace k a.
Proof.
  intros Hreach Hget.
  pose proof (reachable_registry_wf _ Hreach) as [_ Wlt].
  unfold getSpace in Hget.
  destruct (bool_decide_reflect (1 = targetDim mp)); simpl in Hget; [|done].
  destruct (bool_decide_reflect (0 ≤ id0 ∧ (Z.to_nat id0 < length (m_vrow a))%nat))
    as [[Hid0 Hlt]|]; simpl in Hget; [|done].
  destruct (vec_get (m_vcol a) (Z.to_nat id0)) as [c0|] eqn:Hc0; simpl in Hget; [|done].
  injection Hget as <-.
  assert (Z.to_nat id0 < length (m_vcol a))%nat as Hltc.
  { unfold vec_get in Hc0. destruct (m_vcol a !! Z.to_nat id0) eqn:Hl; [|done].
    eapply lookup_lt_Some. exact Hl. }
  unfold trialSpace, testSpace, list_at. simpl. split_and!.
  - rewrite decide_True by done. rewrite list_lookup_insert_eq by done. simpl.
    by rewrite lookup_app_r, Nat.sub_diag by lia.
  - rewrite decide_True by done. rewrite list_lookup_insert_eq by done. simpl.
    by rewrite lookup_app_r, Nat.sub_diag by lia.
  - intros k Hk. destruct (decide (0 ≤ k)); [|done].
    rewrite !list_lookup_insert_ne by lia.
    split.
    + destruct (m_vcol a !! Z.to_nat k) as [p|] eqn:Hp; simpl; [|done].
      destruct (GISMO_ASSERT _ _); simpl; [|done].
      apply deref_app_old. intros q ->. eapply Wlt. left. exact Hp.
    + destruct (m_vrow a !! Z.to_nat k) as [p|] eqn:Hp; simpl; [|done].
      destruct (GISMO_ASSERT _ _); simpl; [|done].
      apply deref_app_old. intros q ->. eapply Wlt. right. exact Hp.
Qed.

(** X3: getTestSpace gives the block of the trial space a test space of its
    own, whose dimension is that of the trial space unless one is given;
    the trial space of every block and the test spaces of the other blocks
    stay as they were. *)
Theorem getTestSpace_then_lookup (a a' : gsExprAssembler (T:=T)) uid udim mp dim0 :
  reachable a → getTestSpace uid udim mp dim0 a = Ok a' →
  testSpace uid a'
  = Ok (mkSpaceData mp (if decide (-1 = dim0) then udim else dim0) uid
          default_mapper mat_empty)
  ∧ (∀ k, trialSpace k a' = trialSpace k a)
  ∧ (∀ k, k ≠ uid → testSpace k a' = testSpace k a).
Proof.
  intros Hreach Hget.
  pose proof (reachable_registry_wf _ Hreach) as [_ Wlt].
  unfold getTestSpace in Hget.
  destruct (decide (0 ≤ uid)) as [Huid|]; [|done].
  destruct (vec_get (m_vrow a) (Z.to_nat uid)) as [r0|] eqn:Hr0; simpl in Hget; [|done].
  injection Hget as <-.
  assert (Z.to_nat uid < length (m_vrow a))%nat as Hltr.
  { unfold vec_get in Hr0. destruct (m_vrow a !! Z.to_nat uid) eqn:Hl; [|done].
    eapply lookup_lt_Some. exact Hl. }
  unfold trialSpace, testSpace, list_at. simpl. split_and!.
  - destruct (decide (0 ≤ uid)) as [_|]; [|done].
    rewrite list_lookup_insert_eq by done. simpl.
    by rewrite lookup_app_r, Nat.sub_diag by lia.
  - intros k. destruct (decide (0 ≤ k)); [|done].
    destruct (m_vcol a !! Z.to_nat k) as [p|] eqn:Hp; simpl; [|done].
    destruct (GISMO_ASSERT _ _); simpl; [|done].
    apply deref_app_old. intros q ->. eapply Wlt. left. exact Hp.
  - intros k Hk. destruct (decide (0 ≤ k)); [|done].
    rewrite !list_lookup_insert_ne by lia.
    destruct (m_vrow a !! Z.to_nat k) as [p|] eqn:Hp; simpl; [|done].
    destruct (GISMO_ASSERT _ _); simpl; [|done].
    apply deref_app_old. intros q ->. eapply Wlt. right. exact Hp.
Qed.

End LookupTheorems.

(** *** Lookups on the worked configurations *)

(** Block 0 of [mixed_blocks] has the space data at position 0 as trial
    space and the one at position 2 as test space; both carry block id 0. *)
Lemma space_lookup_by_block_id_witness :
  (∃ sd, trialSpace 0 mixed_blocks = Ok sd ∧ m_sdata mixed_blocks !! 0%nat = Some sd
         ∧ id sd = 0)
  ∧ (∃ sd, testSpace 0 mixed_blocks = Ok sd ∧ m_sdata mixed_blocks !! 2%nat = Some sd
           ∧ id sd = 0).
Proof.
  destruct (space_lookup_by_block_id mixed_blocks 0 reachable_mixed_blocks)
    as [(Htrial & _) (Htest & _)]; [lia|].
  split.
  - apply Htrial. reflexivity.
  - apply Htest. reflexivity.
Defined.

Lemma getSpace_then_lookup_witness :
  trialSpace 1 two_blocks_2 = Ok (mkSpaceData scalar_source 1 1 default_mapper mat_empty)
  ∧ testSpace 1 two_blocks_2 = Ok (mkSpaceData scalar_source 1 1 default_mapper mat_empty)
  ∧ ∀ k, k ≠ 1 → trialSpace k two_blocks_2 = trialSpace k two_blocks_1
               ∧ testSpace k two_blocks_2 = testSpace k two_blocks_1.
Proof.
  apply (getSpace_then_lookup two_blocks_1 two_blocks_2 scalar_source 1 1).
  - eapply (reach_getSpace two_blocks_0 _ scalar_source 1 0); [|reflexivity].
    apply reach_new.
  - reflexivity.
Defined.

Lemma getTestSpace_then_lookup_witness :
  testSpace 0 two_blocks_3 = Ok (mkSpaceData scalar_source 1 0 default_mapper mat_empty)
  ∧ (∀ k, trialSpace k two_blocks_3 = trialSpace k two_blocks_2)
  ∧ (∀ k, k ≠ 0 → testSpace k two_blocks_3 = testSpace k two_blocks_2).
Proof.
  apply (getTestSpace_then_lookup two_blocks_2 two_blocks_3 0 1 scalar_source (-1)).
  - apply reachable_two_blocks_2.
  - reflexivity.
Defined.

(** ** Sizing the system *)

Section SizingFacts.
Context {T : Type} `{Scalar T}.

Lemma numDofs_ext (a b : gsExprAssembler (T:=T)) :
  m_vcol a = m_vcol b → m_sdata a = m_sdata b → numDofs a = numDofs b.
Proof. unfold numDofs. by intros -> ->. Qed.

Lemma numTestDofs_ext (a b : gsExprAssembler (T:=T)) :
  m_vrow a = m_vrow b → m_sdata a = m_sdata b → numTestDofs a = numTestDofs b.
Proof. unfold numTestDofs. by intros -> ->. Qed.

(** What initMatrix leaves, in terms of the assembler [a0] that
    resetDimensions produced on the way. *)
Lemma initMatrix_inv (a a1 : gsExprAssembler (T:=T)) :
  initMatrix a = Ok a1 →
  ∃ a0 nr nc,
    resetDimensions a = Ok a0 ∧ numTestDofs a0 = Ok nr ∧ numDofs a0 = Ok nc
    ∧ m_sdata a1 = m_sdata a0 ∧ m_vrow a1 = m_vrow a0 ∧ m_vcol a1 = m_vcol a0
    ∧ m_rhs a1 = m_rhs a0 ∧ m_options a1 = m_options a0
    ∧ m_exprdata a1 = m_exprdata a0
    ∧ sm_rows (m_matrix a1) = nr ∧ sm_cols (m_matrix a1) = nc
    ∧ sm_coeffs (m_matrix a1) = ∅
    ∧ (if decide (0 = nr ∨ 0 = nc)
       then sm_reserved (m_matrix a1) = None ∧ m_warnings a1 = S (m_warnings a0)
       else is_Some (sm_reserved (m_matrix a1)) ∧ m_warnings a1 = m_warnings a0).
Proof.
  intros Hrun. unfold initMatrix in Hrun.
  destruct (resetDimensions a) as [a0|] eqn:Ha0; simpl in Hrun; [|done].
  destruct (numTestDofs a0) as [nr|] eqn:Hnr; simpl in Hrun; [|done].
  destruct (numDofs a0) as [nc|] eqn:Hnc; simpl in Hrun; [|done].
  exists a0, nr, nc. destruct (decide (0 = nr ∨ 0 = nc)) as [Hz|Hnz].
  - injection Hrun as <-. simpl. split_and!; done.
  - destruct (nz_estimate _ _) as [nz|]; simpl in Hrun; [|done].
    destruct (numBlocks _) as [nb|]; simpl in Hrun; [|done].
    injection Hrun as <-. simpl. split_and!; done.
Qed.

Lemma initMatrix_then_resetDimensions (a a1 : gsExprAssembler (T:=T)) :
  registry_wf a → initMatrix a = Ok a1 → resetDimensions a1 = Ok a1.
Proof.
  intros [W _] Hrun.
  destruct (initMatrix_inv _ _ Hrun)
    as (a0 & nr & nc & Ha0 & _ & _ & Hsd & Hvr & Hvc & _).
  destruct (resetDimensions_post _ _ W Ha0) as (_ & _ & Hfix & _).
  destruct (resetDimensions_slots _ _ Ha0) as (Hr & Hc & _).
  apply resetDimensions_fixed.
  - rewrite Hvc, Hc. unfold resetDimensions in Ha0. intros Hnil. rewrite Hnil in Ha0.
    discriminate.
  - rewrite Hvr, Hvc, Hsd, Hr, Hc. done.
Qed.

(** X4: initMatrix sizes the matrix to the numbers of test and trial
    degrees of freedom, as they are queried afterwards, stores no
    coefficient and leaves the right-hand side alone.  A system without
    rows or without columns is not an error: it gets a warning and no
    reservation; any other system gets a reservation and no warning. *)
Theorem initMatrix_sizes_system (a a' : gsExprAssembler (T:=T)) :
  initMatrix a = Ok a' →
  numTestDofs a' = Ok (sm_rows (m_matrix a'))
  ∧ numDofs a' = Ok (sm_cols (m_matrix a'))
  ∧ sm_coeffs (m_matrix a') = ∅
  ∧ m_rhs a' = m_rhs a
  ∧ (sm_rows (m_matrix a') = 0 ∨ sm_cols (m_matrix a') = 0 →
     sm_reserved (m_matrix a') = None ∧ m_warnings a' = S (m_warnings a))
  ∧ (sm_rows (m_matrix a') ≠ 0 → sm_cols (m_matrix a') ≠ 0 →
     is_Some (sm_reserved (m_matrix a')) ∧ m_warnings a' = m_warnings a).
Proof.
  intros Hrun.
  destruct (initMatrix_inv _ _ Hrun)
    as (a0 & nr & nc & Ha0 & Hnr & Hnc & Hsd & Hvr & Hvc & Hrhs & _ & _
        & Hrows & Hcols & Hcoeffs & Hcase).
  destruct (resetDimensions_slots _ _ Ha0) as (_ & _ & _ & _ & _ & Hrhs0).
  assert (m_warnings a0 = m_warnings a) as Hw.
  { unfold resetDimensions in Ha0. destruct (length (m_vcol a)); [done|].
    destruct (for_each _ _ _); simpl in Ha0; [|done]. by injection Ha0 as <-. }
  split_and!.
  - rewrite (numTestDofs_ext a' a0), Hrows; done.
  - rewrite (numDofs_ext a' a0), Hcols; done.
  - done.
  - congruence.
  - intros Hz. destruct (decide (0 = nr ∨ 0 = nc)) as [_|Hn]; [|exfalso; lia].
    rewrite <- Hw. done.
  - intros Hr Hc. destruct (decide (0 = nr ∨ 0 = nc)) as [Hz|_]; [exfalso; lia|].
    rewrite <- Hw. done.
Qed.

(** X5: after initSystem the assertion that guards every assembly,
    [matrix().cols() == numDofs()], holds, and the right-hand side is one
    column of zeros with one row for each column of the matrix. *)
Theorem initSystem_ready_to_assemble (a a' : gsExprAssembler (T:=T)) :
  initSystem a = Ok a' →
  assert_initialized a' = Ok tt
  ∧ m_rhs a' = mat_zero s_zero (sm_cols (m_matrix a')) 1
  ∧ rows (m_rhs a') = Z.max 0 (sm_cols (m_matrix a'))
  ∧ (∀ k x, mat_at (m_rhs a') k = Ok x → x = s_zero)
  ∧ sm_coeffs (m_matrix a') = ∅.
Proof.
  intros Hrun. unfold initSystem in Hrun.
  destruct (initMatrix a) as [a1|] eqn:Ha1; simpl in Hrun; [|done].
  destruct (numDofs a1) as [n|] eqn:Hn; simpl in Hrun; [|done].
  injection Hrun as <-.
  destruct (initMatrix_inv _ _ Ha1)
    as (a0 & nr & nc & Ha0 & Hnr & Hnc & Hsd & Hvr & Hvc & Hrhs & _ & _
        & Hrows & Hcols & Hcoeffs & _).
  assert (n = nc) as ->.
  { rewrite (numDofs_ext a1 a0) in Hn by done. congruence. }
  simpl. split_and!.
  - unfold assert_initialized.
    rewrite (numDofs_ext _ a1) by done. rewrite Hn. simpl.
    rewrite Hcols. by rewrite bool_decide_eq_true_2.
  - by rewrite Hcols.
  - unfold rows. simpl. lia.
  - intros k x Hk. apply list_at_Ok in Hk as [_ Hk]. simpl in Hk.
    apply lookup_replicate in Hk as [-> _]. done.
  - done.
Qed.

(** X6: on an assembler a program can build, initSystem does what
    initMatrix followed by initVector with one right-hand side does; the
    second run of resetDimensions inside initVector finds every shift where
    the first one put it. *)
Theorem initSystem_is_initMatrix_then_initVector (a : gsExprAssembler (T:=T)) :
  reachable a →
  initSystem a = (a1 ← initMatrix a; initVector 1 a1).
Proof.
  intros Hreach. pose proof (reachable_registry_wf _ Hreach) as W.
  unfold initSystem. destruct (initMatrix a) as [a1|e] eqn:Ha1; simpl; [|done].
  unfold initVector. rewrite (initMatrix_then_resetDimensions _ _ W Ha1). done.
Qed.

End SizingFacts.

(** *** Sizing the worked configurations *)

(** The fully constrained block gives a 0 x 0 system, one warning and no
    reservation. *)
Lemma initMatrix_sizes_system_witness :
  let a' := value (initMatrix constrained_block) constrained_block in
  numTestDofs a' = Ok 0 ∧ numDofs a' = Ok 0
  ∧ sm_reserved (m_matrix a') = None ∧ m_warnings a' = 1%nat.
Proof.
  intros a'.
  destruct (initMatrix_sizes_system constrained_block a')
    as (Hr & Hc & _ & _ & Hzero & _); [vm_compute; reflexivity|].
  destruct Hzero as [Hres Hwarn]; [left; reflexivity|].
  split_and!; [exact Hr|exact Hc|exact Hres|exact Hwarn].
Defined.

Lemma initSystem_ready_to_assemble_witness :
  let a' := value (initSystem single_block) single_block in
  assert_initialized a' = Ok tt
  ∧ m_rhs a' = mkMatrix 5 1 [0; 0; 0; 0; 0].
Proof.
  intros a'.
  destruct (initSystem_ready_to_assemble single_block a')
    as (Hready & Hrhs & _); [vm_compute; reflexivity|].
  split; [exact Hready|exact Hrhs].
Defined.

Lemma initSystem_is_initMatrix_then_initVector_witness :
  initSystem galerkin_blocks = (a1 ← initMatrix galerkin_blocks; initVector 1 a1).
Proof.
  apply initSystem_is_initMatrix_then_initVector, reachable_galerkin_blocks.
Defined.

(** ** What resetDimensions leaves alone *)

Section ShiftFacts.
Context {T : Type} `{Scalar T}.

(** The space data of block 0 is not written by any step of the loop. *)
Lemma resetDimensions_first_block (a a' : gsExprAssembler (T:=T)) :
  slots_wf (m_vrow a) (m_vcol a) → resetDimensions a = Ok a' →
  ∀ p, m_vcol a !! 0%nat = Some (Some p) ∨ m_vrow a !! 0%nat = Some (Some p) →
       m_sdata a' !! p = m_sdata a !! p.
Proof.
  intros W Hrun p Hp. unfold resetDimensions in Hrun.
  destruct (length (m_vcol a)) as [|n]; [done|].
  destruct (for_each _ _ _) as [sd|] eqn:Hloop; simpl in Hrun; [|done].
  injection Hrun as <-. simpl.
  apply (for_each_seq_ind (λ _ s, s !! p = m_sdata a !! p)
           (resetDimensions_step (m_vrow a) (m_vcol a)) n 1 (m_sdata a) sd);
    [|done|exact Hloop].
  intros k s1 s2 Hk Hs1 Hstep.
  destruct (resetDimensions_step_post _ _ _ _ _ W (proj1 Hk) Hstep)
    as (_ & _ & Hframe & _).
  rewrite Hframe; [done|..].
  - intros Hc. destruct Hp as [Hp|Hp].
    + pose proof (wf_cols _ _ W _ _ _ Hc Hp). lia.
    + pose proof (wf_cross _ _ W _ _ _ Hc Hp). lia.
  - intros Hr. destruct Hp as [Hp|Hp].
    + pose proof (wf_cross _ _ W _ _ _ Hp Hr). lia.
    + pose proof (wf_rows _ _ W _ _ _ Hr Hp). lia.
Qed.

(** X7: resetDimensions moves shifts and nothing else.  The slots, the
    matrix and the right-hand side stay; every space keeps its source, its
    dimension, its block id, its fixed values and the counts and the
    finalization of its mapper; and block 0 keeps its shift as well, so the
    numbering always starts where the first mapper was set up to start. *)
Theorem resetDimensions_moves_shifts_only (a a' : gsExprAssembler (T:=T)) :
  reachable a → resetDimensions a = Ok a' →
  m_vrow a' = m_vrow a ∧ m_vcol a' = m_vcol a
  ∧ m_matrix a' = m_matrix a ∧ m_rhs a' = m_rhs a
  ∧ length (m_sdata a') = length (m_sdata a)
  ∧ (∀ p sd', m_sdata a' !! p = Some sd' →
       ∃ sd, m_sdata a !! p = Some sd
             ∧ fs sd' = fs sd ∧ dim sd' = dim sd ∧ id sd' = id sd
             ∧ fixedDofs sd' = fixedDofs sd
             ∧ freeSize (mapper sd') = freeSize (mapper sd)
             ∧ coupledSize (mapper sd') = coupledSize (mapper sd)
             ∧ boundarySize (mapper sd') = boundarySize (mapper sd)
             ∧ isFinalized (mapper sd') = isFinalized (mapper sd))
  ∧ slot_data (m_sdata a') (m_vcol a') 0 = slot_data (m_sdata a) (m_vcol a) 0
  ∧ slot_data (m_sdata a') (m_vrow a') 0 = slot_data (m_sdata a) (m_vrow a) 0.
Proof.
  intros Hreach Hrun. pose proof (reachable_registry_wf _ Hreach) as W.
  destruct (resetDimensions_registry _ _ W Hrun) as (Hr & Hc & Hlen & Hsame).
  destruct (resetDimensions_slots _ _ Hrun) as (_ & _ & _ & _ & HM & Hrhs).
  destruct W as [W _].
  pose proof (resetDimensions_first_block _ _ W Hrun) as Hfirst.
  split_and!; try done.
  - intros p sd' Hp. destruct (Hsame _ _ Hp) as (sd & Hsd & Hs).
    exists sd. rewrite Hs. done.
  - rewrite Hc. unfold slot_data.
    destruct (m_vcol a !! 0%nat) as [[p|]|] eqn:Hp; simpl; [|done..].
    apply Hfirst. by left.
  - rewrite Hr. unfold slot_data.
    destruct (m_vrow a !! 0%nat) as [[p|]|] eqn:Hp; simpl; [|done..].
    apply Hfirst. by right.
Qed.

End ShiftFacts.

Lemma resetDimensions_moves_shifts_only_witness :
  let a' := value (resetDimensions mixed_blocks) mixed_blocks in
  m_vrow a' = m_vrow mixed_blocks ∧ m_vcol a' = m_vcol mixed_blocks
  ∧ slot_data (m_sdata a') (m_vcol a') 0
    = slot_data (m_sdata mixed_blocks) (m_vcol mixed_blocks) 0.
Proof.
  intros a'.
  destruct (resetDimensions_moves_shifts_only mixed_blocks a' reachable_mixed_blocks)
    as (Hr & Hc & _ & _ & _ & _ & Hfirst & _); [vm_compute; reflexivity|].
  split_and!; [exact Hr|exact Hc|exact Hfirst].
Defined.

(** ** The block view *)

Section BlockViewFacts.
Context {T : Type} `{Scalar T}.





End BlockViewFacts.

Section BlockViewTheorems.
Context {T : Type} `{Scalar T}.



End BlockViewTheorems.

(** *** Block views of the worked configurations *)



(** ** Fixed values *)

Section FixedDofFacts.
Context {T : Type} `{Scalar T}.

(** X10: setFixedDofVector moves the given values into the space data of
    the trial space of block [unk] and leaves the argument empty; it
    succeeds only with as many values as the mapper has eliminated indices.
    A test space that shares the space data sees the same values, the trial
    spaces of the other blocks are untouched, and the values are still in
    place, with the size the scatter asserts, after initSystem. *)
Theorem setFixedDofVector_installs (a a' : gsExprAssembler (T:=T)) vals vals' unk :
  reachable a → setFixedDofVector vals unk a = Ok (a', vals') →
  vals' = mat_empty
  ∧ reachable a'
  ∧ ∃ p sd',
      m_vcol a !! Z.to_nat unk = Some (Some p)
      ∧ trialSpace unk a' = Ok sd'
      ∧ fixedDofs sd' = vals
      ∧ boundarySize (mapper sd') = mat_size vals
      ∧ (∀ k, 0 ≤ k → m_vrow a !! Z.to_nat k = Some (Some p) → testSpace k a' = Ok sd')
      ∧ (∀ k, k ≠ unk → trialSpace k a' = trialSpace k a)
      ∧ (∀ a'', initSystem a' = Ok a'' →
           ∃ sd'', trialSpace unk a'' = Ok sd'' ∧ fixedDofs sd'' = vals
                   ∧ boundarySize (mapper sd'') = mat_size (fixedDofs sd'')).
Proof.
  intros Hreach Hrun.
  destruct (reachable_registry_wf _ Hreach) as [W Wlt].
  unfold setFixedDofVector in Hrun.
  destruct (list_at (m_vcol a) unk) as [p0|] eqn:Hp0; simpl in Hrun; [|done].
  apply list_at_Ok in Hp0 as [Hunk Hp0].
  destruct p0 as [p|]; [|done]. simpl in Hrun.
  destruct (m_sdata a !! p) as [sd|] eqn:Hsd; simpl in Hrun; [|done].
  destruct (bool_decide_reflect (mat_size vals = boundarySize (mapper sd))) as [Hsize|];
    simpl in Hrun; [|done].
  injection Hrun as <- <-.
  pose proof (lookup_lt_Some _ _ _ Hsd) as Hlt.
  set (sd' := mkSpaceData (fs sd) (dim sd) (id sd) (mapper sd) vals).
  assert (reachable (with_sdata (<[p:=sd']> (m_sdata a)) a)) as Hreach'.
  { replace (with_sdata (<[p:=sd']> (m_sdata a)) a)
      with (setup_space p (mapper sd) vals a); [by apply reach_setup|].
    unfold setup_space. by rewrite Hsd. }
  assert (trialSpace unk (with_sdata (<[p:=sd']> (m_sdata a)) a) = Ok sd') as Htrial.
  { unfold trialSpace, list_at. simpl. rewrite decide_True by done. rewrite Hp0. simpl.
    by rewrite list_lookup_insert_eq. }
  split_and!; [done..|]. exists p, sd'. split_and!; try done.
  - intros k Hk Hrow. unfold testSpace, list_at. simpl.
    rewrite decide_True by done. rewrite Hrow. simpl.
    by rewrite list_lookup_insert_eq.
  - intros k Hk. unfold trialSpace, list_at. simpl.
    destruct (decide (0 ≤ k)); [|done].
    destruct (m_vcol a !! Z.to_nat k) as [[q|]|] eqn:Hq; simpl; [|done..].
    rewrite list_lookup_insert_ne; [done|].
    intros <-. pose proof (wf_cols _ _ W _ _ _ Hp0 Hq). lia.
  - intros a'' Hinit.
    destruct (initSystem_registry _ _ (reachable_registry_wf _ Hreach') Hinit)
      as (_ & Hvc & Hlen & Hsame).
    simpl in Hvc, Hlen. rewrite length_insert in Hlen.
    destruct (lookup_lt_is_Some_2 (m_sdata a'') p) as [sd'' Hsd'']; [lia|].
    destruct (Hsame _ _ Hsd'') as (d0 & Hd0 & Hshift). simpl in Hd0.
    rewrite list_lookup_insert_eq in Hd0 by done. injection Hd0 as <-.
    destruct (same_but_shift_sizes _ _ Hshift) as (_ & _ & Hb & _ & Hf).
    exists sd''. split_and!.
    + unfold trialSpace, list_at. rewrite decide_True by done. rewrite Hvc, Hp0.
      simpl. by rewrite Hsd''.
    + by rewrite Hf.
    + rewrite Hf, Hb. simpl. done.
Qed.

End FixedDofFacts.

(** The block of [single_block] has two eliminated indices: two values are
    accepted. *)
Lemma setFixedDofVector_installs_witness :
  let r := value (setFixedDofVector (mkMatrix 2 1 [3; 4]) 0 single_block)
             (single_block, mat_empty) in
  r.2 = mat_empty
  ∧ ∃ sd', trialSpace 0 r.1 = Ok sd' ∧ fixedDofs sd' = mkMatrix 2 1 [3; 4].
Proof.
  intros r.
  destruct (setFixedDofVector_installs single_block r.1 (mkMatrix 2 1 [3; 4]) r.2 0
              reachable_single_block)
    as (Hvals & _ & p & sd' & _ & Htrial & Hfixed & _); [vm_compute; reflexivity|].
  split; [exact Hvals|]. exists sd'. split; [exact Htrial|exact Hfixed].
Defined.

(** ** What a traversal changes and what it records *)

Section TraceFacts.
Context {T : Type} `{Scalar T} {Element QuRule : Type}.
Variable getPtr : Z → gsOptionList (T:=T) → option Z → QuRule.
Variable mapTo : QuRule → Element → gsMatrix T * list T.
Variable makeDomainIterator : Z → option Z → list Element.

Lemma for_each_preserves {A S X} (f : S → X) (body : A → S → result S) l s s' :
  (∀ x s1 s2, x ∈ l → body x s1 = Ok s2 → f s2 = f s1) →
  for_each l body s = Ok s' → f s' = f s.
Proof.
  revert s. induction l as [|x l IH]; intros s Hbody Hrun; simpl in Hrun.
  - by injection Hrun as <-.
  - destruct (body x s) as [s1|] eqn:Hs1; simpl in Hrun; [|done].
    rewrite (IH s1); [|intros y t1 t2 Hy; apply Hbody; by right|done].
    eapply Hbody; [by left|done].
Qed.

(** A loop whose body appends to a log appends the logs of its rounds. *)
Lemma for_each_log {A S C} (log : S → list C) (out : A → list C)
  (body : A → S → result S) l s s' :
  (∀ x s1 s2, x ∈ l → body x s1 = Ok s2 → log s2 = log s1 ++ out x) →
  for_each l body s = Ok s' → log s' = log s ++ (l ≫= out).
Proof.
  revert s. induction l as [|x l IH]; intros s Hbody Hrun; simpl in Hrun.
  - injection Hrun as <-. simpl. by rewrite app_nil_r.
  - destruct (body x s) as [s1|] eqn:Hs1; simpl in Hrun; [|done].
    rewrite (IH s1); [|intros y t1 t2 Hy; apply Hbody; by right|done].
    rewrite (Hbody x s s1); [|by left|done].
    by rewrite <- app_assoc.
Qed.

Lemma effect_system_shape op mt rt (ev ev' : _eval (T:=T)) :
  effect op mt rt ev ev' →
  system_shape ev' = system_shape ev ∧ m_patchInd ev' = m_patchInd ev.
Proof. intros []. unfold system_shape. split; congruence. Qed.

Lemma push_system_shape isM (v u : gsFeSpace (T:=T)) patchInd (ev ev' : _eval (T:=T)) :
  push isM v u patchInd ev = Ok ev' →
  system_shape ev' = system_shape ev ∧ m_patchInd ev' = m_patchInd ev.
Proof.
  destruct isM; intros Hrun.
  - eapply effect_system_shape, push_matrix_effect, Hrun.
  - eapply effect_system_shape, push_vector_effect, Hrun.
Qed.

(** The weighted sum of [eval_expr] logs one evaluation per further point
    and leaves the functor alone. *)
Lemma weighted_sum_post ctx (w : list T) (e : gsExpr (T:=T)) l
  (M M' : gsMatrix T) (st st' : gsTraversal (T:=T)) :
  for_each l
    (λ k '(M, st),
       wk ← list_at w (Z.of_nat k);
       M' ← mat_add M (mat_scale wk (eval e ctx (Z.of_nat k)));
       Ok (M', log_call (CallEval (Z.of_nat k)) st))
    (M, st) = Ok (M', st') →
  tr_calls st' = tr_calls st ++ (CallEval <$> (Z.of_nat <$> l))
  ∧ tr_eval st' = tr_eval st.
Proof.
  revert M st. induction l as [|k l IH]; intros M st Hrun; simpl in Hrun.
  - injection Hrun as <- <-. simpl. by rewrite app_nil_r.
  - destruct (list_at w (Z.of_nat k)) as [wk|]; simpl in Hrun; [|done].
    destruct (mat_add _ _) as [M1|]; simpl in Hrun; [|done].
    apply IH in Hrun as [-> ->]. simpl. by rewrite <- app_assoc.
Qed.

Lemma eval_expr_post ctx (w : list T) (e : gsExpr (T:=T)) st st' :
  eval_expr ctx w e st = Ok st' →
  tr_calls st' = tr_calls st ++ expr_calls w e
  ∧ system_shape (tr_eval st') = system_shape (tr_eval st)
  ∧ m_patchInd (tr_eval st') = m_patchInd (tr_eval st).
Proof.
  unfold eval_expr, expr_calls. intros Hrun.
  destruct (isNull e).
  { injection Hrun as <-. by rewrite app_nil_r. }
  destruct (list_at w 0) as [w0|] eqn:Hw0; simpl in Hrun; [|done].
  apply list_at_Ok in Hw0 as [_ Hw0]. apply lookup_lt_Some in Hw0. simpl in Hw0.
  destruct (for_each _ _ _) as [[M st1]|] eqn:Hloop; simpl in Hrun; [|done].
  apply weighted_sum_post in Hloop as [Hcalls Hev]. simpl in Hcalls.
  assert (tr_calls st1 = tr_calls st ++ (CallEval <$> upto (length w))) as Hlog.
  { rewrite Hcalls, <- app_assoc. f_equal. unfold upto.
    destruct (length w) as [|n]; [lia|]. simpl. by rewrite Nat.sub_0_r. }
  assert (∀ isM ev', push isM (rowVar e ctx) (colVar e ctx)
                       (m_patchInd (with_localMat M (tr_eval st1)))
                       (with_localMat M (tr_eval st1)) = Ok ev' →
                     system_shape ev' = system_shape (tr_eval st)
                     ∧ m_patchInd ev' = m_patchInd (tr_eval st)) as Hpush.
  { intros isM ev' Hp. apply push_system_shape in Hp as [-> ->]. simpl in Hev.
    rewrite <- Hev. done. }
  destruct (isMatrix e); [|destruct (isVector e); [|done]].
  - destruct (push true _ _ _ _) as [ev'|] eqn:Hp; simpl in Hrun; [|done].
    injection Hrun as <-. simpl. destruct (Hpush _ _ Hp). done.
  - destruct (push false _ _ _ _) as [ev'|] eqn:Hp; simpl in Hrun; [|done].
    injection Hrun as <-. simpl. destruct (Hpush _ _ Hp). done.
Qed.

Lemma op_tuple_post ctx (w : list T) (args : list (gsExpr (T:=T))) st st' :
  op_tuple ctx w args st = Ok st' →
  tr_calls st' = tr_calls st ++ (args ≫= expr_calls w)
  ∧ system_shape (tr_eval st') = system_shape (tr_eval st)
  ∧ m_patchInd (tr_eval st') = m_patchInd (tr_eval st).
Proof.
  unfold op_tuple. intros Hrun. split_and!.
  - eapply for_each_log; [|exact Hrun]. intros e s1 s2 _ He.
    by apply eval_expr_post in He as [-> _].
  - eapply (for_each_preserves (λ st, system_shape (tr_eval st))); [|exact Hrun].
    intros e s1 s2 _ He. by apply eval_expr_post in He as (_ & -> & _).
  - eapply (for_each_preserves (λ st, m_patchInd (tr_eval st))); [|exact Hrun].
    intros e s1 s2 _ He. by apply eval_expr_post in He as (_ & _ & ->).
Qed.

End TraceFacts.

Section TraversalTheorems.
Context {T : Type} `{Scalar T} {Element QuRule : Type}.
Variable getPtr : Z → gsOptionList (T:=T) → option Z → QuRule.
Variable mapTo : QuRule → Element → gsMatrix T * list T.
Variable makeDomainIterator : Z → option Z → list Element.


Lemma assemble_bc_element_post (args : list (gsExpr (T:=T))) bc rule el st st' :
  assemble_bc_element mapTo args bc rule el st = Ok st' →
  system_shape (tr_eval st') = system_shape (tr_eval st)
  ∧ m_patchInd (tr_eval st') = m_patchInd (tr_eval st).
Proof.
  unfold assemble_bc_element. destruct (mapTo rule el) as [points w].
  destruct (decide (cols points = 0)).
  - by intros [= <-].
  - intros (_ & Hs & Hp)%op_tuple_post. done.
Qed.

Lemma assembleLhsRhsBc_element_post (arg_lhs arg_rhs : gsExpr (T:=T)) bc rule el st st' :
  assembleLhsRhsBc_element mapTo arg_lhs arg_rhs bc rule el st = Ok st' →
  system_shape (tr_eval st') = system_shape (tr_eval st)
  ∧ (cols (mapTo rule el).1 ≠ 0 → m_patchInd (tr_eval st') = bc_patch bc).
Proof.
  unfold assembleLhsRhsBc_element. destruct (mapTo rule el) as [points w].
  simpl. destruct (decide (cols points = 0)).
  - by intros [= <-].
  - intros Hrun.
    destruct (eval_expr _ w arg_lhs _) as [st3|] eqn:H3; simpl in Hrun; [|done].
    apply eval_expr_post in H3 as (_ & Hs3 & Hp3).
    apply eval_expr_post in Hrun as (_ & Hs & Hp).
    split; [by rewrite Hs, Hs3|]. intros _. by rewrite Hp, Hp3.
Qed.

Lemma assembleInterface_element_post (arg_lhs arg_rhs : gsExpr (T:=T)) iFace rule el
  st st' :
  assembleInterface_element mapTo arg_lhs arg_rhs iFace rule el st = Ok st' →
  system_shape (tr_eval st') = system_shape (tr_eval st)
  ∧ (cols (mapTo rule el).1 ≠ 0 → m_patchInd (tr_eval st') = first_patch iFace).
Proof.
  unfold assembleInterface_element. destruct (mapTo rule el) as [points w].
  simpl. destruct (decide (cols points = 0)).
  - by intros [= <-].
  - intros Hrun.
    destruct (eval_expr _ w arg_lhs _) as [st3|] eqn:H3; simpl in Hrun; [|done].
    apply eval_expr_post in H3 as (_ & Hs3 & Hp3).
    apply eval_expr_post in Hrun as (_ & Hs & Hp).
    split; [by rewrite Hs, Hs3|]. intros _. by rewrite Hp, Hp3.
Qed.


End TraversalTheorems.

Section AssemblyPassTheorems.
Context {T : Type} `{Scalar T} {Element QuRule : Type}.
Variable getPtr : Z → gsOptionList (T:=T) → option Z → QuRule.
Variable mapTo : QuRule → Element → gsMatrix T * list T.
Variable makeDomainIterator : Z → option Z → list Element.



(** X13: giveMatrix hands the matrix out and leaves a 0 x 0 matrix without
    entries in the assembler, the right-hand side and the registry where
    they are.  With a system that has degrees of freedom the volume and the
    boundary assembly then refuse to run until the matrix is sized again,
    and initMatrix sizes it again. *)
Theorem giveMatrix_moves_matrix_out (args : list (gsExpr (T:=T))) BCs
  (a : gsExprAssembler (T:=T)) n :
  numDofs a = Ok n → n ≠ 0 →
  (giveMatrix a).1 = m_matrix a
  ∧ m_matrix (giveMatrix a).2 = sparse_new 0 0
  ∧ m_rhs (giveMatrix a).2 = m_rhs a
  ∧ m_sdata (giveMatrix a).2 = m_sdata a
  ∧ numDofs (giveMatrix a).2 = Ok n
  ∧ assemble getPtr mapTo makeDomainIterator args (giveMatrix a).2
    = Fatal SystemNotInitialized
  ∧ assemble_bc getPtr mapTo makeDomainIterator BCs args (giveMatrix a).2
    = Fatal SystemNotInitialized
  ∧ (∀ a', initMatrix (giveMatrix a).2 = Ok a' → assert_initialized a' = Ok tt).
Proof.
  intros Hn Hnz.
  assert (numDofs (giveMatrix a).2 = Ok n) as Hn' by (by rewrite <- Hn).
  assert (assert_initialized (giveMatrix a).2 = Fatal SystemNotInitialized) as Hguard.
  { unfold assert_initialized. rewrite Hn'. simpl.
    rewrite bool_decide_eq_false_2 by lia. done. }
  split_and!; try done.
  - unfold assemble. by rewrite Hguard.
  - unfold assemble_bc. by rewrite Hguard.
  - intros a' Hinit.
    destruct (initMatrix_inv _ _ Hinit)
      as (a0 & nr & nc & _ & _ & Hnc & Hsd & _ & Hvc & _ & _ & _ & _ & Hcols & _).
    unfold assert_initialized. rewrite (numDofs_ext a' a0), Hnc by done. simpl.
    by rewrite bool_decide_eq_true_2.
Qed.

(** X14: the boundary variant [assemble(BCs, ...)] never sets the patch of
    its functor: the scatter keeps the patch index 0 the functor starts
    with, whatever the patch of the boundary condition.  The variants
    assembleLhsRhsBc_impl and assembleInterface_impl set it to the patch of
    the boundary condition, or the first patch of the interface, on every
    element with points. *)
Theorem boundary_assembly_patch_index (args : list (gsExpr (T:=T)))
  (arg_lhs arg_rhs : gsExpr (T:=T)) (bc : boundary_condition)
  (iFace : boundaryInterface) (rule : QuRule) (el : Element)
  (BCs : list boundary_condition) (a : gsExprAssembler (T:=T)) :
  (∀ st, for_each BCs
           (λ bc st,
              for_each (makeDomainIterator (bc_patch bc) (Some (bc_side bc)))
                (assemble_bc_element mapTo args bc
                   (getPtr (bc_patch bc) (m_options a) (Some (bc_side bc)))) st)
           (enter a) = Ok st →
         m_patchInd (tr_eval st) = 0)
  ∧ (∀ st st', assemble_bc_element mapTo args bc rule el st = Ok st' →
               m_patchInd (tr_eval st') = m_patchInd (tr_eval st))
  ∧ (∀ st st', assembleLhsRhsBc_element mapTo arg_lhs arg_rhs bc rule el st = Ok st' →
               cols (mapTo rule el).1 ≠ 0 → m_patchInd (tr_eval st') = bc_patch bc)
  ∧ (∀ st st', assembleInterface_element mapTo arg_lhs arg_rhs iFace rule el st = Ok st' →
               cols (mapTo rule el).1 ≠ 0 → m_patchInd (tr_eval st') = first_patch iFace).
Proof.
  split_and!.
  - intros st Hloop.
    apply (for_each_preserves (λ st, m_patchInd (tr_eval st))) in Hloop; [done|].
    intros bc' s1 s2 _ Hbc.
    apply (for_each_preserves (λ st, m_patchInd (tr_eval st))) in Hbc; [done|].
    intros el' t1 t2 _ Hel. by apply assemble_bc_element_post in Hel as [_ ->].
  - intros st st' Hel. by apply assemble_bc_element_post in Hel as [_ ->].
  - intros st st' Hel. by apply assembleLhsRhsBc_element_post in Hel as [_ Hp].
  - intros st st' Hel. by apply assembleInterface_element_post in Hel as [_ Hp].
Qed.

End AssemblyPassTheorems.

(** *** Assembly passes on the worked configurations *)



Lemma giveMatrix_moves_matrix_out_witness :
  let a := value (initSystem single_block) single_block in
  sm_cols (giveMatrix a).1 = 5
  ∧ assemble demo_getPtr demo_mapTo demo_elements [constant_one] (giveMatrix a).2
    = Fatal SystemNotInitialized.
Proof.
  intros a.
  destruct (giveMatrix_moves_matrix_out demo_getPtr demo_mapTo demo_elements
              [constant_one] [] a 5)
    as (Hgiven & _ & _ & _ & _ & Hrefused & _); [vm_compute; reflexivity|lia|].
  split; [by rewrite Hgiven|exact Hrefused].
Defined.

(** A boundary condition on patch 1: the boundary variant scatters the
    constant 1 with the indices of patch 0, into row 0; assembleLhsRhsBc_impl
    scatters it with the indices of patch 1, into row 1. *)
Lemma boundary_assembly_patch_index_witness :
  let st1 := value (assemble_bc_element demo_mapTo [patch_one] (mkBc 1 1 0 false) tt
                      1%nat two_dof_traversal) two_dof_traversal in
  let st2 := value (assembleLhsRhsBc_element demo_mapTo null_expr patch_one
                      (mkBc 1 1 0 false) tt 1%nat two_dof_traversal)
               two_dof_traversal in
  (m_patchInd (tr_eval st1) = 0 ∧ ev_rhs (tr_eval st1) = mkMatrix 2 1 [1; 0])
  ∧ (m_patchInd (tr_eval st2) = 1 ∧ ev_rhs (tr_eval st2) = mkMatrix 2 1 [0; 1]).
Proof.
  intros st1 st2.
  destruct (boundary_assembly_patch_index demo_getPtr demo_mapTo demo_elements
              [patch_one] null_expr patch_one (mkBc 1 1 0 false) (mkInterface 0 1 1 2)
              tt 1%nat [] one_dof_system)
    as (_ & Hbc & Himpl & _).
  split; split.
  - apply (Hbc two_dof_traversal st1). vm_compute. reflexivity.
  - reflexivity.
  - apply (Himpl two_dof_traversal st2); [vm_compute; reflexivity|].
    vm_compute. discriminate.
  - reflexivity.
Defined.

(** ** Pushes that contribute nothing, and the order of pushes *)

Section PushFacts.
Context {T : Type} `{Scalar T}.

(** A loop that completes and whose rounds, if they complete on the initial
    state, return it, returns the initial state. *)
Lemma for_each_stays {A S} (body : A → S → result S) l s s' :
  (∀ x s1, x ∈ l → body x s = Ok s1 → s1 = s) →
  for_each l body s = Ok s' → s' = s.
Proof.
  induction l as [|x l IH]; intros Hbody Hrun; simpl in Hrun.
  - by injection Hrun as <-.
  - destruct (body x s) as [s1|] eqn:Hs1; simpl in Hrun; [|done].
    rewrite (Hbody x s1) in Hrun; [|by left|done].
    apply IH; [|done]. intros y t Hy. apply Hbody. by right.
Qed.

Lemma push_rows_loop isM (v u : gsFeSpace (T:=T)) patchInd (ev ev' : _eval (T:=T)) :
  push isM v u patchInd ev = Ok ev' →
  for_each (upto (Z.to_nat (sp_dim v)))
    (λ r, for_each (upto (mat_rows (sp_actives v)))
            (push_row isM (sp_mapper v) (if isM then sp_mapper u else sp_mapper v)
               (sp_actives v) (if isM then sp_actives u else sp_actives v)
               (if isM then sp_fixedPart u else mat_empty) (sp_dim u) patchInd r))
    ev = Ok ev'.
Proof.
  intros Hrun. unfold push in Hrun. destruct isM; simpl in Hrun.
  - apply bind_Ok in Hrun as (? & _ & Hrun). apply bind_Ok in Hrun as (? & _ & Hrun).
    apply bind_Ok in Hrun as (? & _ & Hrun). apply bind_Ok in Hrun as (rs & Hrs & Hrun).
    apply index_range_Ok in Hrs as [_ ->]. exact Hrun.
  - apply bind_Ok in Hrun as (? & _ & Hrun). apply bind_Ok in Hrun as (? & _ & Hrun).
    apply bind_Ok in Hrun as (rs & Hrs & Hrun).
    apply index_range_Ok in Hrs as [_ ->]. exact Hrun.
Qed.

(** X15: a push whose row space has no free index on the element leaves the
    functor, and with it matrix and right-hand side, exactly as it was; and
    it completes whenever a push of its kind is ready to complete. *)
Theorem push_without_free_rows (v u : gsFeSpace (T:=T)) patchInd (ev : _eval (T:=T)) :
  (∀ r i, r ∈ upto (Z.to_nat (sp_dim v)) → i ∈ upto (mat_rows (sp_actives v)) →
          is_free_index (sp_mapper v) (global_row v patchInd r i) = false) →
  (∀ isM ev', push isM v u patchInd ev = Ok ev' → ev' = ev)
  ∧ (push_matrix_ready v u patchInd ev → push true v u patchInd ev = Ok ev)
  ∧ (push_vector_ready v patchInd ev → push false v u patchInd ev = Ok ev).
Proof.
  intros Hfixed.
  assert (∀ isM ev', push isM v u patchInd ev = Ok ev' → ev' = ev) as Hsame.
  { intros isM ev' Hrun%push_rows_loop.
    eapply for_each_stays; [|exact Hrun]. intros r s1 Hr Hrow. simpl in Hrow.
    eapply for_each_stays; [|exact Hrow]. intros i s2 Hi Hstep.
    unfold push_row in Hstep.
    destruct (mat_at (sp_actives v) i) as [ri|] eqn:Hri; simpl in Hstep; [|done].
    specialize (Hfixed r i Hr Hi). unfold global_row, active_at in Hfixed.
    rewrite Hri in Hfixed. simpl in Hfixed. rewrite Hfixed in Hstep.
    by injection Hstep. }
  split_and!; [done|..].
  - intros Hready. destruct (push_matrix_completes v u patchInd ev Hready) as [ev' Hev'].
    by rewrite Hev', (Hsame _ _ Hev').
  - intros Hready. destruct (push_vector_completes v u patchInd ev Hready) as [ev' Hev'].
    by rewrite Hev', (Hsame _ _ Hev').
Qed.

(** X16: a matrix-valued push of a local block whose entries are all zero
    leaves the functor exactly as it was: no coefficient is stored, none is
    changed, and the right-hand side is not touched. *)
Theorem push_zero_block (v u : gsFeSpace (T:=T)) patchInd (ev : _eval (T:=T)) :
  (∀ r c x, mat_coeff (localMat ev) r c = Ok x → s_is_zero x = true) →
  (∀ ev', push true v u patchInd ev = Ok ev' → ev' = ev)
  ∧ (push_matrix_ready v u patchInd ev → push true v u patchInd ev = Ok ev).
Proof.
  intros Hzero.
  assert (∀ ev', push true v u patchInd ev = Ok ev' → ev' = ev) as Hsame.
  { intros ev' Hrun%push_rows_loop.
    eapply for_each_stays; [|exact Hrun]. intros r s1 Hr Hrow. simpl in Hrow.
    eapply for_each_stays; [|exact Hrow]. intros i s2 Hi Hstep.
    unfold push_row in Hstep.
    destruct (mat_at (sp_actives v) i) as [ri|]; simpl in Hstep; [|done].
    destruct (is_free_index _ _); [|by injection Hstep].
    destruct (index_range (sp_dim u)) as [cs|]; simpl in Hstep; [|done].
    eapply for_each_stays; [|exact Hstep]. intros c s3 Hc Hcol. simpl in Hcol.
    eapply for_each_stays; [|exact Hcol]. intros j s4 Hj Hentry.
    unfold push_entry in Hentry.
    destruct (mat_coeff (localMat ev) _ _) as [m|] eqn:Hm; simpl in Hentry; [|done].
    rewrite (Hzero _ _ _ Hm) in Hentry. by injection Hentry. }
  split; [done|].
  intros Hready. destruct (push_matrix_completes v u patchInd ev Hready) as [ev' Hev'].
  by rewrite Hev', (Hsame _ Hev').
Qed.

End PushFacts.

Section PushOrder.
Context {T : Type} `{Scalar T}.

Lemma foldl_past {A B} (f g : A → B → A) x a l :
  (∀ x a b, f (g x a) b = g (f x b) a) →
  foldl f (g x a) l = g (foldl f x l) a.
Proof.
  intros Hfg. revert x. induction l as [|b l IH]; intros x; simpl; [done|].
  by rewrite Hfg, IH.
Qed.

Lemma foldl_swap {A B} (f g : A → B → A) x l1 l2 :
  (∀ x a b, f (g x a) b = g (f x b) a) →
  foldl f (foldl g x l1) l2 = foldl g (foldl f x l2) l1.
Proof.
  intros Hfg. revert x. induction l1 as [|a l1 IH]; intros x; simpl; [done|].
  by rewrite IH, foldl_past.
Qed.

Lemma accumulate_swap (t1 t2 : list T) o :
  (∀ x a b, s_add (s_add x a) b = s_add (s_add x b) a) →
  accumulate t2 (accumulate t1 o) = accumulate t1 (accumulate t2 o).
Proof.
  intros Hadd. destruct t1 as [|a t1], t2 as [|b t2]; try done.
  unfold accumulate. f_equal. cbn [default].
  by apply (foldl_swap s_add s_add).
Qed.

(** The effect of a push of either kind. *)
Lemma push_effect isM (v u : gsFeSpace (T:=T)) patchInd (ev ev' : _eval (T:=T)) :
  push isM v u patchInd ev = Ok ev' →
  effect (if isM then s_sub else s_add)
    (if isM then matrix_terms v u patchInd (localMat ev) else λ _ _, [])
    (if isM then elim_terms v u patchInd (localMat ev)
     else vector_terms v patchInd (localMat ev)) ev ev'.
Proof.
  destruct isM; intros Hrun; [by apply push_matrix_effect|by eapply push_vector_effect].
Qed.

(** X17: the pushes of two elements commute.  Over a coefficient type in
    which additions and subtractions may be exchanged, pushing the local
    block of one element and then that of another leaves the same matrix
    and the same right-hand side as pushing them in the other order,
    whatever the kinds of the two blocks. *)
Theorem pushes_commute k1 k2 (v1 u1 v2 u2 : gsFeSpace (T:=T)) p1 p2
  (M1 M2 : gsMatrix T) (ev ev1 ev12 ev2 ev21 : _eval (T:=T)) :
  (∀ x a b, s_add (s_add x a) b = s_add (s_add x b) a) →
  (∀ x a b, s_sub (s_sub x a) b = s_sub (s_sub x b) a) →
  (∀ x a b, s_add (s_sub x a) b = s_sub (s_add x b) a) →
  push k1 v1 u1 p1 (with_localMat M1 ev) = Ok ev1 →
  push k2 v2 u2 p2 (with_localMat M2 ev1) = Ok ev12 →
  push k2 v2 u2 p2 (with_localMat M2 ev) = Ok ev2 →
  push k1 v1 u1 p1 (with_localMat M1 ev2) = Ok ev21 →
  ev_matrix ev12 = ev_matrix ev21 ∧ ev_rhs ev12 = ev_rhs ev21.
Proof.
  intros Hadd Hsub Hmix H1 H12 H2 H21.
  apply push_effect in H1 as E1. apply push_effect in H12 as E12.
  apply push_effect in H2 as E2. apply push_effect in H21 as E21.
  simpl in E1, E12, E2, E21.
  destruct E1 as [_ _ r1 c1 v1' rr1 rc1 rl1 co1 rh1].
  destruct E12 as [_ _ r12 c12 v12 rr12 rc12 rl12 co12 rh12].
  destruct E2 as [_ _ r2 c2 v2' rr2 rc2 rl2 co2 rh2].
  destruct E21 as [_ _ r21 c21 v21 rr21 rc21 rl21 co21 rh21].
  simpl in *. split.
  - assert (sm_coeffs (ev_matrix ev12) = sm_coeffs (ev_matrix ev21)) as Hco.
    { apply map_eq. intros [a b]. rewrite co12, co1, co21, co2.
      destruct k1, k2; try done. by apply accumulate_swap. }
    destruct (ev_matrix ev12), (ev_matrix ev21). simpl in *. congruence.
  - assert (mat_data (ev_rhs ev12) = mat_data (ev_rhs ev21)) as Hdata.
    { apply list_eq. intros i.
      destruct (decide (i < length (mat_data (ev_rhs ev)))%nat) as [Hi|Hi].
      - destruct (mat_at_lt (ev_rhs ev) (Z.of_nat i)) as [x0 Hx0]; [lia|].
        pose proof (rh12 _ _ (rh1 _ _ Hx0)) as Ha.
        pose proof (rh21 _ _ (rh2 _ _ Hx0)) as Hb.
        apply list_at_Ok in Ha as [_ Ha]. apply list_at_Ok in Hb as [_ Hb].
        rewrite Nat2Z.id in Ha, Hb. rewrite Ha, Hb. f_equal.
        apply foldl_swap. intros x a b. destruct k1, k2; auto.
      - rewrite !lookup_ge_None_2; [done|lia..]. }
    destruct (ev_rhs ev12), (ev_rhs ev21). simpl in *. congruence.
Qed.

End PushOrder.

(** *** Pushes on the worked element *)

Lemma push_without_free_rows_witness :
  push true fixed_space demo_space 0 demo_eval = Ok demo_eval
  ∧ push false fixed_space demo_space 0 demo_vector_eval = Ok demo_vector_eval.
Proof.
  assert (∀ r i, r ∈ upto (Z.to_nat (sp_dim fixed_space)) →
                 i ∈ upto (mat_rows (sp_actives fixed_space)) →
                 is_free_index (sp_mapper fixed_space) (global_row fixed_space 0 r i)
                 = false) as Hfixed.
  { intros r i Hr Hi. apply elem_of_upto in Hr, Hi. simpl in Hr, Hi.
    assert (r = 0) as -> by lia.
    assert (i = 0 ∨ i = 1 ∨ i = 2) as [->|[->| ->]] by lia; reflexivity. }
  split.
  - destruct (push_without_free_rows fixed_space demo_space 0 demo_eval Hfixed)
      as [Hsame _].
    rewrite <- (Hsame true (value (push true fixed_space demo_space 0 demo_eval)
                              demo_vector_eval)) at 2; vm_compute; reflexivity.
  - destruct (push_without_free_rows fixed_space demo_space 0 demo_vector_eval Hfixed)
      as [Hsame _].
    rewrite <- (Hsame false (value (push false fixed_space demo_space 0 demo_vector_eval)
                               demo_eval)) at 2; vm_compute; reflexivity.
Defined.

Lemma push_zero_block_witness :
  push true demo_space demo_space 0 zero_block_eval = Ok zero_block_eval.
Proof.
  assert (∀ r c x, mat_coeff (localMat zero_block_eval) r c = Ok x →
                   s_is_zero x = true) as Hzero.
  { intros r c x Hx. unfold mat_coeff in Hx.
    destruct (decide _) as [[Hr Hc]|]; [|done].
    apply list_at_Ok in Hx as [_ Hx]. simpl in Hx.
    assert (x ∈ [0; 0; 0; 0; 0; 0; 0; 0; 0]) as Hin
      by (eapply list_elem_of_lookup_2; exact Hx).
    repeat (apply elem_of_cons in Hin as [->|Hin]; [reflexivity|]).
    by apply elem_of_nil in Hin. }
  destruct (push_zero_block demo_space demo_space 0 zero_block_eval Hzero) as [Hsame _].
  rewrite <- (Hsame (value (push true demo_space demo_space 0 zero_block_eval) demo_eval))
    at 2; vm_compute; reflexivity.
Defined.

(** The matrix-valued block of [demo_eval] and the vector-valued block of
    [demo_vector_eval], pushed in either order. *)
Lemma pushes_commute_witness :
  let M1 := localMat demo_eval in
  let M2 := localMat demo_vector_eval in
  let ev1 := value (push true demo_space demo_space 0 (with_localMat M1 demo_eval))
               demo_eval in
  let ev12 := value (push false demo_space demo_space 0 (with_localMat M2 ev1)) demo_eval in
  let ev2 := value (push false demo_space demo_space 0 (with_localMat M2 demo_eval))
               demo_eval in
  let ev21 := value (push true demo_space demo_space 0 (with_localMat M1 ev2)) demo_eval in
  ev_matrix ev12 = ev_matrix ev21 ∧ ev_rhs ev12 = ev_rhs ev21
  ∧ ev_rhs ev12 = mkMatrix 2 1 [97; 188].
Proof.
  intros M1 M2 ev1 ev12 ev2 ev21.
  destruct (pushes_commute true false demo_space demo_space demo_space demo_space 0 0
              M1 M2 demo_eval ev1 ev12 ev2 ev21) as [HM Hrhs];
    try (vm_compute; reflexivity); try (intros; simpl; lia).
  split_and!; [exact HM|exact Hrhs|reflexivity].
Defined.

(** ** Further members of the container basis *)

Section ContainerMemberFacts.
Context {T : Type} `{Scalar T}.

Lemma degree_loop (dir : Z) (l : list (gsTensorBSplineBasis (T:=T))) :
  ∀ acc,
    let r := foldl (λ deg b, if decide (tb_degree b dir > deg) then tb_degree b dir else deg)
               acc l in
    acc ≤ r
    ∧ (∀ b, b ∈ l → tb_degree b dir ≤ r)
    ∧ (r = acc ∨ ∃ b, b ∈ l ∧ r = tb_degree b dir).
Proof.
  induction l as [|b l IH]; intros acc; simpl.
  - split_and!; [lia| |by left]. by intros b ?%elem_of_nil.
  - destruct (IH (if decide (tb_degree b dir > acc) then tb_degree b dir else acc))
      as (Hle & Hall & Hex).
    split_and!.
    + destruct (decide _); lia.
    + intros b' [->|Hb']%elem_of_cons; [|by apply Hall]. destruct (decide _); lia.
    + destruct Hex as [->|(b' & Hb' & ->)].
      * destruct (decide _); [right; exists b; split; [by left|done]|by left].
      * right. exists b'. split; [by right|done].
Qed.

Lemma append_rows_post (R M R' : gsMatrix T) :
  mat_wf R → append_rows R M = Ok R' →
  mat_wf R' ∧ mat_rows R' = (mat_rows R + mat_rows M)%nat
  ∧ mat_cols R' = mat_cols R ∧ mat_cols M = mat_cols R
  ∧ (∀ r c x, entry R r c = Some x → entry R' r c = Some x)
  ∧ (∀ r c x, entry M r c = Some x → entry R' (mat_rows R + r) c = Some x).
Proof.
  intros Hwf Hrun. unfold append_rows in Hrun.
  destruct (decide (mat_cols M = mat_cols R)) as [Hc|]; [|done].
  injection Hrun as <-. unfold mat_wf in *. simpl.
  split_and!; try done.
  - by rewrite length_fmap, length_seq.
  - intros r c x Hx. pose proof (entry_Some_lt _ _ _ _ Hx) as [Hr Hcc].
    unfold entry in Hx |- *. simpl. rewrite decide_True in Hx by done.
    rewrite decide_True by lia.
    rewrite list_lookup_fmap, lookup_seq_lt by nia. simpl.
    rewrite Nat.Div0.mod_add, Nat.mod_small by lia.
    rewrite Nat.div_add, Nat.div_small by lia. simpl.
    rewrite decide_True by done. by rewrite Hx.
  - intros r c x Hx. pose proof (entry_Some_lt _ _ _ _ Hx) as [Hr Hcc].
    unfold entry in Hx |- *. simpl. rewrite decide_True in Hx by done.
    rewrite decide_True by lia.
    rewrite list_lookup_fmap, lookup_seq_lt by nia. simpl.
    rewrite Nat.Div0.mod_add, Nat.mod_small by lia.
    rewrite Nat.div_add, Nat.div_small by lia. simpl.
    rewrite decide_False by lia.
    replace (mat_rows R + r - mat_rows R)%nat with r by lia. by rewrite Hx.
Qed.

Lemma stack_offset_S (f : gsTensorBSplineBasis (T:=T) → gsMatrix T → gsMatrix T)
  (B : gsContainerBasis (T:=T)) u i b :
  basisContainer B !! i = Some b →
  stack_offset f B u (S i) = (stack_offset f B u i + mat_rows (f b u))%nat.
Proof.
  intros Hb. unfold stack_offset. rewrite (take_S_r _ _ _ Hb), sum_list_with_app.
  simpl. lia.
Qed.

(** The loop of [stack_into] from subspace [length pre] on. *)
Lemma stack_loop (f : gsTensorBSplineBasis (T:=T) → gsMatrix T → gsMatrix T)
  (B : gsContainerBasis (T:=T)) u rest :
  ∀ pre R R',
    basisContainer B = pre ++ rest →
    mat_wf R → mat_rows R = stack_offset f B u (length pre) → mat_cols R = mat_cols u →
    (∀ i b r c x, (i < length pre)%nat → basisContainer B !! i = Some b →
                  entry (f b u) r c = Some x →
                  entry R (stack_offset f B u i + r) c = Some x) →
    for_each rest (λ b result, append_rows result (f b u)) R = Ok R' →
    stacked f B u R' ∧ ∀ b, b ∈ rest → mat_cols (f b u) = mat_cols u.
Proof.
  induction rest as [|b rest IH]; intros pre R R' HB Hwf Hrows Hcols Hin Hrun;
    simpl in Hrun.
  - injection Hrun as <-. rewrite app_nil_r in HB. subst pre.
    split; [|by intros b ?%elem_of_nil]. unfold stacked. split_and!; try done.
    intros i b r c x Hb Hx. apply (Hin i b); [by eapply lookup_lt_Some|done..].
  - destruct (append_rows R (f b u)) as [R1|] eqn:HR1; simpl in Hrun; [|done].
    destruct (append_rows_post _ _ _ Hwf HR1) as (Hwf1 & Hr1 & Hc1 & HcM & Hold & Hnew).
    assert (basisContainer B !! length pre = Some b) as Hb.
    { rewrite HB. by rewrite lookup_app_r, Nat.sub_diag by lia. }
    destruct (IH (pre ++ [b]) R1 R') as [Hst Hcs]; try done.
    + by rewrite HB, <- app_assoc.
    + rewrite length_app. simpl. rewrite Nat.add_1_r, (stack_offset_S _ _ _ _ _ Hb). lia.
    + congruence.
    + intros i b' r c x Hi Hb' Hx. rewrite length_app in Hi. simpl in Hi.
      destruct (decide (i = length pre)) as [->|Hne].
      * rewrite Hb in Hb'. injection Hb' as <-. rewrite <- Hrows. by apply Hnew.
      * apply Hold. apply (Hin i b'); [lia|done..].
    + split; [done|]. intros b' [->|Hb']%elem_of_cons; [congruence|by apply Hcs].
Qed.

Lemma stack_into_stacked (f : gsTensorBSplineBasis (T:=T) → gsMatrix T → gsMatrix T)
  (B : gsContainerBasis (T:=T)) u R :
  stack_into f B u = Ok R →
  stacked f B u R ∧ ∀ b, b ∈ basisContainer B → mat_cols (f b u) = mat_cols u.
Proof.
  intros Hrun. apply (stack_loop f B u (basisContainer B) [] _ R eq_refl) in Hrun;
    try done.
  intros; simpl in *; lia.
Qed.

Lemma stack_into_completes (f : gsTensorBSplineBasis (T:=T) → gsMatrix T → gsMatrix T)
  (B : gsContainerBasis (T:=T)) u :
  (∀ b, b ∈ basisContainer B → mat_cols (f b u) = mat_cols u) →
  ∃ R, stack_into f B u = Ok R.
Proof.
  intros Hcols. unfold stack_into.
  destruct (for_each_completes (λ R : gsMatrix T, mat_cols R = mat_cols u)
              (λ b result, append_rows result (f b u)) (basisContainer B)
              (mkMatrix 0 (mat_cols u) [])) as (R & HR & _); [done| |eauto].
  intros b R Hb HR. unfold append_rows.
  rewrite decide_True by (rewrite HR; by apply Hcols). eauto.
Qed.

End ContainerMemberFacts.

Section ContainerMemberTheorems.
Context {T : Type} `{Scalar T}.
Variable tb_eval_into : gsTensorBSplineBasis (T:=T) → gsMatrix T → gsMatrix T.
Variable tb_deriv_into : gsTensorBSplineBasis (T:=T) → gsMatrix T → gsMatrix T.
Variable tb_deriv2_into : gsTensorBSplineBasis (T:=T) → gsMatrix T → gsMatrix T.

(** X18: the degree of a container in a direction is the largest degree
    of its subspaces in that direction, and 0 if there is no subspace or
    none of a positive degree: it is never negative, no subspace exceeds
    it, and it is 0 or the degree of one of the subspaces. *)
Theorem degree_is_maximum (B : gsContainerBasis (T:=T)) (dir : Z) :
  0 ≤ degree B dir
  ∧ (∀ b, b ∈ basisContainer B → tb_degree b dir ≤ degree B dir)
  ∧ (degree B dir = 0 ∨ ∃ b, b ∈ basisContainer B ∧ degree B dir = tb_degree b dir).
Proof. apply (degree_loop dir (basisContainer B) 0). Qed.

(** X19: setBasis replaces the subspace of the given row and no other,
    getBasis reads back what was set, and the size of the container changes
    by the difference of the sizes of the new and the old subspace.  A row
    outside the container is outside the vector: setBasis never adds a
    subspace. *)
Theorem setBasis_getBasis (B : gsContainerBasis (T:=T)) (row : Z)
  (basis : gsTensorBSplineBasis (T:=T)) :
  (0 ≤ row < Z.of_nat (length (basisContainer B)) → ∃ B', setBasis row basis B = Ok B')
  ∧ (¬ (0 ≤ row < Z.of_nat (length (basisContainer B))) →
     setBasis row basis B = Fatal OutOfRange ∧ getBasis row B = Fatal OutOfRange)
  ∧ ∀ B', setBasis row basis B = Ok B' →
      getBasis row B' = Ok basis
      ∧ (∀ k, k ≠ row → getBasis k B' = getBasis k B)
      ∧ length (basisContainer B') = length (basisContainer B)
      ∧ d B' = d B
      ∧ ∃ old, getBasis row B = Ok old
               ∧ size B' = size B - tb_size old + tb_size basis.
Proof.
  split_and!.
  - intros Hrow. unfold setBasis.
    destruct (list_at_lt (basisContainer B) row Hrow) as [old ->]. simpl. eauto.
  - intros Hrow. unfold setBasis, getBasis, list_at.
    destruct (decide (0 ≤ row)); [|done].
    rewrite lookup_ge_None_2 by lia. done.
  - intros B' Hrun. unfold setBasis in Hrun.
    destruct (list_at (basisContainer B) row) as [old|] eqn:Hold; simpl in Hrun; [|done].
    injection Hrun as <-. apply list_at_Ok in Hold as [Hrow Hold].
    pose proof (lookup_lt_Some _ _ _ Hold) as Hlt.
    unfold getBasis. simpl. split_and!.
    + apply list_at_Ok. split; [done|]. by rewrite list_lookup_insert_eq.
    + intros k Hk. unfold list_at. destruct (decide (0 ≤ k)); [|done].
      by rewrite list_lookup_insert_ne by lia.
    + by rewrite length_insert.
    + done.
    + exists old. split; [by apply list_at_Ok|].
      rewrite !size_sum. simpl. rewrite insert_take_drop by done.
      rewrite <- (take_drop_middle _ _ _ Hold) at 3.
      rewrite !fmap_app, !fmap_cons, !Zsum_app. unfold Zsum. simpl. lia.
Qed.

(** X20: eval_into, deriv_into and deriv2_into put the results of the
    subspaces one below the other, in the order of the subspaces, with as
    many columns as there are points; the result of a container without
    subspaces has no rows.  Each of them completes exactly when every
    subspace returns one column for each point. *)
Theorem evaluations_are_stacked (B : gsContainerBasis (T:=T)) (u : gsMatrix T) :
  (((∃ R, eval_into tb_eval_into B u = Ok R)
    ↔ ∀ b, b ∈ basisContainer B → mat_cols (tb_eval_into b u) = mat_cols u)
   ∧ ∀ R, eval_into tb_eval_into B u = Ok R → stacked tb_eval_into B u R)
  ∧ (((∃ R, deriv_into tb_deriv_into B u = Ok R)
      ↔ ∀ b, b ∈ basisContainer B → mat_cols (tb_deriv_into b u) = mat_cols u)
     ∧ ∀ R, deriv_into tb_deriv_into B u = Ok R → stacked tb_deriv_into B u R)
  ∧ (((∃ R, deriv2_into tb_deriv2_into B u = Ok R)
      ↔ ∀ b, b ∈ basisContainer B → mat_cols (tb_deriv2_into b u) = mat_cols u)
     ∧ ∀ R, deriv2_into tb_deriv2_into B u = Ok R → stacked tb_deriv2_into B u R).
Proof.
  assert (∀ f, ((∃ R, stack_into f B u = Ok R)
                ↔ ∀ b, b ∈ basisContainer B → mat_cols (f b u) = mat_cols u)
               ∧ ∀ R, stack_into f B u = Ok R → stacked f B u R) as Hstack.
  { intros f. split; [split|].
    - intros [R HR]. by apply stack_into_stacked in HR as [_ Hcols].
    - apply stack_into_completes.
    - intros R HR. by apply stack_into_stacked in HR as [Hst _]. }
  split_and!; apply Hstack.
Qed.

Lemma active_into_rows (B : gsContainerBasis (T:=T)) (u : gsMatrix T) A :
  active_into B u = Ok A →
  mat_rows A = row_offset B u (length (basisContainer B))
  ∧ mat_cols A = mat_cols u
  ∧ ∀ i b r c x,
      basisContainer B !! i = Some b → entry (tb_active_into b u) r c = Some x →
      entry A (row_offset B u i + r) c = Some (x + offset B i).
Proof.
  set (nr := foldl (λ nr t, nr + mat_rows t)%nat 0%nat
               ((λ b, tb_active_into b u) <$> basisContainer B)).
  assert (nr = row_offset B u (length (basisContainer B))) as Hnr.
  { unfold nr, row_offset. rewrite foldl_fmap, take_ge by done.
    by rewrite (foldl_sum_list (λ b, mat_rows (tb_active_into b u))). }
  assert (active_inv B u nr 0
            (mkMatrix nr (mat_cols u) (replicate (nr * mat_cols u) 0), 0, 0%nat))
    as Hinit.
  { unfold active_inv, mat_wf. simpl. split_and!; try done.
    - by rewrite length_replicate.
    - intros; lia.
    - intros _ r c Hr. unfold row_offset in Hr. simpl in Hr. lia. }
  intros Hrun. unfold active_into in Hrun.
  apply bind_Ok in Hrun as (chk & _ & Hrun).
  apply bind_Ok in Hrun as (st & Hloop & Hrun). injection Hrun as <-.
  fold nr in Hloop.
  pose proof (active_inv_loop B u nr (basisContainer B) [] _ _ eq_refl Hinit Hloop)
    as (_ & _ & Hwf & Hrows & Hcols & Hin & _).
  split_and!; [congruence|done|].
  intros i b r c x Hi Hx. apply (Hin i b r c x); [by eapply lookup_lt_Some|done..].
Qed.

(** X21: the rows of eval_into follow the rows of active_into.  When every
    subspace returns one value for each function it reports active, the two
    results have the same extents, and wherever active_into holds the
    index of a function of subspace [i], shifted by the sizes of the
    subspaces before it, eval_into holds the value of that function. *)
Theorem eval_into_follows_active_into (B : gsContainerBasis (T:=T)) (u : gsMatrix T)
  (R : gsMatrix T) (A : gsMatrix Z) :
  (∀ b, b ∈ basisContainer B →
        mat_rows (tb_eval_into b u) = mat_rows (tb_active_into b u)) →
  eval_into tb_eval_into B u = Ok R → active_into B u = Ok A →
  mat_rows R = mat_rows A ∧ mat_cols R = mat_cols A
  ∧ ∀ i b r c x v,
      basisContainer B !! i = Some b →
      entry (tb_active_into b u) r c = Some x →
      entry (tb_eval_into b u) r c = Some v →
      entry A (row_offset B u i + r) c = Some (x + offset B i)
      ∧ entry R (row_offset B u i + r) c = Some v.
Proof.
  intros Hrows HR HA.
  apply stack_into_stacked in HR as [(_ & HRr & HRc & HRin) _].
  apply active_into_rows in HA as (HAr & HAc & HAin).
  assert (∀ i, stack_offset tb_eval_into B u i = row_offset B u i) as Hoff.
  { intros i. unfold stack_offset, row_offset.
    assert (∀ b, b ∈ take i (basisContainer B) →
                 mat_rows (tb_eval_into b u) = mat_rows (tb_active_into b u)) as Hin.
    { intros b Hb. apply Hrows. by eapply subseteq_take. }
    induction (take i (basisContainer B)) as [|b l IH]; [done|]. simpl.
    rewrite (Hin b) by (by left). rewrite IH; [done|].
    intros b' Hb'. apply Hin. by right. }
  split_and!.
  - by rewrite HRr, HAr, Hoff.
  - by rewrite HRc, HAc.
  - intros i b r c x v Hb Hx Hv. split; [by eapply HAin|].
    rewrite <- Hoff. by eapply HRin.
Qed.

End ContainerMemberTheorems.

(** *** The worked container *)

Lemma setBasis_getBasis_witness :
  let B' := value (setBasis 0 demo_subspace demo_container) demo_container in
  getBasis 0 B' = Ok demo_subspace
  ∧ getBasis 1 B' = getBasis 1 demo_container
  ∧ size B' = 13 - 4 + 6
  ∧ setBasis 2 demo_subspace demo_container = Fatal OutOfRange.
Proof.
  intros B'.
  destruct (setBasis_getBasis demo_container 0 demo_subspace) as (_ & _ & Hset).
  destruct (setBasis_getBasis demo_container 2 demo_subspace) as (_ & Hout & _).
  destruct (Hset B') as (Hget & Hother & _ & _ & old & Hold & Hsize);
    [vm_compute; reflexivity|].
  split_and!.
  - exact Hget.
  - apply Hother. lia.
  - reflexivity.
  - apply Hout. simpl. lia.
Defined.

Lemma evaluations_are_stacked_witness :
  let R := value (eval_into demo_eval_into demo_container demo_points) mat_empty in
  stacked demo_eval_into demo_container demo_points R
  ∧ R = mkMatrix 5 2 [4; 4; 9; 9; 9; 4; 4; 9; 9; 9].
Proof.
  intros R.
  destruct (evaluations_are_stacked demo_eval_into demo_eval_into demo_eval_into
              demo_container demo_points) as [[_ Hstacked] _].
  split; [|reflexivity]. apply Hstacked. vm_compute. reflexivity.
Defined.

(** Row 3 of both results belongs to the second function of the second
    subspace: its local index 4 becomes 4 + 4, its value is 9. *)
Lemma eval_into_follows_active_into_witness :
  let R := value (eval_into demo_eval_into demo_container demo_points) mat_empty in
  let A := value (active_into demo_container demo_points) mat_empty in
  mat_rows R = mat_rows A ∧ mat_cols R = mat_cols A
  ∧ entry A 3 1 = Some (4 + 4) ∧ entry R 3 1 = Some 9.
Proof.
  intros R A.
  destruct (eval_into_follows_active_into demo_eval_into demo_container demo_points R A)
    as (Hrows & Hcols & Hin).
  { intros b Hb. unfold demo_container in Hb. simpl in Hb.
    apply elem_of_cons in Hb as [->|Hb];
      [|apply elem_of_cons in Hb as [->|Hb]; [|by apply elem_of_nil in Hb]];
      reflexivity. }
  { vm_compute. reflexivity. }
  { vm_compute. reflexivity. }
  pose proof (λ b, Hin 1%nat b 1%nat 1%nat 4 9) as Hrow.
  edestruct Hrow as [HA HR]; [reflexivity..|].
  split_and!; [exact Hrows|exact Hcols|exact HA|exact HR].
Defined.

(** ** The local block of an element *)

Section WeightedSumFacts.
Context {T : Type} `{Scalar T}.

Lemma mat_add_scaled_post (M E M1 : gsMatrix T) wk :
  mat_wf M → mat_wf E → mat_add M (mat_scale wk E) = Ok M1 →
  mat_wf M1 ∧ mat_rows M1 = mat_rows M ∧ mat_cols M1 = mat_cols M
  ∧ mat_rows E = mat_rows M ∧ mat_cols E = mat_cols M
  ∧ ∀ idx x0, mat_at M idx = Ok x0 →
      mat_at M1 idx = Ok (s_add x0 (s_mul wk (entry_or_zero E idx))).
Proof.
  intros HM HE Hrun. unfold mat_add in Hrun. simpl in Hrun.
  destruct (decide _) as [[Hr Hc]|]; [|done]. injection Hrun as <-.
  unfold mat_wf in *. simpl.
  assert (length (mat_data E) = length (mat_data M)) as Hlen by (rewrite HM, HE, Hr, Hc; lia).
  split_and!; try done.
  - rewrite length_zip_with, length_fmap. lia.
  - intros idx x0 Hx0. apply list_at_Ok in Hx0 as [Hidx Hx0].
    destruct (lookup_lt_is_Some_2 (mat_data E) (Z.to_nat idx)) as [y Hy].
    { rewrite Hlen. by eapply lookup_lt_Some. }
    apply list_at_Ok. split; [done|]. simpl.
    rewrite lookup_zip_with, Hx0, list_lookup_fmap, Hy. simpl.
    unfold entry_or_zero, mat_at, list_at. rewrite decide_True by done.
    by rewrite Hy.
Qed.

Lemma weighted_sum_loop ctx (w : list T) (e : gsExpr (T:=T)) l :
  ∀ (M M' : gsMatrix T) (st st' : gsTraversal (T:=T)),
    (∀ k, mat_wf (eval e ctx k)) → mat_wf M →
    for_each l
      (λ k '(M, st),
         wk ← list_at w (Z.of_nat k);
         M' ← mat_add M (mat_scale wk (eval e ctx (Z.of_nat k)));
         Ok (M', log_call (CallEval (Z.of_nat k)) st))
      (M, st) = Ok (M', st') →
    mat_wf M' ∧ mat_rows M' = mat_rows M ∧ mat_cols M' = mat_cols M
    ∧ (∀ k, k ∈ l → mat_rows (eval e ctx (Z.of_nat k)) = mat_rows M
                    ∧ mat_cols (eval e ctx (Z.of_nat k)) = mat_cols M)
    ∧ ∀ idx x0, mat_at M idx = Ok x0 →
        mat_at M' idx
        = Ok (foldl (λ acc k, s_add acc (weighted_term ctx w e idx k)) x0 (Z.of_nat <$> l)).
Proof.
  induction l as [|k l IH]; intros M M' st st' Hwf HM Hrun; simpl in Hrun.
  - injection Hrun as <- <-. split_and!; try done. by intros k ?%elem_of_nil.
  - destruct (list_at w (Z.of_nat k)) as [wk|] eqn:Hwk; simpl in Hrun; [|done].
    destruct (mat_add _ _) as [M1|] eqn:HM1; simpl in Hrun; [|done].
    destruct (mat_add_scaled_post _ _ _ _ HM (Hwf _) HM1)
      as (HM1wf & Hr1 & Hc1 & HrE & HcE & Hentry).
    destruct (IH _ _ _ _ Hwf HM1wf Hrun) as (Hwf' & Hr' & Hc' & Hext & Hsum).
    split_and!; [done|congruence|congruence| |].
    + intros k' [->|Hk']%elem_of_cons; [done|].
      destruct (Hext k' Hk') as [-> ->]. done.
    + intros idx x0 Hx0. rewrite (Hsum idx _ (Hentry idx x0 Hx0)).
      rewrite fmap_cons. cbn [foldl].
      assert (weighted_term ctx w e idx (Z.of_nat k)
              = s_mul wk (entry_or_zero (eval e ctx (Z.of_nat k)) idx)) as ->; [|done].
      unfold weighted_term, quWeight. by rewrite Hwk.
Qed.

(** X22: the local block of an element is the weighted sum of the
    evaluations of the expression at the quadrature points: the block that
    is pushed, and that the functor keeps, has the extents of the evaluation
    at point 0, every other evaluation needs the same extents, and each of
    its entries is the entry of [w_0 * eval(0)] with the entries of
    [w_k * eval(k)] added in point order. *)
Theorem local_block_is_weighted_sum ctx (w : list T) (e : gsExpr (T:=T))
  (st st' : gsTraversal (T:=T)) :
  isNull e = false → (∀ k, mat_wf (eval e ctx k)) →
  eval_expr ctx w e st = Ok st' →
  mat_rows (localMat (tr_eval st')) = mat_rows (eval e ctx 0)
  ∧ mat_cols (localMat (tr_eval st')) = mat_cols (eval e ctx 0)
  ∧ (∀ k, (k < length w)%nat →
          mat_rows (eval e ctx (Z.of_nat k)) = mat_rows (eval e ctx 0)
          ∧ mat_cols (eval e ctx (Z.of_nat k)) = mat_cols (eval e ctx 0))
  ∧ ∀ idx, 0 ≤ idx < Z.of_nat (mat_rows (eval e ctx 0) * mat_cols (eval e ctx 0)) →
      mat_at (localMat (tr_eval st')) idx = Ok (weighted_sum ctx w e idx).
Proof.
  intros Hnull Hwf Hrun. unfold eval_expr in Hrun. rewrite Hnull in Hrun.
  destruct (list_at w 0) as [w0|] eqn:Hw0; simpl in Hrun; [|done].
  destruct (for_each _ _ _) as [[M st1]|] eqn:Hloop; simpl in Hrun; [|done].
  assert (mat_wf (mat_scale w0 (eval e ctx 0))) as Hwf0.
  { unfold mat_wf. simpl. rewrite length_fmap. apply Hwf. }
  destruct (weighted_sum_loop _ _ _ _ _ _ _ _ Hwf Hwf0 Hloop)
    as (HMwf & HMr & HMc & Hext & Hsum). simpl in HMr, HMc, Hext.
  assert (localMat (tr_eval st') = M) as ->.
  { destruct (isMatrix e); [|destruct (isVector e); [|done]].
    - destruct (push true _ _ _ _) as [ev'|] eqn:Hp; simpl in Hrun; [|done].
      injection Hrun as <-. simpl. by apply push_matrix_effect in Hp as [-> _].
    - destruct (push false _ _ _ _) as [ev'|] eqn:Hp; simpl in Hrun; [|done].
      injection Hrun as <-. simpl. by apply push_vector_effect in Hp as [-> _]. }
  split_and!; [done..| |].
  - intros k Hk. destruct k as [|k]; [done|].
    apply Hext. apply elem_of_seq. lia.
  - intros idx Hidx.
    destruct (mat_at_lt (eval e ctx 0) idx) as [y Hy]; [by rewrite (Hwf 0)|].
    rewrite (Hsum idx (s_mul w0 y)).
    + unfold weighted_sum. do 2 f_equal.
      unfold weighted_term, quWeight, entry_or_zero. by rewrite Hw0, Hy.
    + apply list_at_Ok in Hy as [? Hy]. apply list_at_Ok. split; [done|]. simpl.
      by rewrite list_lookup_fmap, Hy.
Qed.

End WeightedSumFacts.

(** Two points with the weights 2 and 3 and the values 1 and 2. *)
Lemma local_block_is_weighted_sum_witness :
  let ctx := mkContext demo_points 0 None None None in
  let st' := value (eval_expr ctx [2; 3] two_point_expr demo_traversal) demo_traversal in
  mat_at (localMat (tr_eval st')) 0 = Ok (2 * 1 + 3 * 2)
  ∧ ev_rhs (tr_eval st') = mkMatrix 1 1 [8].
Proof.
  intros ctx st'.
  destruct (local_block_is_weighted_sum ctx [2; 3] two_point_expr demo_traversal st')
    as (_ & _ & _ & Hsum); [reflexivity|intros k; reflexivity|vm_compute; reflexivity|].
  split; [|reflexivity]. apply (Hsum 0). simpl. lia.
Defined.

Section VectorFacts.
Context {T : Type} `{Scalar T}.

(** X23: initVector sizes the right-hand side to the number of degrees of
    freedom, as it is queried afterwards, times the number of right-hand
    sides, with every entry zero, and does not touch the matrix: what was
    assembled into the right-hand side is gone, what was assembled into the
    matrix stays. *)
Theorem initVector_zeroes_rhs (numRhs : Z) (a a' : gsExprAssembler (T:=T)) :
  initVector numRhs a = Ok a' →
  m_matrix a' = m_matrix a
  ∧ m_warnings a' = m_warnings a
  ∧ ∃ n, numDofs a' = Ok n
         ∧ m_rhs a' = mat_zero s_zero n numRhs
         ∧ (∀ k x, mat_at (m_rhs a') k = Ok x → x = s_zero)
         ∧ (0 ≤ n → 0 ≤ numRhs → rows (m_rhs a') = n ∧ cols (m_rhs a') = numRhs).
Proof.
  intros Hrun. unfold initVector in Hrun.
  destruct (resetDimensions a) as [a1|] eqn:Ha1; simpl in Hrun; [|done].
  destruct (numDofs a1) as [n|] eqn:Hn; simpl in Hrun; [|done].
  injection Hrun as <-. simpl.
  destruct (resetDimensions_slots _ _ Ha1) as (_ & _ & _ & _ & HM & _).
  assert (m_warnings a1 = m_warnings a) as Hw.
  { unfold resetDimensions in Ha1. destruct (length (m_vcol a)); [done|].
    destruct (for_each _ _ _); simpl in Ha1; [|done]. by injection Ha1 as <-. }
  split_and!; [done..|]. exists n. split_and!.
  - by rewrite <- Hn.
  - done.
  - intros k x Hk. apply list_at_Ok in Hk as [_ Hk]. simpl in Hk.
    apply lookup_replicate in Hk as [-> _]. done.
  - intros Hn0 Hr0. unfold rows, cols. simpl. lia.
Qed.

End VectorFacts.

Lemma initVector_zeroes_rhs_witness :
  let a' := value (initVector 2 single_block) single_block in
  m_matrix a' = m_matrix single_block
  ∧ m_rhs a' = mkMatrix 5 2 [0; 0; 0; 0; 0; 0; 0; 0; 0; 0].
Proof.
  intros a'.
  destruct (initVector_zeroes_rhs 2 single_block a')
    as (HM & _ & n & _ & _ & _); [vm_compute; reflexivity|].
  split; [exact HM|reflexivity].
Defined.

(** ** When sizing completes *)

Section SizingCompletes.
Context {T : Type} `{Scalar T}.

(** X24: initMatrix and initSystem complete on every assembler a program
    can build in which each block has its trial and test space registered,
    every registered mapper is finalized and the mesh has a dimension that
    is not negative; no other precondition is hidden in the sizing. *)
Theorem initSystem_completes (a : gsExprAssembler (T:=T)) :
  reachable a → all_registered a → length (m_vrow a) = length (m_vcol a) →
  (∀ i sd, slot_data (m_sdata a) (m_vcol a) i = Some sd
           ∨ slot_data (m_sdata a) (m_vrow a) i = Some sd →
           isFinalized (mapper sd) = true) →
  0 ≤ domainDim (multiBasis (m_exprdata a)) →
  (∃ a', initMatrix a = Ok a') ∧ (∃ a', initSystem a = Ok a').
Proof.
  intros Hreach Hall Hlen Hfin Hdim.
  pose proof (reachable_registry_wf _ Hreach) as W.
  destruct (resetDimensions_completes _ Hall) as [a0 Ha0].
  destruct (resetDimensions_registry _ _ W Ha0) as (Hr & Hc & Hl & Hsame).
  destruct (resetDimensions_slots _ _ Ha0) as (_ & _ & Hopt & Hex & _).
  destruct Hall as (Hne & _ & Hreg).
  assert (0 < length (m_vcol a))%nat as Hpos by (destruct (m_vcol a); [done|simpl; lia]).
  assert (∀ i, (i < length (m_vcol a))%nat →
               ∃ pc pr dc dr,
                 m_vcol a0 !! i = Some (Some pc) ∧ m_vrow a0 !! i = Some (Some pr)
                 ∧ m_sdata a0 !! pc = Some dc ∧ m_sdata a0 !! pr = Some dr
                 ∧ isFinalized (mapper dc) = true ∧ isFinalized (mapper dr) = true)
    as Hslots.
  { intros i Hi. destruct (Hreg i Hi) as (pc & pr & Hpc & Hpr & Hltc & Hltr).
    destruct (lookup_lt_is_Some_2 (m_sdata a0) pc) as [dc Hdc]; [lia|].
    destruct (lookup_lt_is_Some_2 (m_sdata a0) pr) as [dr Hdr]; [lia|].
    destruct (Hsame _ _ Hdc) as (dc0 & Hdc0 & Hsc).
    destruct (Hsame _ _ Hdr) as (dr0 & Hdr0 & Hsr).
    destruct (same_but_shift_sizes _ _ Hsc) as (_ & _ & _ & Hfc & _).
    destruct (same_but_shift_sizes _ _ Hsr) as (_ & _ & _ & Hfr & _).
    exists pc, pr, dc, dr. rewrite Hr, Hc, Hfc, Hfr. split_and!; try done.
    - apply (Hfin i). left. apply slot_data_Some. eauto.
    - apply (Hfin i). right. apply slot_data_Some. eauto. }
  destruct (Hslots (length (m_vcol a) - 1)%nat) as (pc & pr & dc & dr & Hpc & Hpr & Hdc
                                                    & Hdr & Hfc & Hfr); [lia|].
  assert (numDofs a0 = Ok (firstIndex (mapper dc) + freeSize (mapper dc))) as Hnc.
  { unfold numDofs, vec_back. rewrite last_lookup.
    replace (pred (length (m_vcol a0))) with (length (m_vcol a) - 1)%nat
      by (rewrite Hc; lia).
    rewrite Hpc. simpl. rewrite Hdc. simpl. by rewrite Hfc. }
  assert (numTestDofs a0 = Ok (firstIndex (mapper dr) + freeSize (mapper dr))) as Hnr.
  { unfold numTestDofs, vec_back. rewrite last_lookup.
    replace (pred (length (m_vrow a0))) with (length (m_vcol a) - 1)%nat
      by (rewrite Hr, Hlen; lia).
    rewrite Hpr. simpl. rewrite Hdr. simpl. by rewrite Hfr. }
  assert (∃ a', initMatrix a = Ok a') as [a1 Ha1].
  { unfold initMatrix. rewrite Ha0. simpl. rewrite Hnr. simpl. rewrite Hnc. simpl.
    destruct (decide _); [eauto|].
    unfold nz_estimate, index_range. simpl. rewrite Hex.
    rewrite decide_True by done. simpl.
    destruct (for_each_completes (λ _ : Z, True)
                (λ p nb, d0 ← deref (m_sdata a0) p; Ok (nb + dim d0)) (m_vrow a0) 0)
      as (nb & Hnb & _); [done| |].
    - intros p nb (i & Hi)%list_elem_of_lookup _.
      destruct (Hslots i) as (_ & pr' & _ & dr' & _ & Hpr' & _ & Hdr' & _).
      { rewrite <- Hlen, <- Hr. by eapply lookup_lt_Some. }
      rewrite Hpr' in Hi. injection Hi as <-. simpl. rewrite Hdr'. simpl. eauto.
    - unfold numBlocks. simpl. rewrite Hnb. simpl. eauto. }
  split; [eauto|]. unfold initSystem. rewrite Ha1. simpl.
  destruct (initMatrix_inv _ _ Ha1) as (a0' & _ & _ & Ha0' & _ & _ & Hsd & _ & Hvc & _).
  rewrite Ha0 in Ha0'. injection Ha0' as <-.
  rewrite (numDofs_ext a1 a0), Hnc by done. simpl. eauto.
Qed.

End SizingCompletes.

Lemma initSystem_completes_witness :
  (∃ a', initMatrix mixed_blocks = Ok a') ∧ (∃ a', initSystem mixed_blocks = Ok a').
Proof.
  apply (initSystem_completes mixed_blocks reachable_mixed_blocks
           all_registered_mixed_blocks); [reflexivity| |simpl; lia].
  intros i sd Hsd.
  assert (i < 2)%nat as Hi.
  { destruct Hsd as [Hsd|Hsd]; apply slot_data_lt in Hsd; simpl in Hsd; lia. }
  assert (i = 0 ∨ i = 1)%nat as [->| ->] by lia;
    destruct Hsd as [Hsd|Hsd]; vm_compute in Hsd; injection Hsd as <-; reflexivity.
Defined.

(** ** Assembling nothing *)

Section NullAssembly.
Context {T : Type} `{Scalar T} {Element QuRule : Type}.
Variable getPtr : Z → gsOptionList (T:=T) → option Z → QuRule.
Variable mapTo : QuRule → Element → gsMatrix T * list T.
Variable makeDomainIterator : Z → option Z → list Element.



End NullAssembly.

